(** * ably-go: message codec, pending-ack queue, client options, paginated
      results and host shuffling

    A shallow embedding of the parts of the [ably] package that the
    specification makes statements about:

    - [proto_message.go]: [Message.withEncodedData] and
      [Message.withDecodedData], the layered payload encoding;
    - [state.go]: [pendingEmitter] with [Search], [Enqueue], [Ack], [Nack],
      the queue [msgQueue] of the messages that wait for the connection,
      and, in the part that declares the client options, [resolveHost] with
      its callers [restURL] and [realtimeURL], the accessors of the
      timeouts, [KeyName] and [KeySecret], and the parameters
      [ScopeParams] and [PaginateParams] of a paginated request;
    - [hosts_test.go], in the part that declares the paginated results:
      [PaginatedResult.buildPath], [paginationHeaders],
      [PaginatedResult.Next], [buildPaginatedPath],
      [PaginatedResultNew.goTo] and the function [next] of [loadItems];
    - [internal/ablyutil/strings.go]: [Shuffle] and [Contains];
    - the logger: [LoggerOptions.Is] and [Printf].

    Go values are modelled as follows.  An [int] or [int64] is a [Z]; where
    the source adds two of them the wrap-around of the 64-bit representation
    is written out ([int_add]).  A Go [string] is a [string] (a sequence of
    bytes, one [ascii] each) and a [[]byte] is a [list byte].  A function
    that returns [(T, error)] returns a pair or a [result]; a function that
    can panic returns an [outcome].  The functions of Go's standard library
    that the code calls are embedded under the name of their package
    ([strings.Split], [base64.EncodeToString], [utf8.ValidString],
    [path.Join], [sort.Search], ...), following the library's source. *)

From stdpp Require Import base list strings gmap sorting.
From Equations Require Import Equations.
From Stdlib Require Import ZArith Lia Strings.Byte Strings.Ascii.
From Stdlib Require Import Sorting.Sorted.
From Stdlib Require Import DecimalString.

Local Open Scope string_scope.

(** ** Results, panics *)

(** [(T, error)] where the value is meaningless next to a non-nil error. *)
Inductive result (E A : Type) : Type :=
| Ok (a : A)
| Err (e : E).
Arguments Ok {E A} a.
Arguments Err {E A} e.

(** A computation that either returns or panics. *)
Inductive outcome (A : Type) : Type :=
| Done (a : A)
| Panic.
Arguments Done {A} a.
Arguments Panic {A}.

Definition obind {A B} (m : outcome A) (k : A -> outcome B) : outcome B :=
  match m with
  | Done a => k a
  | Panic => Panic
  end.

(** ** Machine integers *)

Definition max_int : Z := 2 ^ 63 - 1.
Definition min_int : Z := - 2 ^ 63.

(** The value of a 64-bit two's complement register holding [x]. *)
Definition wrap_int (x : Z) : Z := (x + 2 ^ 63) mod 2 ^ 64 - 2 ^ 63.

(** [a + b] on Go's [int] (64 bits). *)
Definition int_add (a b : Z) : Z := wrap_int (a + b).

(** ** Package strings *)

Module strings.

(** [strings.Split(s, sep)] for a separator of one byte: the pieces of [s]
    between the occurrences of [sep]; [n] occurrences give [n + 1] pieces,
    so the empty string gives one empty piece. *)
Fixpoint Split (s : string) (sep : ascii) : list string :=
  match s with
  | EmptyString => [EmptyString]
  | String c r =>
      if Ascii.eqb c sep then EmptyString :: Split r sep
      else match Split r sep with
           | t :: ts => String c t :: ts
           | [] => [String c EmptyString]
           end
  end.

(** [strings.Join(elems, sep)]. *)
Fixpoint Join (elems : list string) (sep : string) : string :=
  match elems with
  | [] => EmptyString
  | [e] => e
  | e :: r => e ++ sep ++ Join r sep
  end.

(** [strings.HasPrefix(s, prefix)]. *)
Definition HasPrefix (s pre : string) : bool := String.prefix pre s.

(** [strings.IndexRune(s, r)] for a rune below 0x80: the index of the first
    byte equal to [r], or -1. *)
Fixpoint IndexRune (s : string) (r : ascii) : Z :=
  match s with
  | EmptyString => -1
  | String c t =>
      if Ascii.eqb c r then 0
      else let i := IndexRune t r in
           if (i <? 0)%Z then -1 else (i + 1)%Z
  end.

(** [strings.LastIndexByte(s, c)], which [path.Split] uses. *)
Fixpoint LastIndexByte (s : string) (c : ascii) : Z :=
  match s with
  | EmptyString => -1
  | String d t =>
      let i := LastIndexByte t c in
      if (0 <=? i)%Z then (i + 1)%Z
      else if Ascii.eqb d c then 0 else -1
  end.

End strings.

(** [s[:i]] and [s[i:]] on a string, for [0 <= i <= len(s)]. *)
Fixpoint str_take (n : nat) (s : string) : string :=
  match n, s with
  | S k, String c t => String c (str_take k t)
  | _, _ => EmptyString
  end.

Fixpoint str_drop (n : nat) (s : string) : string :=
  match n, s with
  | S k, String _ t => str_drop k t
  | _, _ => s
  end.

(** ** Bytes *)

(** The value of a byte as an unsigned integer, [uint(b)]. *)
Definition byte_val (b : byte) : Z := Z.of_N (Byte.to_N b).
(** The conversion [byte(z)], which keeps the low eight bits. *)
Definition byte_of_Z (z : Z) : byte :=
  match Byte.of_N (Z.to_N (z mod 256)) with Some b => b | None => x00 end.

(** ** Package encoding/base64, [StdEncoding] *)

Module base64.
Local Open Scope Z_scope.

Definition encodeStd : string :=
  "ABCDEFGHIJKLMNOPQRSTUVWXYZabcdefghijklmnopqrstuvwxyz0123456789+/".

Definition padChar : ascii := "="%char.

(** [CorruptInputError]; the offset it carries is not kept. *)
Inductive CorruptInputError : Type := corruptInput.

(** [enc.encode[i]], the character of the sextet [i]. *)
Definition encode (i : Z) : ascii :=
  match String.get (Z.to_nat i) encodeStd with Some c => c | None => padChar end.

(** [enc.decodeMap[c]]: the sextet of a character of the alphabet, [None]
    for the entry 0xFF of every other byte. *)
Definition decodeMap (c : ascii) : option Z :=
  let i := strings.IndexRune encodeStd c in
  if i <? 0 then None else Some i.

(** [Encode]: three bytes give four characters; one or two bytes left over
    give two or three characters and padding. *)
Fixpoint EncodeToString (src : list byte) : string :=
  match src with
  | [] => EmptyString
  | [a] =>
      let val := Z.shiftl (byte_val a) 16 in
      String (encode (Z.land (Z.shiftr val 18) 63))
        (String (encode (Z.land (Z.shiftr val 12) 63))
           (String padChar (String padChar EmptyString)))
  | [a; b] =>
      let val := Z.lor (Z.shiftl (byte_val a) 16) (Z.shiftl (byte_val b) 8) in
      String (encode (Z.land (Z.shiftr val 18) 63))
        (String (encode (Z.land (Z.shiftr val 12) 63))
           (String (encode (Z.land (Z.shiftr val 6) 63))
              (String padChar EmptyString)))
  | a :: b :: c :: rest =>
      let val := Z.lor (Z.lor (Z.shiftl (byte_val a) 16) (Z.shiftl (byte_val b) 8))
                       (byte_val c) in
      String (encode (Z.land (Z.shiftr val 18) 63))
        (String (encode (Z.land (Z.shiftr val 12) 63))
           (String (encode (Z.land (Z.shiftr val 6) 63))
              (String (encode (Z.land val 63)) (EncodeToString rest))))
  end.

(** The decoder skips carriage returns and line feeds wherever they are. *)
Definition isNewline (c : ascii) : bool :=
  Ascii.eqb c "010"%char || Ascii.eqb c "013"%char.

Fixpoint stripNewlines (s : string) : string :=
  match s with
  | EmptyString => EmptyString
  | String c t => if isNewline c then stripNewlines t else String c (stripNewlines t)
  end.

(** [val] in [decodeQuantum]: four sextets as one 24-bit value. *)
Definition quantum (d0 d1 d2 d3 : Z) : Z :=
  Z.lor (Z.lor (Z.lor (Z.shiftl d0 18) (Z.shiftl d1 12)) (Z.shiftl d2 6)) d3.

(** The quanta of four characters in turn ([decodeQuantum]); padding is
    accepted in the last quantum only, and the encoding is not strict about
    the bits that padding leaves unused. *)
Fixpoint decode (src : string) : result CorruptInputError (list byte) :=
  match src with
  | EmptyString => Ok []
  | String c0 (String c1 (String c2 (String c3 rest))) =>
      match decodeMap c0, decodeMap c1 with
      | Some d0, Some d1 =>
          match decodeMap c2, decodeMap c3 with
          | Some d2, Some d3 =>
              let val := quantum d0 d1 d2 d3 in
              match decode rest with
              | Ok out =>
                  Ok (byte_of_Z (Z.shiftr val 16) :: byte_of_Z (Z.shiftr val 8)
                        :: byte_of_Z val :: out)
              | Err e => Err e
              end
          | Some d2, None =>
              let val := quantum d0 d1 d2 0 in
              if Ascii.eqb c3 padChar && String.eqb rest EmptyString
              then Ok [byte_of_Z (Z.shiftr val 16); byte_of_Z (Z.shiftr val 8)]
              else Err corruptInput
          | None, _ =>
              let val := quantum d0 d1 0 0 in
              if Ascii.eqb c2 padChar && Ascii.eqb c3 padChar
                 && String.eqb rest EmptyString
              then Ok [byte_of_Z (Z.shiftr val 16)]
              else Err corruptInput
          end
      | _, _ => Err corruptInput
      end
  | _ => Err corruptInput
  end.

(** [DecodeString]; the bytes decoded before an error are not kept, the
    callers drop them. *)
Definition DecodeString (s : string) : result CorruptInputError (list byte) :=
  decode (stripNewlines s).
End base64.

(** ** Package unicode/utf8 *)

Module utf8.
Local Open Scope N_scope.

(** The entry of the table [first] for a leading byte of a multi-byte
    sequence: the size of the sequence and the range accepted for its
    second byte ([acceptRanges]); [None] is the entry [xx]. *)
Definition first (b : N) : option (nat * N * N) :=
  if b <? 0xC2 then None
  else if b <=? 0xDF then Some (2%nat, 0x80, 0xBF)
  else if b =? 0xE0 then Some (3%nat, 0xA0, 0xBF)
  else if b <=? 0xEC then Some (3%nat, 0x80, 0xBF)
  else if b =? 0xED then Some (3%nat, 0x80, 0x9F)
  else if b <=? 0xEF then Some (3%nat, 0x80, 0xBF)
  else if b =? 0xF0 then Some (4%nat, 0x90, 0xBF)
  else if b <=? 0xF3 then Some (4%nat, 0x80, 0xBF)
  else if b =? 0xF4 then Some (4%nat, 0x80, 0x8F)
  else None.

Definition between (c : ascii) (lo hi : N) : bool :=
  (lo <=? N_of_ascii c) && (N_of_ascii c <=? hi).

(** [utf8.ValidString(s)]. *)
Fixpoint ValidString (s : string) : bool :=
  match s with
  | EmptyString => true
  | String c t =>
      if N_of_ascii c <? 0x80 then ValidString t
      else match first (N_of_ascii c) with
           | None => false
           | Some (size, lo, hi) =>
               match size, t with
               | 2%nat, String c1 t' => between c1 lo hi && ValidString t'
               | 3%nat, String c1 (String c2 t') =>
                   between c1 lo hi && between c2 0x80 0xBF && ValidString t'
               | 4%nat, String c1 (String c2 (String c3 t')) =>
                   between c1 lo hi && between c2 0x80 0xBF
                   && between c3 0x80 0xBF && ValidString t'
               | _, _ => false
               end
           end
  end.
End utf8.

(** ** Package encoding/json: the first token of a text *)

Module json.

(** What [Decoder.Token] returns: the delimiter [Delim(c)], or anything
    else (a scalar value, or nil next to an error). *)
Inductive Token : Type :=
| Delim (c : ascii)
| NoDelim.

Definition isSpace (c : ascii) : bool :=
  Ascii.eqb c " "%char || Ascii.eqb c "009"%char
  || Ascii.eqb c "013"%char || Ascii.eqb c "010"%char.

(** [json.NewDecoder(bytes.NewReader(b)).Token()], the error dropped:
    [peek] skips white space, and at the top level an opening bracket or
    brace is returned as a delimiter. *)
Fixpoint firstToken (b : list byte) : Token :=
  match b with
  | [] => NoDelim
  | c :: r =>
      let c := ascii_of_byte c in
      if isSpace c then firstToken r
      else if Ascii.eqb c "["%char || Ascii.eqb c "{"%char then Delim c
      else NoDelim
  end.

Definition Token_eqb (t u : Token) : bool :=
  match t, u with
  | Delim c, Delim d => Ascii.eqb c d
  | NoDelim, NoDelim => true
  | _, _ => false
  end.

End json.

(** ** proto_message.go: messages and their payload encoding *)

Module codec.

(** Errors of the codec: one constructor for each [fmt.Errorf] of the file,
    and [errExternal] for the error values of the JSON library and of the
    cipher, of which only a description is kept. *)
Inductive error : Type :=
| errExternal (description : string)
| errCorruptInput
| errEncodingJSON (cause : error)
| errEncodedAsJSON
| errEncrypting (cause : error)
| errCoerceString
| errCoerceBytes
| errUnmarshal (cause : error)
| errCipherMissing (encoding : string)
| errDecrypting (cause : error)
| errUnknownEncoding (encoding : string).

(** The interface [channelCipher], by the three methods that the codec
    calls.  [Encrypt] is a function of the plaintext: the initialisation
    vector that a real cipher draws is part of the cipher here. *)
Record channelCipher : Type := {
  Encrypt : list byte -> result error (list byte);
  Decrypt : list byte -> result error (list byte);
  GetAlgorithm : string
}.

Definition encUTF8 : string := "utf-8".
Definition encJSON : string := "json".
Definition encBase64 : string := "base64".
Definition encCipher : string := "cipher".

Section Messages.

(** The Go values that are neither nil, nor a string, nor a byte slice:
    numbers, booleans, maps, slices, structs. *)
Variable V : Type.

(** A value of type [interface{}]. *)
Inductive value : Type :=
| VNil
| VString (s : string)
| VBytes (b : list byte)
| VOther (v : V).

(** [json.Marshal] and [json.Unmarshal] into an [interface{}]. *)
Variable json_Marshal : value -> result error (list byte).
Variable json_Unmarshal : list byte -> result error value.

Record Message : Type := {
  ID : string;
  ClientID : string;
  ConnectionID : string;
  Name : string;
  Data : value;
  Encoding : string;
  Timestamp : Z;
  Extras : gmap string value
}.

(** [Message{}]. *)
Definition zeroMessage : Message := {|
  ID := ""; ClientID := ""; ConnectionID := ""; Name := "";
  Data := VNil; Encoding := ""; Timestamp := 0; Extras := ∅
|}.

(** [m.Data = d] and [m.Encoding = e] on the method's copy of [m]. *)
Definition setData (m : Message) (d : value) : Message := {|
  ID := ID m; ClientID := ClientID m; ConnectionID := ConnectionID m;
  Name := Name m; Data := d; Encoding := Encoding m;
  Timestamp := Timestamp m; Extras := Extras m
|}.

Definition setEncoding (m : Message) (e : string) : Message := {|
  ID := ID m; ClientID := ClientID m; ConnectionID := ConnectionID m;
  Name := Name m; Data := Data m; Encoding := e;
  Timestamp := Timestamp m; Extras := Extras m
|}.

Definition coerceString (i : value) : result error string :=
  match i with
  | VBytes v => Ok (String.string_of_list_byte v)
  | VString v => Ok v
  | _ => Err errCoerceString
  end.

Definition coerceBytes (i : value) : result error (list byte) :=
  match i with
  | VBytes v => Ok v
  | VString v => Ok (String.list_byte_of_string v)
  | _ => Err errCoerceBytes
  end.

Definition mergeEncoding (a b : string) : string :=
  if String.eqb a "" then b else a ++ "/" ++ b.

(** Lines 59 to 83 of [withEncodedData]: the payload as a string. *)
Definition encodePayload (m : Message) : result error Message :=
  (* If string isn't UTF-8, convert to []byte *)
  let m :=
    match Data m with
    | VString d =>
        if negb (utf8.ValidString d)
        then setData m (VBytes (String.list_byte_of_string d))
        else m
    | _ => m
    end in
  match Data m with
  | VString _ => Ok m
  | VBytes d =>
      let m := setData m (VString (base64.EncodeToString d)) in
      Ok (setEncoding m (mergeEncoding (Encoding m) encBase64))
  | d =>
      match json_Marshal d with
      | Err err => Err (errEncodingJSON err)
      | Ok b =>
          let token := json.firstToken b in
          if negb (json.Token_eqb token (json.Delim "["%char))
             && negb (json.Token_eqb token (json.Delim "{"%char))
          then Err errEncodedAsJSON
          else
            let m := setData m (VString (String.string_of_list_byte b)) in
            Ok (setEncoding m (mergeEncoding (Encoding m) encJSON))
      end
  end.

(** Lines 85 to 108 of [withEncodedData]: encryption of the payload. *)
Definition encryptPayload (m : Message) (cipher : channelCipher)
  : outcome (Message * option error) :=
  match coerceBytes (Data m) with
  | Err _ => Panic
  | Ok bs =>
      match Encrypt cipher bs with
      | Err err => Done (zeroMessage, Some (errEncrypting err))
      | Ok e =>
          let m :=
            match Data m with
            | VString s =>
                if utf8.ValidString s
                then setEncoding m (mergeEncoding (Encoding m) encUTF8)
                else m
            | _ => m
            end in
          let m := setData m (VString (base64.EncodeToString e)) in
          let m := setEncoding m (mergeEncoding (Encoding m) (GetAlgorithm cipher)) in
          let m := setEncoding m (mergeEncoding (Encoding m) encBase64) in
          Done (m, None)
      end
  end.

(** [Message.withEncodedData]; [cipher] is [None] for a nil cipher. *)
Definition withEncodedData (m : Message) (cipher : option channelCipher)
  : outcome (Message * option error) :=
  match Data m with
  | VNil => Done (m, None)
  | _ =>
      match encodePayload m with
      | Err err => Done (zeroMessage, Some err)
      | Ok m =>
          match cipher with
          | None => Done (m, None)
          | Some cipher => encryptPayload m cipher
          end
      end
  end.

(** The body of the [switch] of [withDecodedData]: what one token does
    to the payload. *)
Definition decodeToken (cipher : option channelCipher) (encoding : string)
    (data : value) : result error value :=
  if String.eqb encoding encBase64 then
    match coerceString data with
    | Err err => Err err
    | Ok d =>
        match base64.DecodeString d with
        | Err _ => Err errCorruptInput
        | Ok data => Ok (VBytes data)
        end
    end
  else if String.eqb encoding encUTF8 then
    match coerceString data with
    | Err err => Err err
    | Ok d => Ok (VString d)
    end
  else if String.eqb encoding encJSON then
    match coerceBytes data with
    | Err err => Err err
    | Ok d =>
        match json_Unmarshal d with
        | Err err => Err (errUnmarshal err)
        | Ok result => Ok result
        end
    end
  else if strings.HasPrefix encoding encCipher then
    match cipher with
    | None => Err (errCipherMissing encoding)
    | Some cipher =>
        match coerceBytes data with
        | Err err => Err err
        | Ok d =>
            match Decrypt cipher d with
            | Err err => Err (errDecrypting err)
            | Ok d => Ok (VBytes d)
            end
        end
    end
  else Err (errUnknownEncoding encoding).

(** The loop of [withDecodedData].  [rencodings] is the slice
    [encodings] in reverse, so that its head is the last token: each
    turn takes the last token off, applies it, and writes the tokens
    that remain back to [m.Encoding]; an error returns the message as
    it is at that point. *)
Fixpoint decodeLoop (cipher : option channelCipher) (rencodings : list string)
    (m : Message) : Message * option error :=
  match rencodings with
  | [] => (m, None)
  | encoding :: rencodings =>
      match decodeToken cipher encoding (Data m) with
      | Err err => (m, Some err)
      | Ok data =>
          let m := setData m data in
          let m := setEncoding m (strings.Join (rev rencodings) "/") in
          decodeLoop cipher rencodings m
      end
  end.

(** [Message.withDecodedData]. *)
Definition withDecodedData (m : Message) (cipher : option channelCipher)
  : Message * option error :=
  match Data m with
  | VNil => (m, None)
  | _ =>
      if String.eqb (Encoding m) "" then (m, None)
      else decodeLoop cipher (rev (strings.Split (Encoding m) "/"%char)) m
  end.

(** The tokens of [rtokens], the first one first, applied to a
    payload: what the loop computes as long as no token fails. *)
Fixpoint decodeTokens (cipher : option channelCipher) (rtokens : list string)
    (data : value) : result error value :=
  match rtokens with
  | [] => Ok data
  | encoding :: rtokens =>
      match decodeToken cipher encoding data with
      | Err err => Err err
      | Ok data => decodeTokens cipher rtokens data
      end
  end.

(** The payloads that [withEncodedData] accepts: a string, a byte slice,
    or a value whose JSON text is an object or an array and which
    [json.Unmarshal] gives back from that text. *)
Definition encodable (d : value) : Prop :=
  match d with
  | VNil => False
  | VString _ => True
  | VBytes _ => True
  | VOther _ =>
      exists b, json_Marshal d = Ok b
                /\ (json.firstToken b = json.Delim "["%char
                    \/ json.firstToken b = json.Delim "{"%char)
                /\ json_Unmarshal b = Ok d
  end.

(** What a payload is after encoding and decoding: itself, except that
    a string that is not UTF-8 has become a byte slice. *)
Definition decoded (d : value) : value :=
  match d with
  | VString s =>
      if utf8.ValidString s then d else VBytes (String.list_byte_of_string s)
  | _ => d
  end.

End Messages.

(** The tokens that [withDecodedData] knows. *)
Definition isKnown (encoding : string) : bool :=
  String.eqb encoding encBase64 || String.eqb encoding encUTF8
  || String.eqb encoding encJSON || strings.HasPrefix encoding encCipher.

(** A cipher as the codec expects it: its algorithm is one token of the
    chain and starts with [cipher], it encrypts every plaintext, and it
    decrypts what it has encrypted. *)
Definition validCipher (c : channelCipher) : Prop :=
  strings.HasPrefix (GetAlgorithm c) encCipher = true
  /\ strings.Split (GetAlgorithm c) "/"%char = [GetAlgorithm c]
  /\ forall bs, exists e, Encrypt c bs = Ok e /\ Decrypt c e = Ok bs.

(** A token of the chain holds no separator. *)
Definition oneToken (t : string) : Prop := strings.Split t "/"%char = [t].

(** A chain that [mergeEncoding] extends at its end: it is empty or starts
    with a token that is not empty. *)
Definition chain (toks : list string) : Prop :=
  match toks with
  | [] => True
  | t :: _ => t <> EmptyString
  end.

(** The tokens that the encryption of a string [s1] appends. *)
Definition cipherTokens (c : channelCipher) (s1 : string) : list string :=
  ((if utf8.ValidString s1 then [encUTF8] else []) ++ [GetAlgorithm c; encBase64])%list.

(** The text starts with an opening bracket or brace. *)
Definition beginsCompound (b : list byte) : bool :=
  match b with
  | c :: _ => Ascii.eqb (ascii_of_byte c) "["%char || Ascii.eqb (ascii_of_byte c) "{"%char
  | [] => false
  end.

(** [json.Marshal] writes no white space before the value. *)
Definition compact (b : list byte) : Prop :=
  match b with
  | c :: _ => json.isSpace (ascii_of_byte c) = false
  | [] => True
  end.

Arguments VNil {V}.
Arguments VString {V} s.
Arguments VBytes {V} b.
Arguments VOther {V} v.
Arguments ID {V} m.
Arguments ClientID {V} m.
Arguments ConnectionID {V} m.
Arguments Name {V} m.
Arguments Data {V} m.
Arguments Encoding {V} m.
Arguments Timestamp {V} m.
Arguments Extras {V} m.
Arguments zeroMessage {V}.
Arguments setData {V} m d.
Arguments setEncoding {V} m e.
Arguments coerceString {V} i.
Arguments coerceBytes {V} i.
Arguments encodePayload {V} json_Marshal m.
Arguments encryptPayload {V} m cipher.
Arguments withEncodedData {V} json_Marshal m cipher.
Arguments decodeToken {V} json_Unmarshal cipher encoding data.
Arguments decodeLoop {V} json_Unmarshal cipher rencodings m.
Arguments withDecodedData {V} json_Unmarshal m cipher.
Arguments decodeTokens {V} json_Unmarshal cipher rtokens data.
Arguments encodable {V} json_Marshal json_Unmarshal d.
Arguments decoded {V} d.

(** A byte below 0x80, a character of ASCII. *)
Definition isASCII (c : ascii) : bool := (N_of_ascii c <? 128)%N.

(** The fields of a message that the codec does not touch. *)
Definition sameEnvelope {V} (m m' : Message V) : Prop :=
  ID m' = ID m /\ ClientID m' = ClientID m /\ ConnectionID m' = ConnectionID m
  /\ Name m' = Name m /\ Timestamp m' = Timestamp m /\ Extras m' = Extras m.

(** The tokens that [withEncodedData] appends: the three of the payload
    and the algorithm of the cipher. *)
Definition encodeToken (cipher : option channelCipher) (t : string) : Prop :=
  t = encBase64 \/ t = encJSON \/ t = encUTF8
  \/ exists c, cipher = Some c /\ t = GetAlgorithm c.

End codec.

(** ** Sample collaborators of the codec

    An instance of the JSON library and one of the cipher, on which the
    codec can be evaluated: JSON restricted to naturals, arrays and objects
    whose keys need no escape, and a cipher that flips bits. *)

Module samples.
Import codec.

#[warnings="-register-all"]
Inductive jvalue : Type :=
| JNum (n : nat)
| JArr (items : list jvalue)
| JObj (members : list (string * jvalue)).

Definition quote : string := String "034"%char EmptyString.

Definition digit (n : nat) : ascii := ascii_of_nat (48 + n).

Fixpoint digits (fuel n : nat) (acc : string) : string :=
  match fuel with
  | O => acc
  | S fuel =>
      let acc := String (digit (n mod 10)) acc in
      if (n / 10 =? 0)%nat then acc else digits fuel (n / 10) acc
  end.

Definition commas (l : list string) : string := strings.Join l ",".

Fixpoint marshal (v : jvalue) : string :=
  match v with
  | JNum n => digits (S n) n EmptyString
  | JArr items => "[" ++ commas (map marshal items) ++ "]"
  | JObj members =>
      "{" ++ commas (map (fun kv => quote ++ fst kv ++ quote ++ ":" ++ marshal (snd kv))
                       members) ++ "}"
  end.

Definition isDigit (c : ascii) : bool :=
  (48 <=? nat_of_ascii c)%nat && (nat_of_ascii c <=? 57)%nat.

Fixpoint number (s : string) (acc : nat) : nat * string :=
  match s with
  | String c r =>
      if isDigit c then number r (10 * acc + (nat_of_ascii c - 48)) else (acc, s)
  | EmptyString => (acc, s)
  end.

Fixpoint key (s : string) : option (string * string) :=
  match s with
  | EmptyString => None
  | String c r =>
      if Ascii.eqb c "034"%char then Some (EmptyString, r)
      else match key r with
           | Some (k, r') => Some (String c k, r')
           | None => None
           end
  end.

Fixpoint parse (fuel : nat) (s : string) {struct fuel} : option (jvalue * string) :=
  match fuel with
  | O => None
  | S fuel =>
      match s with
      | EmptyString => None
      | String c r =>
          if Ascii.eqb c "["%char then
            match r with
            | String "]"%char r' => Some (JArr [], r')
            | _ =>
                match items fuel r with
                | Some (l, r') => Some (JArr l, r')
                | None => None
                end
            end
          else if Ascii.eqb c "{"%char then
            match r with
            | String "}"%char r' => Some (JObj [], r')
            | _ =>
                match members fuel r with
                | Some (l, r') => Some (JObj l, r')
                | None => None
                end
            end
          else if isDigit c then
            let (n, r') := number s 0 in Some (JNum n, r')
          else None
      end
  end
with items (fuel : nat) (s : string) {struct fuel} : option (list jvalue * string) :=
  match fuel with
  | O => None
  | S fuel =>
      match parse fuel s with
      | Some (v, String c r) =>
          if Ascii.eqb c "]"%char then Some ([v], r)
          else if Ascii.eqb c ","%char then
            match items fuel r with
            | Some (l, r') => Some (v :: l, r')
            | None => None
            end
          else None
      | _ => None
      end
  end
with members (fuel : nat) (s : string) {struct fuel}
  : option (list (string * jvalue) * string) :=
  match fuel with
  | O => None
  | S fuel =>
      match s with
      | String q r =>
          if Ascii.eqb q "034"%char then
            match key r with
            | Some (k, String colon r') =>
                if Ascii.eqb colon ":"%char then
                  match parse fuel r' with
                  | Some (v, String c r'') =>
                      if Ascii.eqb c "}"%char then Some ([(k, v)], r'')
                      else if Ascii.eqb c ","%char then
                        match members fuel r'' with
                        | Some (l, r3) => Some ((k, v) :: l, r3)
                        | None => None
                        end
                      else None
                  | _ => None
                  end
                else None
            | _ => None
            end
          else None
      | EmptyString => None
      end
  end.

Definition Marshal (d : value jvalue) : result error (list byte) :=
  match d with
  | VOther v => Ok (String.list_byte_of_string (marshal v))
  | VString s => Ok (String.list_byte_of_string (quote ++ s ++ quote))
  | VBytes b => Ok (String.list_byte_of_string (quote ++ base64.EncodeToString b ++ quote))
  | VNil => Ok (String.list_byte_of_string "null")
  end.

Definition Unmarshal (b : list byte) : result error (value jvalue) :=
  let s := String.string_of_list_byte b in
  match parse (2 * String.length s + 2) s with
  | Some (v, EmptyString) => Ok (VOther v)
  | _ => Err (errExternal "invalid JSON")
  end.

Definition flip (b : byte) : byte := byte_of_Z (Z.lxor (byte_val b) 90).

Definition flipCipher : channelCipher := {|
  Encrypt := fun bs => Ok (map flip bs);
  Decrypt := fun bs => Ok (map flip bs);
  GetAlgorithm := "cipher+aes-128-cbc"
|}.

Definition message (d : value jvalue) (encoding : string) : Message jvalue := {|
  ID := ""; ClientID := ""; ConnectionID := ""; Name := "event";
  Data := d; Encoding := encoding; Timestamp := 0; Extras := ∅
|}.

(** The string of the one byte 0xFF, which is not UTF-8. *)
Definition notUTF8 : string := String "255"%char EmptyString.

End samples.

(** ** Package sort *)

Module sort.
Local Open Scope Z_scope.

(** The loop of [sort.Search]: [for i < j] with [h := int(uint(i+j) >> 1)];
    [i] and [j] are lengths, so that [i + j] does not leave the range of
    [uint]. *)
Equations? search_loop (f : Z -> bool) (i j : Z) : Z
  by wf (Z.to_nat (j - i)) lt :=
  search_loop f i j with Z_lt_dec i j := {
    | right _ := i
    | left _ with f (Z.shiftr (i + j) 1) := {
        | false := search_loop f (Z.shiftr (i + j) 1 + 1) j
        | true := search_loop f i (Z.shiftr (i + j) 1) } }.
Proof.
  all: rewrite Z.shiftr_div_pow2 by lia; change (2 ^ 1) with 2;
    Z.div_mod_to_equations; lia.
Qed.

(** [sort.Search(n, f)]. *)
Definition Search (n : Z) (f : Z -> bool) : Z := search_loop f 0 n.

End sort.

(** ** state.go: the queue of messages that await an ACK or a NACK *)

Module pending.
Local Open Scope Z_scope.
Local Open Scope list_scope.

(** Modelled from the spec: the declaration of [ErrorInfo] and the
    constructor [newErrorf] are not among the sources; an error is kept as
    the code and the text that the call site gives, the fields that the
    spec lists for every error ("a numeric code ..., a human message"). *)
Record ErrorInfo : Type := {
  Code : Z;
  Message : string
}.

Definition newErrorf (code : Z) (text : string) : ErrorInfo :=
  {| Code := code; Message := text |}.

(** Modelled from the spec: the constant [ErrInternalError] is not among
    the sources; it is taken to be 50000, the code that [buildPaginatedPath]
    passes to [newError] for a failure of its own.  Nothing below depends on
    the number. *)
Definition ErrInternalError : Z := 50000.

Definition errSerialSkipped : ErrorInfo :=
  newErrorf ErrInternalError "Serial for message was skipped by acknowledgement".

(** Modelled from the spec: the method [unwrapNil] is not among the
    sources; it turns a [*ErrorInfo] into an [error] that is nil exactly
    when the pointer is ("[null] error if [optionalError] is null, else
    [optionalError]"). *)
Definition unwrapNil (e : option ErrorInfo) : option ErrorInfo := e.

(** Modelled from the spec: the helper [min] on [int] is not among the
    sources; the range of an ACK is "aligned against the queue", the
    smaller of its end and the length. *)
Definition min (a b : Z) : Z := if a <? b then a else b.

(** Modelled from the spec: the declaration of [proto.ProtocolMessage] is
    not among the sources; these are the fields of the spec's wire frame
    that the queue reads or that tell two frames apart.  [Count] is an
    [int] in the arithmetic of [Ack] and [Nack]. *)
Record ProtocolMessage : Type := {
  ID : string;
  Channel : string;
  MsgSerial : Z;
  Count : Z
}.

(** A channel [chan<- error] is known by its identity; sending on it is an
    event of the trace. *)
Definition chan : Type := nat.

Record msgCh : Type := {
  msg : ProtocolMessage;
  ch : chan
}.

(** [sch.ch <- err]: the channel and the error sent, [None] for nil. *)
Definition send : Type := (chan * option ErrorInfo)%type.

(** The field [logger] only writes log lines, which are not modelled. *)
Record pendingEmitter : Type := {
  queue : list msgCh
}.

Definition newPendingEmitter : pendingEmitter := {| queue := [] |}.

(** A method of the queue sends on channels and then returns or panics:
    the trace of the sends made, and the outcome. *)
Definition M (A : Type) : Type := (list send * outcome A)%type.

Definition ret {A} (a : A) : M A := ([], Done a).

Definition bind {A B} (m : M A) (k : A -> M B) : M B :=
  match m with
  | (t, Done a) => let '(t', r) := k a in (t ++ t', r)
  | (t, Panic) => (t, Panic)
  end.

Definition lift {A} (o : outcome A) : M A := ([], o).

Definition emit (c : chan) (err : option ErrorInfo) : M unit :=
  ([(c, err)], Done tt).

Notation "x <- m ;; k" := (bind m (fun x => k))
  (at level 100, m at next level, right associativity).

(** [l[i]], which panics outside [0 <= i < len(l)]. *)
Definition index {A} (l : list A) (i : Z) : outcome A :=
  if i <? 0 then Panic
  else match l !! Z.to_nat i with
       | Some x => Done x
       | None => Panic
       end.

(** [l[lo:hi]], which panics unless [0 <= lo <= hi <= cap(l)].  Every
    slice expression of the file has [hi] at most [len(l)], so the length
    stands for the capacity. *)
Definition slice {A} (l : list A) (lo hi : Z) : outcome (list A) :=
  if (0 <=? lo) && (lo <=? hi) && (hi <=? Z.of_nat (length l))
  then Done (take (Z.to_nat (hi - lo)) (drop (Z.to_nat lo) l))
  else Panic.

Definition Len (q : pendingEmitter) : Z := Z.of_nat (length (queue q)).

(** [Search]; [sort.Search] calls the closure on indices of the queue
    only, the branch [None] is for the others. *)
Definition Search (q : pendingEmitter) (m : ProtocolMessage) : Z :=
  sort.Search (Len q)
    (fun i => match queue q !! Z.to_nat i with
              | Some e => MsgSerial (msg e) >=? MsgSerial m
              | None => false
              end).

(** [append(q.queue, msgCh{}); copy(q.queue[i+1:], q.queue[i:]);
    q.queue[i] = x]: the entries from [i] on move one place up and [x]
    takes the place [i]. *)
Definition insertAt (l : list msgCh) (i : Z) (x : msgCh) : list msgCh :=
  take (Z.to_nat i) l ++ x :: drop (Z.to_nat i) l.

Definition Enqueue (q : pendingEmitter) (m : ProtocolMessage) (c : chan)
  : M pendingEmitter :=
  let i := Search q m in
  if i =? Len q then
    ret {| queue := queue q ++ [{| msg := m; ch := c |}] |}
  else
    e <- lift (index (queue q) i);;
    if MsgSerial (msg e) =? MsgSerial m then
      (* logs "duplicated message serial" *)
      ret q
    else
      ret {| queue := insertAt (queue q) i {| msg := m; ch := c |} |}.

(** [for _, sch := range l { sch.ch <- err }]. *)
Fixpoint sendAll (l : list msgCh) (err : option ErrorInfo) : M unit :=
  match l with
  | [] => ret tt
  | sch :: l => _ <- emit (ch sch) err;; sendAll l err
  end.

Definition isNil (e : option ErrorInfo) : bool :=
  match e with None => true | Some _ => false end.

(** The [switch] of [Ack], which sets [ack] and [nack]. *)
Definition ackRange (q : pendingEmitter) (m : ProtocolMessage) : M (Z * Z) :=
  let i := Search q m in
  if i =? Len q then ret (0, Len q)
  else
    e <- lift (index (queue q) i);;
    if MsgSerial (msg e) =? MsgSerial m
    then ret (min (int_add i (Count m)) (Len q), i)
    else ret (min (int_add (int_add i 1) (Count m)) (Len q), int_add i 1).

Definition Ack (q : pendingEmitter) (m : ProtocolMessage)
    (errInfo : option ErrorInfo) : M pendingEmitter :=
  if Len q =? 0 then ret q
  else
    bounds <- ackRange q m;;
    let '(ack, nack) := bounds in
    let err := unwrapNil errInfo in
    let err := if isNil err && (0 <? nack) then Some errSerialSkipped else err in
    nacked <- lift (slice (queue q) 0 nack);;
    _ <- sendAll nacked err;;
    acked <- lift (slice (queue q) nack ack);;
    _ <- sendAll acked None;;
    rest <- lift (slice (queue q) ack (Len q));;
    ret {| queue := rest |}.

(** The [switch] of [Nack], which sets [nack]. *)
Definition nackRange (q : pendingEmitter) (m : ProtocolMessage) : M Z :=
  let i := Search q m in
  if i =? Len q then ret (Len q)
  else
    e <- lift (index (queue q) i);;
    if MsgSerial (msg e) =? MsgSerial m
    then ret (min (int_add i (Count m)) (Len q))
    else ret (min (int_add (int_add i 1) (Count m)) (Len q)).

Definition Nack (q : pendingEmitter) (m : ProtocolMessage)
    (errInfo : option ErrorInfo) : M pendingEmitter :=
  if Len q =? 0 then ret q
  else
    nack <- nackRange q m;;
    let err := unwrapNil errInfo in
    nacked <- lift (slice (queue q) 0 nack);;
    _ <- sendAll nacked err;;
    rest <- lift (slice (queue q) nack (Len q));;
    ret {| queue := rest |}.

(** The serials of the queue, front first. *)
Definition serials (q : pendingEmitter) : list Z :=
  map (fun e => MsgSerial (msg e)) (queue q).

(** The order of the queue: strictly increasing serials, so that no two
    entries have the same serial. *)
Definition before (a b : msgCh) : Prop :=
  MsgSerial (msg a) < MsgSerial (msg b).

Definition sorted (q : pendingEmitter) : Prop :=
  StronglySorted before (queue q).

(** The error that [Ack] gives to the entries before the acknowledged
    serial: the error of the ACK if it has one, [errSerialSkipped] if
    not. *)
Definition skipError (errInfo : option ErrorInfo) : ErrorInfo :=
  match unwrapNil errInfo with
  | Some e => e
  | None => errSerialSkipped
  end.

(** The queues that [Enqueue], [Ack] and [Nack] produce from the empty
    queue; a call that panics produces none. *)
Inductive reachable : pendingEmitter -> Prop :=
| reach_new : reachable newPendingEmitter
| reach_Enqueue q m c t q' :
    reachable q -> Enqueue q m c = (t, Done q') -> reachable q'
| reach_Ack q m e t q' :
    reachable q -> Ack q m e = (t, Done q') -> reachable q'
| reach_Nack q m e t q' :
    reachable q -> Nack q m e = (t, Done q') -> reachable q'.

(** Sample frames and queues, for evaluating the methods. *)
Definition frame (serial count : Z) : ProtocolMessage :=
  {| ID := ""; Channel := "test"; MsgSerial := serial; Count := count |}.

Definition entry (serial : Z) (c : chan) : msgCh :=
  {| msg := frame serial 0; ch := c |}.
Arguments entry serial%_Z c%_nat.

Definition errRejected : ErrorInfo := newErrorf 40160 "rejected".

Definition queue01 : pendingEmitter :=
  {| queue := [entry 0 10; entry 1 11] |}.

Definition queue012 : pendingEmitter :=
  {| queue := [entry 0 10; entry 1 11; entry 2 12] |}.

End pending.

(** ** state.go, client options: the host of the REST and realtime URLs *)

Module options.

(** The fields of [clientOptions] that choose the host. *)
Record clientOptions : Type := {
  Environment : string;
  RESTHost : string;
  RealtimeHost : string
}.

Definition restHost : string := "rest.ably.io".

Definition defaultOptions : clientOptions := {|
  Environment := "";
  RESTHost := restHost;
  RealtimeHost := "realtime.ably.io"
|}.

Definition resolveHost (host environment defaultHost : string) : string :=
  let host := if String.eqb host "" then defaultHost else host in
  if String.eqb host defaultHost
     && negb (String.eqb environment "")
     && negb (String.eqb environment "production")
  then environment ++ "-" ++ host
  else host.

(** The host that [restURL] puts in the URL. *)
Definition restURL_host (opts : clientOptions) : string :=
  resolveHost (RESTHost opts) (Environment opts) (RESTHost defaultOptions).

(** The host that [realtimeURL] puts in the URL. *)
Definition realtimeURL_host (opts : clientOptions) : string :=
  resolveHost (RealtimeHost opts) (Environment opts) (RealtimeHost defaultOptions).

End options.

(** ** Package path *)

Module path.

Definition isSlash (c : ascii) : bool := Ascii.eqb c "/"%char.
Definition isDot (c : ascii) : bool := Ascii.eqb c "."%char.

(** The end of an element: the end of the path, or a slash. *)
Definition atEnd (s : string) : bool :=
  match s with
  | EmptyString => true
  | String c _ => isSlash c
  end.

(** [for out.w > dotdot && out.index(out.w) != '/' { out.w-- }] after a first
    [out.w--].  The buffer [out] is kept last byte first; [last] is
    [out.index(out.w)], the byte just taken off. *)
Fixpoint backtrack (rout : list ascii) (dotdot : nat) (last : ascii) : list ascii :=
  match rout with
  | [] => []
  | c :: r =>
      if (dotdot <? length rout)%nat && negb (isSlash last)
      then backtrack r dotdot c
      else rout
  end.

(** The loop [for r < n] of [Clean] on the rest [s] of the path.
    [copying] holds inside the loop that copies a real element; that loop
    stops before a slash, which the next turn skips. *)
Fixpoint cleanLoop (rooted copying : bool) (s : string) (rout : list ascii)
    (dotdot : nat) : list ascii :=
  match s with
  | EmptyString => rout
  | String c r =>
      if copying then
        if isSlash c then cleanLoop rooted false r rout dotdot
        else cleanLoop rooted true r (c :: rout) dotdot
      else if isSlash c then
        (* empty path element *)
        cleanLoop rooted false r rout dotdot
      else if isDot c && atEnd r then
        (* . element *)
        cleanLoop rooted false r rout dotdot
      else
        match r with
        | String c2 r2 =>
            if isDot c && isDot c2 && atEnd r2 then
              (* .. element: remove to last / *)
              match rout with
              | last :: rout' =>
                  if (dotdot <? length rout)%nat
                  then cleanLoop rooted false r2 (backtrack rout' dotdot last) dotdot
                  else if negb rooted
                  then cleanLoop rooted false r2
                         ("."%char :: "."%char :: "/"%char :: rout)
                         (length rout + 3)
                  else cleanLoop rooted false r2 rout dotdot
              | [] =>
                  if negb rooted
                  then cleanLoop rooted false r2 ["."%char; "."%char] 2
                  else cleanLoop rooted false r2 rout dotdot
              end
            else
              (* real path element: add slash if needed *)
              let rout :=
                if rooted && negb (length rout =? 1)%nat
                   || negb rooted && negb (length rout =? 0)%nat
                then "/"%char :: rout else rout in
              cleanLoop rooted true r (c :: rout) dotdot
        | EmptyString =>
            let rout :=
              if rooted && negb (length rout =? 1)%nat
                 || negb rooted && negb (length rout =? 0)%nat
              then "/"%char :: rout else rout in
            cleanLoop rooted true r (c :: rout) dotdot
        end
  end.

(** [path.Clean]. *)
Definition Clean (p : string) : string :=
  match p with
  | EmptyString => "."
  | String c r =>
      let rooted := isSlash c in
      let rout :=
        if rooted then cleanLoop true false r ["/"%char] 1
        else cleanLoop false false p [] 0 in
      match rout with
      | [] => "."
      | _ => String.string_of_list_ascii (rev rout)
      end
  end.

(** [path.Split]: the path up to and with the last slash, and the rest. *)
Definition Split (p : string) : string * string :=
  let i := strings.LastIndexByte p "/"%char in
  (str_take (Z.to_nat (i + 1)) p, str_drop (Z.to_nat (i + 1)) p).

(** [path.Dir]. *)
Definition Dir (p : string) : string := Clean (fst (Split p)).

(** [path.Join]: the elements from the first one that is not empty on,
    joined with slashes and cleaned. *)
Fixpoint Join (elem : list string) : string :=
  match elem with
  | [] => EmptyString
  | e :: rest =>
      if String.eqb e EmptyString then Join rest
      else Clean (strings.Join elem "/")
  end.

End path.

(** ** hosts_test.go, paginated results: the paths of the pages *)

Module paginator.

Section Paginator.

(** [relLinkRegexp.FindStringSubmatch]: [None] when the link does not
    match the expression, a URL between angle brackets followed by a
    quoted relation, and otherwise the match and its two groups, [url]
    and [rel]. *)
Variable FindStringSubmatch : string -> option (string * string * string).

(** The fields of [PaginatedResult] that the links are read from: the
    path that was requested for the page, which may end in a query, and
    the [Link] headers of the response. *)
Record PaginatedResult : Type := {
  path : string;
  links : list string
}.

(** [buildPath]: the absolute path of a relative link. *)
Definition buildPath (origPath newRelativePath : string) : string :=
  let i := strings.IndexRune origPath "?"%char in
  let origPath := if negb (i =? -1)%Z then str_take (Z.to_nat i) origPath else origPath in
  path.Join [path.Dir origPath; newRelativePath].

(** [addMatch]: [p.headers[rel] = url]. *)
Definition addMatch (headers : gmap string string)
    (matches : string * string * string) : gmap string string :=
  let '(_, url, rel) := matches in <[rel := url]> headers.

(** [paginationHeaders]: the links that match, by relation; a later link
    replaces an earlier one of the same relation. *)
Definition paginationHeaders (p : PaginatedResult) : gmap string string :=
  fold_left
    (fun headers link =>
       match FindStringSubmatch link with
       | Some result => addMatch headers result
       | None => headers
       end)
    (links p) ∅.

(** The path that [Next] requests: none without a link [next]. *)
Definition nextPage (p : PaginatedResult) : option string :=
  match paginationHeaders p !! "next" with
  | None => None
  | Some nextPath => Some (buildPath (path p) nextPath)
  end.

(** The fields of [PaginatedResultNew] that the links are kept in. *)
Record PaginatedResultNew : Type := {
  basePath : string;
  nextLink : string;
  firstLink : string
}.

(** The part of [load] that sets the base path, from the path of the
    request, which has no query: the parameters are kept apart. *)
Definition loadBasePath (requestPath : string) : string := path.Dir requestPath.

(** The loop of [goTo] over the [Link] headers of the response. *)
Definition goToLinks (p : PaginatedResultNew) (header : list string)
  : PaginatedResultNew :=
  fold_left
    (fun p rawLink =>
       match FindStringSubmatch rawLink with
       | None => p
       | Some (_, relPath, rel) =>
           let path := path.Join [basePath p; relPath] in
           if String.eqb rel "first" then
             {| basePath := basePath p; nextLink := nextLink p; firstLink := path |}
           else if String.eqb rel "next" then
             {| basePath := basePath p; nextLink := path; firstLink := firstLink p |}
           else p
       end)
    header
    {| basePath := basePath p; nextLink := EmptyString; firstLink := firstLink p |}.

(** One turn of the loop of [goTo]. *)
Definition goToLink (p : PaginatedResultNew) (rawLink : string)
  : PaginatedResultNew :=
  match FindStringSubmatch rawLink with
  | None => p
  | Some (_, relPath, rel) =>
      let path := path.Join [basePath p; relPath] in
      if String.eqb rel "first" then
        {| basePath := basePath p; nextLink := nextLink p; firstLink := path |}
      else if String.eqb rel "next" then
        {| basePath := basePath p; nextLink := path; firstLink := firstLink p |}
      else p
  end.

(** The URL of the last link of [links] that matches with the relation
    [rel]. *)
Fixpoint lastMatch (links : list string) (rel : string) : option string :=
  match links with
  | [] => None
  | link :: links =>
      match lastMatch links rel with
      | Some url => Some url
      | None =>
          match FindStringSubmatch link with
          | Some (_, url, r) => if String.eqb r rel then Some url else None
          | None => None
          end
      end
  end.

End Paginator.

(** A matcher for links of the form [<url>; rel="next"] with the relation
    [next] only, for evaluating the functions above. *)
Definition nextOnly (link : string) : option (string * string * string) :=
  match link with
  | String "<"%char rest =>
      let i := strings.IndexRune rest ">"%char in
      if (0 <? i)%Z
         && String.eqb (str_drop (Z.to_nat i) rest)
              (">; rel=" ++ String "034"%char "next" ++ String "034"%char EmptyString)
      then Some (link, str_take (Z.to_nat i) rest, "next")
      else None
  | _ => None
  end.

(** The double quote. *)
Definition dquote : ascii := "034"%char.

(** The text of the link expression between its two groups: the closing
    angle bracket, a semicolon, a space, the word rel, the equals sign and
    the opening double quote. *)
Definition relInfix : string := ">; rel=" ++ String dquote EmptyString.

(** The longest prefix of [s] that holds no byte [stop], and the rest. *)
Fixpoint span (stop : ascii) (s : string) : string * string :=
  match s with
  | EmptyString => (EmptyString, EmptyString)
  | String c t =>
      if Ascii.eqb c stop then (EmptyString, s)
      else let '(a, b) := span stop t in (String c a, b)
  end.

(** A match of [relLinkRegexp] that begins at the start of [s]: an opening
    angle bracket, the group [url] of one or more bytes other than the
    closing bracket, the text [relInfix], the group [rel] of one or more
    bytes other than the double quote, and a double quote.  Each group is
    followed by the byte that it excludes, so that the longest run is the
    only one with which the expression can match. *)
Definition matchAt (s : string) : option (string * string * string) :=
  match s with
  | String "<"%char rest =>
      let '(url, r1) := span ">"%char rest in
      if String.eqb url EmptyString then None
      else if strings.HasPrefix r1 relInfix then
        let '(rel, r2) := span dquote (str_drop (String.length relInfix) r1) in
        if String.eqb rel EmptyString then None
        else match r2 with
             | String _ _ =>
                 Some ("<" ++ url ++ relInfix ++ rel ++ String dquote EmptyString,
                       url, rel)
             | EmptyString => None
             end
      else None
  | _ => None
  end.

(** [relLinkRegexp.FindStringSubmatch(s)]: the leftmost match in [s], as
    the whole match and the two groups. *)
Fixpoint relLinkRegexp (s : string) : option (string * string * string) :=
  match matchAt s with
  | Some m => Some m
  | None =>
      match s with
      | EmptyString => None
      | String _ t => relLinkRegexp t
      end
  end.

(** A Link header with the relation next, and an iterator after [load]
    of the request for /channels/test/messages, for evaluating [goTo]. *)
Definition linkNext (url : string) : string :=
  "<" ++ url ++ relInfix ++ "next" ++ String dquote EmptyString.

Definition loaded : PaginatedResultNew := {|
  basePath := loadBasePath "/channels/test/messages";
  nextLink := EmptyString;
  firstLink := "/channels/test/messages"
|}.

End paginator.

(** ** Package math/rand *)

Module rand.
Local Open Scope Z_scope.

(** A generator together with its state: [draw k n] is the number that the
    call number [k] of [Intn] on it gives for the bound [n].  Nothing is
    known of it but its range. *)
Definition Rand : Type := nat -> Z -> Z.

(** [r.Intn(n)], the call number [k] on [r]: a number in [[0,n)]; it
    panics if [n <= 0]. *)
Definition Intn (r : Rand) (k : nat) (n : Z) : outcome Z :=
  if n <=? 0 then Panic else Done (r k n mod n).

End rand.

(** ** internal/ablyutil/strings.go *)

Module ablyutil.
Local Open Scope Z_scope.

(** [l[i], l[n] = l[n], l[i]]: both elements are read, which panics
    outside the slice, then [l[i]] and [l[n]] are written in turn. *)
Definition swap (l : list string) (i n : Z) : outcome (list string) :=
  if (i <? 0) || (n <? 0) then Panic
  else
    match l !! Z.to_nat i, l !! Z.to_nat n with
    | Some li, Some ln => Done (<[Z.to_nat n := li]> (<[Z.to_nat i := ln]> l))
    | _, _ => Panic
    end.

(** The turns [i, i+1, ...] of the loop [for i := range l]; [todo] turns
    are left. *)
Fixpoint shuffleFrom (r : rand.Rand) (l : list string) (i : nat) (todo : nat)
  : outcome (list string) :=
  match todo with
  | O => Done l
  | S todo =>
      obind (rand.Intn r i (Z.of_nat (length l) - 1)) (fun n =>
      obind (swap l (Z.of_nat i) n) (fun l =>
      shuffleFrom r l (S i) todo))
  end.

(** [Shuffle(l)] with the generator [r] that it makes from the clock.  The
    slice is permuted in place and returned. *)
Definition Shuffle (r : rand.Rand) (l : list string) : outcome (list string) :=
  shuffleFrom r l 0 (length l).

Definition Contains (s : list string) (str : string) : bool :=
  existsb (String.eqb str) s.

End ablyutil.

(** ** Package strconv *)

Module strconv.

(** [strconv.FormatInt(i, 10)]: the decimal numeral of [i], with a minus
    sign before the digits of a negative number. *)
Definition FormatInt (i : Z) : string :=
  DecimalString.NilZero.string_of_int (Z.to_int i).

(** [strconv.Itoa(i)], which is [FormatInt(int64(i), 10)]. *)
Definition Itoa (i : Z) : string := FormatInt i.

End strconv.

(** ** Package net *)

Module net.

(** [net.JoinHostPort]: a host that holds a colon is taken for a literal
    IPv6 address and put between brackets.  The index of the colon is that
    of [strings.IndexRune], the rune being one byte. *)
Definition JoinHostPort (host port : string) : string :=
  if (0 <=? strings.IndexRune host ":"%char)%Z
  then "[" ++ host ++ "]:" ++ port
  else host ++ ":" ++ port.

End net.

(** ** state.go, client options: keys, URLs and timeouts *)

Module config.
Local Open Scope Z_scope.

(** A [time.Duration], in nanoseconds. *)
Definition Duration : Type := Z.
Definition Millisecond : Duration := 1000000.
Definition Second : Duration := 1000 * Millisecond.
Definition Minute : Duration := 60 * Second.

(** The fields of [authOptions] that its methods read. *)
Record authOptions : Type := {
  Key : string;
  AuthMethod : string
}.

Definition authMethod (opts : authOptions) : string :=
  if negb (String.eqb (AuthMethod opts) "") then AuthMethod opts else "GET".

(** [KeyName]: the key up to its first colon. *)
Definition KeyName (opts : authOptions) : string :=
  let i := strings.IndexRune (Key opts) ":"%char in
  if negb (i =? -1) then str_take (Z.to_nat i) (Key opts) else "".

(** [KeySecret]: the key after its first colon. *)
Definition KeySecret (opts : authOptions) : string :=
  let i := strings.IndexRune (Key opts) ":"%char in
  if negb (i =? -1) then str_drop (Z.to_nat (i + 1)) (Key opts) else "".

(** [clientOptions]: the embedded [authOptions], the fields that choose
    the host, and the fields that choose scheme, port, protocol and
    timeouts. *)
Record clientOptions : Type := {
  auth : authOptions;
  hostOptions : options.clientOptions;
  Port : Z;
  TLSPort : Z;
  NoTLS : bool;
  NoBinaryProtocol : bool;
  HTTPRequestTimeout : Duration;
  FallbackRetryTimeout : Duration;
  TimeoutConnect : Duration;
  TimeoutDisconnect : Duration;
  ConnectionStateTTL : Duration;
  RealtimeRequestTimeout : Duration;
  DisconnectedRetryTimeout : Duration;
  SuspendedRetryTimeout : Duration;
  ChannelRetryTimeout : Duration;
  HTTPOpenTimeout : Duration
}.

Definition protocolJSON : string := "application/json".
Definition protocolMsgPack : string := "application/x-msgpack".

Definition defaultOptions : clientOptions := {|
  auth := {| Key := ""; AuthMethod := "" |};
  hostOptions := options.defaultOptions;
  Port := 80;
  TLSPort := 443;
  NoTLS := false;
  NoBinaryProtocol := false;
  HTTPRequestTimeout := 10 * Second;
  FallbackRetryTimeout := 10 * Minute;
  TimeoutConnect := 0;
  TimeoutDisconnect := 30 * Second;
  ConnectionStateTTL := 120 * Second;
  RealtimeRequestTimeout := 10 * Second;
  DisconnectedRetryTimeout := 15 * Second;
  SuspendedRetryTimeout := 30 * Second;
  ChannelRetryTimeout := 15 * Second;
  HTTPOpenTimeout := 4 * Second
|}.

Definition timeoutConnect (opts : clientOptions) : Duration :=
  if negb (TimeoutConnect opts =? 0) then TimeoutConnect opts
  else RealtimeRequestTimeout defaultOptions.

Definition timeoutDisconnect (opts : clientOptions) : Duration :=
  if negb (TimeoutDisconnect opts =? 0) then TimeoutDisconnect opts
  else TimeoutDisconnect defaultOptions.

Definition fallbackRetryTimeout (opts : clientOptions) : Duration :=
  if negb (FallbackRetryTimeout opts =? 0) then FallbackRetryTimeout opts
  else FallbackRetryTimeout defaultOptions.

Definition realtimeRequestTimeout (opts : clientOptions) : Duration :=
  if negb (RealtimeRequestTimeout opts =? 0) then RealtimeRequestTimeout opts
  else RealtimeRequestTimeout defaultOptions.

Definition connectionStateTTL (opts : clientOptions) : Duration :=
  if negb (ConnectionStateTTL opts =? 0) then ConnectionStateTTL opts
  else ConnectionStateTTL defaultOptions.

Definition disconnectedRetryTimeout (opts : clientOptions) : Duration :=
  if negb (DisconnectedRetryTimeout opts =? 0) then DisconnectedRetryTimeout opts
  else DisconnectedRetryTimeout defaultOptions.

Definition httpOpenTimeout (opts : clientOptions) : Duration :=
  if negb (HTTPOpenTimeout opts =? 0) then HTTPOpenTimeout opts
  else HTTPOpenTimeout defaultOptions.

Definition suspendedRetryTimeout (opts : clientOptions) : Duration :=
  if negb (SuspendedRetryTimeout opts =? 0) then SuspendedRetryTimeout opts
  else SuspendedRetryTimeout defaultOptions.

Definition restURL (opts : clientOptions) : string :=
  let host := options.resolveHost (options.RESTHost (hostOptions opts))
                (options.Environment (hostOptions opts))
                (options.RESTHost (hostOptions defaultOptions)) in
  if NoTLS opts then
    let port := Port opts in
    let port := if port =? 0 then 80 else port in
    "http://" ++ net.JoinHostPort host (strconv.FormatInt port)
  else
    let port := TLSPort opts in
    let port := if port =? 0 then 443 else port in
    "https://" ++ net.JoinHostPort host (strconv.FormatInt port).

Definition realtimeURL (opts : clientOptions) : string :=
  let host := options.resolveHost (options.RealtimeHost (hostOptions opts))
                (options.Environment (hostOptions opts))
                (options.RealtimeHost (hostOptions defaultOptions)) in
  if NoTLS opts then
    let port := Port opts in
    let port := if port =? 0 then 80 else port in
    "ws://" ++ net.JoinHostPort host (strconv.FormatInt port)
  else
    let port := TLSPort opts in
    let port := if port =? 0 then 443 else port in
    "wss://" ++ net.JoinHostPort host (strconv.FormatInt port).

Definition protocol (opts : clientOptions) : string :=
  if NoBinaryProtocol opts then protocolJSON else protocolMsgPack.

(** The port that the URLs name: the port of the options for the scheme
    in use, and 80 or 443 when that is zero. *)
Definition effectivePort (opts : clientOptions) : Z :=
  if NoTLS opts then (if Port opts =? 0 then 80 else Port opts)
  else (if TLSPort opts =? 0 then 443 else TLSPort opts).

(** Options for evaluating the methods: the defaults with an environment. *)
Definition sandboxOptions : clientOptions := {|
  auth := {| Key := "appid.keyid:secret"; AuthMethod := "" |};
  hostOptions := {| options.Environment := "sandbox";
                    options.RESTHost := "";
                    options.RealtimeHost := "" |};
  Port := 0;
  TLSPort := 0;
  NoTLS := false;
  NoBinaryProtocol := false;
  HTTPRequestTimeout := 0;
  FallbackRetryTimeout := 0;
  TimeoutConnect := 0;
  TimeoutDisconnect := 0;
  ConnectionStateTTL := 0;
  RealtimeRequestTimeout := 0;
  DisconnectedRetryTimeout := 0;
  SuspendedRetryTimeout := 0;
  ChannelRetryTimeout := 0;
  HTTPOpenTimeout := 0
|}.

End config.

(** ** state.go, client options: the parameters of a paginated request *)

Module params.
Local Open Scope Z_scope.

(** A [url.Values]. *)
Abbreviation Values := (gmap string (list string)).

(** [v.Set(key, value)], which replaces the values of the key. *)
Definition Set_ (v : Values) (key value : string) : Values :=
  <[key := [value]]> v.

(** The errors that the two methods make with [fmt.Errorf]. *)
Inductive error : Type :=
| errStartBeforeEnd
| errInvalidDirection (direction : string).

Section Params.

(** A [time.Time] with the methods [IsZero] and [After]; the helper
    [unixMilli] of the package is not in this file. *)
Variable Time : Type.
Variable IsZero : Time -> bool.
Variable After : Time -> Time -> bool.
Variable unixMilli : Time -> Z.

Record ScopeParams : Type := {
  Start : Time;
  End : Time;
  Unit : string
}.

(** [ScopeParams.EncodeValues]: the values [out] points to after the
    call, and the error. *)
Definition ScopeParams_EncodeValues (s : ScopeParams) (out : Values)
  : Values * option error :=
  if negb (IsZero (Start s)) && negb (IsZero (End s)) && After (Start s) (End s)
  then (out, Some errStartBeforeEnd)
  else
    let out :=
      if negb (IsZero (Start s))
      then Set_ out "start" (strconv.FormatInt (unixMilli (Start s)))
      else out in
    let out :=
      if negb (IsZero (End s))
      then Set_ out "end" (strconv.FormatInt (unixMilli (End s)))
      else out in
    let out :=
      if negb (String.eqb (Unit s) "") then Set_ out "unit" (Unit s) else out in
    (out, None).

Record PaginateParams : Type := {
  scope : ScopeParams;
  Limit : Z;
  Direction : string
}.

(** [PaginateParams.EncodeValues]; the error of the embedded
    [ScopeParams.EncodeValues] is dropped. *)
Definition PaginateParams_EncodeValues (p : PaginateParams) (out : Values)
  : Values * option error :=
  let out :=
    if Limit p <? 0 then Set_ out "limit" (strconv.Itoa 100)
    else if negb (Limit p =? 0) then Set_ out "limit" (strconv.Itoa (Limit p))
    else out in
  if String.eqb (Direction p) "" then
    (fst (ScopeParams_EncodeValues (scope p) out), None)
  else if String.eqb (Direction p) "backwards" || String.eqb (Direction p) "forwards"
  then
    let out := Set_ out "direction" (Direction p) in
    (fst (ScopeParams_EncodeValues (scope p) out), None)
  else (out, Some (errInvalidDirection (Direction p))).

(** [values.Encode()] of package [net/url]. *)
Variable Encode : Values -> string.

(** [buildPaginatedPath]; the error is the one that [newError(50000, err)]
    wraps. *)
Definition buildPaginatedPath (path : string) (params : option PaginateParams)
  : result (Z * error) string :=
  match params with
  | None => Ok path
  | Some params =>
      let '(values, err) := PaginateParams_EncodeValues params ∅ in
      match err with
      | Some err => Err (50000, err)
      | None =>
          let queryString := Encode values in
          if (0 <? Z.of_nat (String.length queryString))
          then Ok (path ++ "?" ++ queryString)
          else Ok path
      end
  end.

End Params.

Arguments Start {Time} s.
Arguments End {Time} s.
Arguments Unit {Time} s.
Arguments scope {Time} p.
Arguments Limit {Time} p.
Arguments Direction {Time} p.
Arguments ScopeParams_EncodeValues {Time} IsZero After unixMilli s out.
Arguments PaginateParams_EncodeValues {Time} IsZero After unixMilli p out.
Arguments buildPaginatedPath {Time} IsZero After unixMilli Encode path params.

(** A clock for evaluating the methods: a time is its number of
    milliseconds since the epoch, and the zero time is taken to be the
    number 0. *)
Definition sampleIsZero (t : Z) : bool := t =? 0.
Definition sampleAfter (t u : Z) : bool := u <? t.
Definition sampleUnixMilli (t : Z) : Z := t.

End params.

(** ** state.go: the queue of messages that wait for the connection *)

Module outbound.
Local Open Scope list_scope.

Record msgch : Type := {
  msg : pending.ProtocolMessage;
  ch : pending.chan
}.

(** The field [conn] is the receiver of [connSend]; the mutex is held for
    the length of every method. *)
Record msgQueue : Type := {
  queue : list msgch
}.

Definition newMsgQueue : msgQueue := {| queue := [] |}.

Definition Enqueue (q : msgQueue) (m : pending.ProtocolMessage)
    (listen : pending.chan) : msgQueue :=
  {| queue := queue q ++ [{| msg := m; ch := listen |}] |}.

(** The queue after the calls [Enqueue(m, c)] for the pairs of [l] in
    turn. *)
Definition enqueueAll (q : msgQueue)
    (l : list (pending.ProtocolMessage * pending.chan)) : msgQueue :=
  fold_left (fun q e => Enqueue q (fst e) (snd e)) l q.

Section Queue.

(** The values of Go's type [error], and the function [newError] of the
    package, which is declared in none of these files: what it makes of
    the code and the error that [Fail] gives it is not known here, it may
    well return an error that has a code already as it is. *)
Variable error : Type.
Variable newError : Z -> error -> error.

(** What the queue does to the world: [q.conn.send(msg, ch)], and a send
    of an error on the channel of an entry. *)
Inductive event : Type :=
| connSend (m : pending.ProtocolMessage) (c : pending.chan)
| chanSend (c : pending.chan) (err : error).

(** [for _, msgch := range q.queue { q.conn.send(msgch.msg, msgch.ch) }]. *)
Fixpoint sendEach (l : list msgch) : list event :=
  match l with
  | [] => []
  | x :: l => connSend (msg x) (ch x) :: sendEach l
  end.

Definition Flush (q : msgQueue) : list event * msgQueue :=
  (sendEach (queue q), {| queue := [] |}).

(** [for _, msgch := range q.queue { msgch.ch <- newError(90000, err) }]. *)
Fixpoint failEach (l : list msgch) (err : error) : list event :=
  match l with
  | [] => []
  | x :: l => chanSend (ch x) (newError 90000 err) :: failEach l err
  end.

Definition Fail (q : msgQueue) (err : error) : list event * msgQueue :=
  (failEach (queue q) err, {| queue := [] |}).

End Queue.

Arguments connSend {error} m c.
Arguments chanSend {error} c err.
Arguments sendEach {error} l.
Arguments Flush {error} q.
Arguments failEach {error} newError l err.
Arguments Fail {error} newError q err.

End outbound.

(** ** hosts_test.go, paginated results: the items of the pages in turn *)

Module items.
Local Open Scope Z_scope.

Section Items.

(** The paginator [p] together with the server that answers it and the
    page that the decoder holds. *)
Variable P : Type.

(** [p.next(ctx, &page)]: whether a page was loaded, and the paginator
    after the call. *)
Variable pnext : P -> bool * P.

(** [getLen()], the length of the page that was decoded last. *)
Variable getLen : P -> Z.

(** The variables that the function [next] of [loadItems] closes over. *)
Record iterator : Type := {
  p : P;
  pageLen : Z;
  nextItem : Z
}.

(** The state in which [loadItems] returns [next]. *)
Definition loadItems (p0 : P) : iterator :=
  {| p := p0; pageLen := 0; nextItem := 0 |}.

(** [idx := nextItem; nextItem = (nextItem + 1) % pageLen; return idx, true];
    the remainder panics when [pageLen] is zero. *)
Definition advance (it : iterator) : outcome (Z * bool * iterator) :=
  if pageLen it =? 0 then Panic
  else Done (nextItem it, true,
             {| p := p it; pageLen := pageLen it;
                nextItem := Z.rem (int_add (nextItem it) 1) (pageLen it) |}).

(** The function [next] that [loadItems] returns. *)
Definition next (it : iterator) : outcome (Z * bool * iterator) :=
  if nextItem it =? 0 then
    let '(hasNext, p') := pnext (p it) in
    if negb hasNext
    then Done (0, false, {| p := p'; pageLen := pageLen it; nextItem := nextItem it |})
    else
      let it := {| p := p'; pageLen := getLen p'; nextItem := nextItem it |} in
      if pageLen it =? 0 then Done (0, false, it)
      else advance it
  else advance it.

(** [n] calls of [next] in turn: what they return, and the state after
    the last. *)
Fixpoint calls (n : nat) (it : iterator) : outcome (list (Z * bool) * iterator) :=
  match n with
  | O => Done ([], it)
  | S n =>
      obind (next it) (fun r =>
      obind (calls n (snd r)) (fun rs =>
      Done (fst r :: fst rs, snd rs)))
  end.

(** Between two calls the closure is at the start of a page, or inside
    the page that was decoded last. *)
Definition inPage (it : iterator) : Prop :=
  nextItem it = 0
  \/ (0 < nextItem it < pageLen it /\ pageLen it = getLen (p it)).

(** The states of the closure that calls of [next] reach from the state
    in which [loadItems] returns it. *)
Inductive reached : iterator -> Prop :=
| reached_load p0 : reached (loadItems p0)
| reached_next it r it' : reached it -> next it = Done (r, it') -> reached it'.

End Items.

Arguments p {P} i.
Arguments pageLen {P} i.
Arguments nextItem {P} i.
Arguments loadItems {P} p0.
Arguments advance {P} it.
Arguments next {P} pnext getLen it.
Arguments calls {P} pnext getLen n it.
Arguments reached {P} pnext getLen it.
Arguments inPage {P} getLen it.

(** A paginator for evaluating [next]: the number of pages that are
    still to come, each of three items. *)
Definition samplePages : Type := nat.

Definition sampleNext (s : samplePages) : bool * samplePages :=
  match s with
  | O => (false, O)
  | S rest => (true, rest)
  end.

Definition sampleLen (s : samplePages) : Z := 3.

End items.

(** ** The logger *)

Module logger.
Local Open Scope N_scope.

(** [LogLevel], a [uint]. *)
Definition LogLevel : Type := N.
Definition LogNone : LogLevel := 0.
Definition LogError : LogLevel := 1.
Definition LogWarning : LogLevel := 2.
Definition LogInfo : LogLevel := 3.
Definition LogVerbose : LogLevel := 4.
Definition LogDebug : LogLevel := 5.

(** [logLevels[level]]: the empty string for a level that is no key of
    the map. *)
Definition logLevels (level : LogLevel) : string :=
  match level with
  | 1 => "[ERROR] "
  | 2 => "[WARN] "
  | 3 => "[INFO] "
  | 4 => "[VERBOSE] "
  | 5 => "[DEBUG] "
  | _ => ""
  end.

(** The field [Logger] is where the lines go; a line is an element of the
    trace. *)
Record LoggerOptions : Type := {
  Level : LogLevel
}.

Definition Is (l : LoggerOptions) (level : LogLevel) : bool :=
  negb (Level l =? LogNone) && (level <=? Level l).

(** [LoggerOptions.Printf] on a [StdLogger], the arguments already put
    into the format: the lines written. *)
Definition Printf (l : LoggerOptions) (level : LogLevel) (format : string)
  : list string :=
  if Is l level then [logLevels level ++ format] else [].

End logger.

(* ================================================================== *)
(** * Properties *)

(** ** base64: decoding inverts encoding *)

Module base64_facts.
Import base64.
Local Open Scope Z_scope.

Lemma byte_val_range b : 0 <= byte_val b < 256.
Proof.
  unfold byte_val. pose proof (Byte.to_N_bounded b) as H. lia.
Qed.

Lemma byte_of_Z_val b : byte_of_Z (byte_val b) = b.
Proof.
  unfold byte_of_Z. pose proof (byte_val_range b).
  rewrite Z.mod_small by lia. unfold byte_val.
  rewrite N2Z.id, Byte.of_to_N. reflexivity.
Qed.

Lemma land_shiftl_small a x k :
  0 <= k -> 0 <= x < 2 ^ k -> Z.land (Z.shiftl a k) x = 0.
Proof.
  intros Hk Hx. apply Z.bits_inj'. intros n Hn.
  rewrite Z.land_spec, Z.bits_0.
  destruct (Z.ltb_spec n k).
  - rewrite Z.shiftl_spec_low by lia. reflexivity.
  - destruct (Z.eq_dec x 0) as [->|Hx0].
    + rewrite Z.bits_0. apply andb_false_r.
    + rewrite (Z.bits_above_log2 x n); [apply andb_false_r|lia|].
      apply Z.lt_le_trans with k; [|lia].
      apply Z.log2_lt_pow2; lia.
Qed.

Lemma lor_shiftl_add a x k :
  0 <= k -> 0 <= x < 2 ^ k -> Z.lor (Z.shiftl a k) x = a * 2 ^ k + x.
Proof.
  intros Hk Hx. rewrite <- Z.add_nocarry_lor by (apply land_shiftl_small; lia).
  rewrite Z.shiftl_mul_pow2 by lia. reflexivity.
Qed.

Lemma land_63 x : Z.land x 63 = x mod 64.
Proof. change 63 with (Z.ones 6). rewrite Z.land_ones by lia. reflexivity. Qed.

Lemma decodeMap_encode i : 0 <= i < 64 -> decodeMap (encode i) = Some i.
Proof.
  intros H.
  assert (Hn : exists n, (n < 64)%nat /\ i = Z.of_nat n)
    by (exists (Z.to_nat i); lia).
  destruct Hn as (n & Hn & ->).
  do 64 (destruct n as [|n]; [reflexivity|]). lia.
Qed.

Lemma encode_plain i :
  0 <= i < 64 -> isNewline (encode i) = false /\ decodeMap (encode i) <> None.
Proof.
  intros H. split; [|rewrite decodeMap_encode by done; done].
  assert (Hn : exists n, (n < 64)%nat /\ i = Z.of_nat n)
    by (exists (Z.to_nat i); lia).
  destruct Hn as (n & Hn & ->).
  do 64 (destruct n as [|n]; [reflexivity|]). lia.
Qed.

(** The three bytes of a group as one 24-bit value. *)
Lemma group_val a b c :
  0 <= a < 256 -> 0 <= b < 256 -> 0 <= c < 256 ->
  Z.lor (Z.lor (Z.shiftl a 16) (Z.shiftl b 8)) c = a * 65536 + b * 256 + c.
Proof.
  intros Ha Hb Hc.
  replace (Z.shiftl a 16) with (Z.shiftl (Z.shiftl a 8) 8)
    by (rewrite Z.shiftl_shiftl by lia; reflexivity).
  rewrite <- Z.shiftl_lor.
  rewrite (lor_shiftl_add a b 8) by lia.
  rewrite (lor_shiftl_add _ c 8) by lia. lia.
Qed.

Lemma quantum_val d0 d1 d2 d3 :
  0 <= d0 < 64 -> 0 <= d1 < 64 -> 0 <= d2 < 64 -> 0 <= d3 < 64 ->
  quantum d0 d1 d2 d3 = d0 * 262144 + d1 * 4096 + d2 * 64 + d3.
Proof.
  intros H0 H1 H2 H3. unfold quantum.
  replace (Z.shiftl d0 18) with (Z.shiftl (Z.shiftl (Z.shiftl d0 6) 6) 6)
    by (rewrite !Z.shiftl_shiftl by lia; reflexivity).
  replace (Z.shiftl d1 12) with (Z.shiftl (Z.shiftl d1 6) 6)
    by (rewrite !Z.shiftl_shiftl by lia; reflexivity).
  rewrite <- !Z.shiftl_lor.
  rewrite (lor_shiftl_add d0 d1 6) by lia.
  rewrite (lor_shiftl_add _ d2 6) by lia.
  rewrite (lor_shiftl_add _ d3 6) by lia. lia.
Qed.
Lemma byte_of_Z_mod z b : z mod 256 = byte_val b -> byte_of_Z z = b.
Proof.
  intros H. rewrite <- (byte_of_Z_val b). unfold byte_of_Z.
  rewrite H. pose proof (byte_val_range b). rewrite (Z.mod_small (byte_val b)) by lia.
  reflexivity.
Qed.

Ltac sextets :=
  rewrite ?land_63, ?Z.shiftr_div_pow2 by lia;
  change (2 ^ 18) with 262144; change (2 ^ 12) with 4096;
  change (2 ^ 16) with 65536; change (2 ^ 8) with 256; change (2 ^ 6) with 64.

Lemma sextet_range x k : 0 <= Z.land (Z.shiftr x k) 63 < 64.
Proof. rewrite land_63. apply Z.mod_pos_bound. lia. Qed.

Lemma sextet_range0 x : 0 <= Z.land x 63 < 64.
Proof. rewrite land_63. apply Z.mod_pos_bound. lia. Qed.

Lemma list_ind3 {A} (P : list A -> Prop) :
  P [] -> (forall a, P [a]) -> (forall a b, P [a; b]) ->
  (forall a b c rest, P rest -> P (a :: b :: c :: rest)) ->
  forall l, P l.
Proof.
  intros H0 H1 H2 H3.
  fix IH 1. intros [|a [|b [|c rest]]];
    [apply H0|apply H1|apply H2|apply H3, IH].
Qed.

Lemma stripNewlines_EncodeToString src :
  stripNewlines (EncodeToString src) = EncodeToString src.
Proof.
  induction src as [|a|a b|a b c rest IH] using list_ind3; [done|..];
    cbn [EncodeToString stripNewlines];
    repeat match goal with
      | |- context [isNewline (encode (Z.land ?x 63))] =>
          rewrite (proj1 (encode_plain (Z.land x 63) ltac:(first [apply sextet_range|apply sextet_range0])))
      end; try reflexivity.
  rewrite IH. reflexivity.
Qed.

Lemma decode_EncodeToString src : decode (EncodeToString src) = Ok src.
Proof.
  induction src as [|a|a b|a b c rest IH] using list_ind3; [done|..].
  - cbn [EncodeToString decode].
    rewrite !decodeMap_encode by apply sextet_range.
    change (decodeMap padChar) with (@None Z). cbn [andb Ascii.eqb String.eqb].
    rewrite Ascii.eqb_refl. cbn [andb].
    f_equal. f_equal. apply byte_of_Z_mod.
    rewrite quantum_val by (first [apply sextet_range|lia]).
    pose proof (byte_val_range a). sextets.
    rewrite Z.shiftl_mul_pow2 by lia. change (2 ^ 16) with 65536.
    generalize dependent (byte_val a). intros. Z.div_mod_to_equations. lia.
  - cbn [EncodeToString decode].
    rewrite !decodeMap_encode by apply sextet_range.
    change (decodeMap padChar) with (@None Z).
    rewrite Ascii.eqb_refl. cbn [andb String.eqb].
    pose proof (byte_val_range a). pose proof (byte_val_range b).
    assert (Hv : Z.lor (Z.shiftl (byte_val a) 16) (Z.shiftl (byte_val b) 8)
                 = byte_val a * 65536 + byte_val b * 256).
    { rewrite <- (Z.lor_0_r (Z.lor _ _)). rewrite group_val by lia. lia. }
    rewrite Hv.
    f_equal. f_equal; [|f_equal]; apply byte_of_Z_mod;
      rewrite quantum_val by (first [apply sextet_range|lia]); sextets;
      generalize dependent (byte_val a); generalize dependent (byte_val b); intros;
      Z.div_mod_to_equations; lia.
  - cbn [EncodeToString decode].
    rewrite !decodeMap_encode by (first [apply sextet_range|apply sextet_range0]).
    rewrite IH.
    pose proof (byte_val_range a). pose proof (byte_val_range b).
    pose proof (byte_val_range c).
    rewrite group_val by lia.
    f_equal. f_equal; [|f_equal; [|f_equal]]; apply byte_of_Z_mod;
      rewrite quantum_val by (first [apply sextet_range|apply sextet_range0]); sextets;
      generalize dependent (byte_val a); generalize dependent (byte_val b);
      generalize dependent (byte_val c); intros;
      Z.div_mod_to_equations; lia.
Qed.

Theorem DecodeString_EncodeToString src :
  DecodeString (EncodeToString src) = Ok src.
Proof.
  unfold DecodeString.
  rewrite stripNewlines_EncodeToString. apply decode_EncodeToString.
Qed.
End base64_facts.

(** ** Host resolution *)

Module options_facts.
Import options.

Lemma resolveHost_default_env (host env dflt : string) :
  host = dflt \/ host = "" ->
  env <> "" -> env <> "production" ->
  resolveHost host env dflt = env ++ "-" ++ dflt.
Proof.
  intros Hh He Hp. unfold resolveHost.
  assert (Hhost : (if String.eqb host "" then dflt else host) = dflt).
  { destruct (String.eqb_spec host ""); [done|]. by destruct Hh. }
  rewrite Hhost, String.eqb_refl.
  destruct (String.eqb_spec env ""); [done|].
  destruct (String.eqb_spec env "production"); done.
Qed.

Lemma resolveHost_override (host env dflt : string) :
  host <> "" -> host <> dflt -> resolveHost host env dflt = host.
Proof.
  intros H0 Hd. unfold resolveHost.
  destruct (String.eqb_spec host ""); [done|].
  by destruct (String.eqb_spec host dflt).
Qed.

Lemma resolveHost_production (host dflt : string) :
  host = dflt \/ host = "" ->
  resolveHost host "production" dflt = dflt.
Proof.
  intros Hh. unfold resolveHost.
  assert (Hhost : (if String.eqb host "" then dflt else host) = dflt).
  { destruct (String.eqb_spec host ""); [done|]. by destruct Hh. }
  rewrite Hhost, String.eqb_refl. reflexivity.
Qed.

(** C7, as the code has it: with an environment that is neither empty nor
    "production", a REST or realtime host that is the default host, or is
    not set, becomes the environment, a dash and the default host; a host
    that is set to something else is returned as it is. *)
Theorem resolveHost_environment (opts : clientOptions) :
  (Environment opts <> "" -> Environment opts <> "production" ->
     (RESTHost opts = RESTHost defaultOptions \/ RESTHost opts = "" ->
        restURL_host opts = Environment opts ++ "-" ++ RESTHost defaultOptions)
     /\ (RealtimeHost opts = RealtimeHost defaultOptions \/ RealtimeHost opts = "" ->
           realtimeURL_host opts
           = Environment opts ++ "-" ++ RealtimeHost defaultOptions))
  /\ (RESTHost opts <> "" -> RESTHost opts <> RESTHost defaultOptions ->
        restURL_host opts = RESTHost opts)
  /\ (RealtimeHost opts <> "" -> RealtimeHost opts <> RealtimeHost defaultOptions ->
        realtimeURL_host opts = RealtimeHost opts).
Proof.
  unfold restURL_host, realtimeURL_host. split; [|split].
  - intros He Hp. split; intros Hh; by apply resolveHost_default_env.
  - apply resolveHost_override.
  - apply resolveHost_override.
Qed.

Lemma resolveHost_environment_witness :
  restURL_host {| Environment := "sandbox"; RESTHost := "rest.ably.io";
                  RealtimeHost := "example.com" |}
  = "sandbox-rest.ably.io"
  /\ realtimeURL_host {| Environment := "sandbox"; RESTHost := "rest.ably.io";
                         RealtimeHost := "example.com" |}
     = "example.com".
Proof.
  pose proof (resolveHost_environment
                {| Environment := "sandbox"; RESTHost := "rest.ably.io";
                   RealtimeHost := "example.com" |}) as (Henv & _ & Hrt).
  split.
  - apply Henv; [discriminate|discriminate|left; reflexivity].
  - apply Hrt; discriminate.
Defined.

(** C7 as stated fails for the environment "production", which is not
    empty and leaves the default host as it is. *)
Lemma resolveHost_production_unchanged :
  Environment {| Environment := "production"; RESTHost := "rest.ably.io";
                 RealtimeHost := "realtime.ably.io" |} <> ""
  /\ resolveHost "rest.ably.io" "production" "rest.ably.io" = "rest.ably.io"
  /\ restURL_host {| Environment := "production"; RESTHost := "rest.ably.io";
                     RealtimeHost := "realtime.ably.io" |}
     <> "production" ++ "-" ++ "rest.ably.io".
Proof. split; [discriminate|]. split; [reflexivity|]. vm_compute. discriminate. Qed.

End options_facts.

(** ** sort.Search on a monotone predicate *)

Module sort_facts.
Import sort.
Local Open Scope Z_scope.

Lemma half_between i j : i < j -> i <= Z.shiftr (i + j) 1 < j.
Proof.
  intros H. rewrite Z.shiftr_div_pow2 by lia. change (2 ^ 1) with 2.
  Z.div_mod_to_equations. lia.
Qed.

(** One turn of the loop. *)
Lemma search_loop_unfold (f : Z -> bool) (i j : Z) :
  search_loop f i j =
    if Z_lt_dec i j then
      if f (Z.shiftr (i + j) 1)
      then search_loop f i (Z.shiftr (i + j) 1)
      else search_loop f (Z.shiftr (i + j) 1 + 1) j
    else i.
Proof.
  funelim (search_loop f i j); rewrite Heq; try reflexivity;
    cbn beta iota; rewrite Heq0; simp search_loop; rewrite ?Heq; cbn;
    rewrite ?Heq0; reflexivity.
Qed.

(** The invariant of the loop: [f] is false below [i] and true from [j]
    on.  It gives the least index at which [f] holds, or [n]. *)
Lemma search_loop_spec (f : Z -> bool) (n : Z) :
  (forall k k', 0 <= k <= k' -> k' < n -> f k = true -> f k' = true) ->
  forall (d : nat) (i j : Z),
    Z.to_nat (j - i) = d ->
    0 <= i <= j -> j <= n ->
    (forall k, 0 <= k < i -> f k = false) ->
    (forall k, j <= k < n -> f k = true) ->
    i <= search_loop f i j <= j
    /\ (forall k, 0 <= k < search_loop f i j -> f k = false)
    /\ (forall k, search_loop f i j <= k < n -> f k = true).
Proof.
  intros Hmono d. induction d as [d IH] using lt_wf_ind.
  intros i j Hd Hij Hjn Hlo Hhi.
  rewrite search_loop_unfold.
  destruct (Z_lt_dec i j) as [Hlt|Hge].
  - pose proof (half_between i j Hlt) as Hh.
    destruct (f (Z.shiftr (i + j) 1)) eqn:Hfh.
    + destruct (IH (Z.to_nat (Z.shiftr (i + j) 1 - i)) ltac:(lia)
                  i (Z.shiftr (i + j) 1) eq_refl) as (Hr & Hf & Ht);
        [lia|lia|done| |].
      * intros k Hk. apply (Hmono (Z.shiftr (i + j) 1)); [lia|lia|done].
      * repeat split; auto; lia.
    + destruct (IH (Z.to_nat (j - (Z.shiftr (i + j) 1 + 1))) ltac:(lia)
                  (Z.shiftr (i + j) 1 + 1) j eq_refl) as (Hr & Hf & Ht);
        [lia|lia| |done|].
      * intros k Hk. destruct (f k) eqn:Hfk; [|done].
        rewrite <- Hfh. symmetry. apply (Hmono k); [lia|lia|done].
      * repeat split; auto; lia.
  - assert (i = j) by lia. subst j. repeat split; auto; lia.
Qed.

Lemma Search_spec (f : Z -> bool) (n : Z) :
  0 <= n ->
  (forall k k', 0 <= k <= k' -> k' < n -> f k = true -> f k' = true) ->
  0 <= Search n f <= n
  /\ (forall k, 0 <= k < Search n f -> f k = false)
  /\ (forall k, Search n f <= k < n -> f k = true).
Proof.
  intros Hn Hmono. unfold Search.
  apply (search_loop_spec f n Hmono (Z.to_nat (n - 0)) 0 n); lia.
Qed.

End sort_facts.

(** ** The pending-ack queue *)

Module pending_facts.
Import pending.
Local Open Scope Z_scope.
Local Open Scope list_scope.

(** *** Sorted lists of entries *)

Lemma sorted_lookup_lt (l : list msgCh) (a b : nat) (x y : msgCh) :
  StronglySorted before l ->
  l !! a = Some x -> l !! b = Some y -> (a < b)%nat -> before x y.
Proof.
  intros Hs. revert a b. induction Hs as [|z l Hs IH Hall]; intros a b Ha Hb Hab.
  - done.
  - destruct b as [|b]; [lia|]. cbn in Hb.
    destruct a as [|a]; cbn in Ha.
    + injection Ha as ->. rewrite Forall_forall in Hall.
      apply Hall. by eapply list_elem_of_lookup_2.
    + apply (IH a b); [done|done|lia].
Qed.

(** Serials are integers, so that between two places of a sorted queue
    they grow at least as much as the index. *)
Lemma sorted_lookup_gap (l : list msgCh) (a d : nat) (x y : msgCh) :
  StronglySorted before l ->
  l !! a = Some x -> l !! (a + d)%nat = Some y ->
  MsgSerial (msg x) + Z.of_nat d <= MsgSerial (msg y).
Proof.
  intros Hs Ha. revert y. induction d as [|d IH]; intros y Hy.
  - rewrite Nat.add_0_r in Hy. rewrite Ha in Hy. injection Hy as ->. lia.
  - assert (Hlt : (a + d < length l)%nat).
    { apply lookup_lt_Some in Hy. lia. }
    destruct (lookup_lt_is_Some_2 l (a + d)%nat Hlt) as [z Hz].
    specialize (IH z Hz).
    pose proof (sorted_lookup_lt l (a + d) (a + S d) z y Hs Hz Hy ltac:(lia)) as Hb.
    unfold before in Hb. lia.
Qed.

Lemma sorted_take (l : list msgCh) (n : nat) :
  StronglySorted before l -> StronglySorted before (take n l).
Proof.
  intros Hs. rewrite <- (take_drop n l) in Hs.
  by apply StronglySorted_app_1_l in Hs.
Qed.

Lemma sorted_drop (l : list msgCh) (n : nat) :
  StronglySorted before l -> StronglySorted before (drop n l).
Proof.
  intros Hs. rewrite <- (take_drop n l) in Hs.
  by apply StronglySorted_app_1_r in Hs.
Qed.

Lemma slice_Done {A} (l : list A) (lo hi : Z) :
  0 <= lo -> lo <= hi -> hi <= Z.of_nat (length l) ->
  slice l lo hi = Done (take (Z.to_nat (hi - lo)) (drop (Z.to_nat lo) l)).
Proof.
  intros H0 H1 H2. unfold slice.
  destruct (Z.leb_spec 0 lo); [|lia].
  destruct (Z.leb_spec lo hi); [|lia].
  destruct (Z.leb_spec hi (Z.of_nat (length l))); [|lia].
  reflexivity.
Qed.

Lemma slice_to_end {A} (l : list A) (lo : Z) :
  0 <= lo <= Z.of_nat (length l) ->
  slice l lo (Z.of_nat (length l)) = Done (drop (Z.to_nat lo) l).
Proof.
  intros H. rewrite slice_Done by lia. f_equal.
  apply take_ge. rewrite length_drop. lia.
Qed.

Lemma slice_inv {A} (l r : list A) (lo hi : Z) :
  slice l lo hi = Done r ->
  0 <= lo <= hi /\ hi <= Z.of_nat (length l)
  /\ r = take (Z.to_nat (hi - lo)) (drop (Z.to_nat lo) l).
Proof.
  unfold slice.
  destruct (Z.leb_spec 0 lo); [|done].
  destruct (Z.leb_spec lo hi); [|done].
  destruct (Z.leb_spec hi (Z.of_nat (length l))); [|done].
  cbn. intros [= <-]. repeat split; lia.
Qed.

Lemma sorted_slice (l r : list msgCh) (lo hi : Z) :
  StronglySorted before l -> slice l lo hi = Done r -> StronglySorted before r.
Proof.
  intros Hs Hr. apply slice_inv in Hr as (_ & _ & ->).
  by apply sorted_take, sorted_drop.
Qed.

(** *** Search on a sorted queue *)

(** [Search] returns the place of the first entry whose serial is not
    below the serial of the message. *)
Lemma Search_sorted (q : pendingEmitter) (m : ProtocolMessage) :
  sorted q ->
  0 <= Search q m <= Len q
  /\ (forall (k : nat) e, queue q !! k = Some e ->
        Z.of_nat k < Search q m -> MsgSerial (msg e) < MsgSerial m)
  /\ (forall (k : nat) e, queue q !! k = Some e ->
        Search q m <= Z.of_nat k -> MsgSerial m <= MsgSerial (msg e)).
Proof.
  intros Hs. unfold Search.
  set (f := fun i : Z => match queue q !! Z.to_nat i with
                         | Some e => MsgSerial (msg e) >=? MsgSerial m
                         | None => false
                         end).
  destruct (sort_facts.Search_spec f (Len q)) as (Hr & Hlo & Hhi).
  { unfold Len. lia. }
  { intros k k' Hk Hk'. unfold f.
    destruct (queue q !! Z.to_nat k) as [x|] eqn:Hx; [|done].
    destruct (lookup_lt_is_Some_2 (queue q) (Z.to_nat k')) as [y Hy].
    { unfold Len in Hk'. lia. }
    rewrite Hy. intros Hge.
    destruct (decide (k = k')) as [->|Hne].
    - rewrite Hx in Hy. by injection Hy as ->.
    - pose proof (sorted_lookup_lt _ _ _ _ _ Hs Hx Hy ltac:(lia)) as Hb.
      unfold before in Hb. lia. }
  split; [done|]. split.
  - intros k e He Hk. specialize (Hlo (Z.of_nat k) ltac:(lia)).
    unfold f in Hlo. rewrite Nat2Z.id, He in Hlo. lia.
  - intros k e He Hk.
    assert (Hlen : Z.of_nat k < Len q).
    { apply lookup_lt_Some in He. unfold Len. lia. }
    specialize (Hhi (Z.of_nat k) ltac:(lia)).
    unfold f in Hhi. rewrite Nat2Z.id, He in Hhi. lia.
Qed.

(** When the serial of the message is in the queue, [Search] returns its
    place. *)
Lemma Search_found (q : pendingEmitter) (m : ProtocolMessage) (k : nat) e :
  sorted q -> queue q !! k = Some e -> MsgSerial (msg e) = MsgSerial m ->
  Search q m = Z.of_nat k.
Proof.
  intros Hs He Heq.
  destruct (Search_sorted q m Hs) as (Hr & Hlo & Hhi).
  destruct (Z.lt_trichotomy (Search q m) (Z.of_nat k)) as [Hlt|[Hlt|Hlt]]; [|done|].
  - exfalso.
    destruct (lookup_lt_is_Some_2 (queue q) (Z.to_nat (Search q m))) as [y Hy].
    { apply lookup_lt_Some in He. lia. }
    pose proof (Hhi _ _ Hy ltac:(lia)).
    pose proof (sorted_lookup_lt _ _ _ _ _ Hs Hy He ltac:(lia)) as Hb.
    unfold before in Hb. lia.
  - exfalso. pose proof (Hlo _ _ He ltac:(lia)). lia.
Qed.

(** *** The monad of sends *)

Lemma sendAll_trace (l : list msgCh) (err : option ErrorInfo) :
  sendAll l err = (map (fun sch => (ch sch, err)) l, Done tt).
Proof.
  induction l as [|sch l IH]; [done|].
  cbn [sendAll]. unfold bind, emit. rewrite IH. reflexivity.
Qed.

Lemma index_Done {A} (l : list A) (i : Z) (x : A) :
  0 <= i -> l !! Z.to_nat i = Some x -> index l i = Done x.
Proof.
  intros Hi Hx. unfold index. destruct (Z.ltb_spec i 0); [lia|]. by rewrite Hx.
Qed.

Lemma int_add_exact (a b : Z) :
  min_int <= a + b <= max_int -> int_add a b = a + b.
Proof.
  unfold int_add, wrap_int, min_int, max_int. intros H.
  rewrite Z.mod_small by lia. lia.
Qed.

Lemma min_le (a b : Z) : min a b <= b /\ min a b <= a.
Proof. unfold min. destruct (Z.ltb_spec a b); lia. Qed.

(** *** Enqueue *)

(** On a sorted queue [Enqueue] returns, sends nothing, and leaves a
    sorted queue. *)
Lemma Enqueue_sorted (q : pendingEmitter) (m : ProtocolMessage) (c : chan) :
  sorted q ->
  exists q', Enqueue q m c = ([], Done q') /\ sorted q'.
Proof.
  intros Hs. destruct (Search_sorted q m Hs) as (Hr & Hlo & Hhi).
  unfold Enqueue. destruct (Z.eqb_spec (Search q m) (Len q)) as [Hend|Hin].
  - eexists. split; [reflexivity|]. unfold sorted. cbn [queue].
    apply StronglySorted_app_2; [|done|by repeat constructor].
    intros x1 x2 Hx1 Hx2. apply list_elem_of_singleton in Hx2 as ->.
    apply list_elem_of_lookup in Hx1 as [k Hk].
    unfold before. cbn. apply (Hlo k); [done|].
    apply lookup_lt_Some in Hk. unfold Len in Hend. lia.
  - destruct (lookup_lt_is_Some_2 (queue q) (Z.to_nat (Search q m))) as [e He].
    { unfold Len in *. lia. }
    rewrite (index_Done _ _ e) by (done || lia).
    unfold bind, lift, ret. cbn [app].
    destruct (Z.eqb_spec (MsgSerial (msg e)) (MsgSerial m)) as [Heq|Hne].
    + by exists q.
    + eexists. split; [reflexivity|]. unfold sorted, insertAt. cbn [queue].
      pose proof (Hhi _ _ He ltac:(lia)) as Hge.
      assert (Hafter : forall x, x ∈ drop (Z.to_nat (Search q m)) (queue q) ->
                                 MsgSerial m < MsgSerial (msg x)).
      { intros x Hx. apply list_elem_of_lookup in Hx as [k Hk].
        rewrite lookup_drop in Hk.
        destruct k as [|k].
        - rewrite Nat.add_0_r, He in Hk. injection Hk as <-. lia.
        - pose proof (sorted_lookup_lt _ _ _ _ _ Hs He Hk ltac:(lia)) as Hb.
          unfold before in Hb. lia. }
      apply StronglySorted_app_2.
      * intros x1 x2 Hx1 Hx2.
        apply list_elem_of_lookup in Hx1 as [k Hk].
        apply lookup_take_Some in Hk as [Hk Hlt].
        pose proof (Hlo _ _ Hk ltac:(lia)) as Hx1.
        apply elem_of_cons in Hx2 as [->|Hx2]; [done|].
        apply Hafter in Hx2. unfold before. lia.
      * by apply sorted_take.
      * constructor; [by apply sorted_drop|].
        apply Forall_forall. intros x Hx. by apply Hafter.
Qed.

(** A message whose serial is in the queue already is dropped. *)
Lemma Enqueue_duplicate (q : pendingEmitter) (m : ProtocolMessage) (c : chan) :
  sorted q -> MsgSerial m ∈ serials q -> Enqueue q m c = ([], Done q).
Proof.
  intros Hs Hin. unfold serials in Hin.
  apply list_elem_of_fmap in Hin as (e & Heq & He).
  apply list_elem_of_lookup in He as [k Hk].
  pose proof (Search_found q m k e Hs Hk (eq_sym Heq)) as Hi.
  unfold Enqueue. rewrite Hi.
  pose proof (lookup_lt_Some _ _ _ Hk) as Hlt.
  destruct (Z.eqb_spec (Z.of_nat k) (Len q)) as [Hend|_].
  { unfold Len in Hend. lia. }
  rewrite (index_Done _ _ e); [|lia|by rewrite Nat2Z.id].
  unfold bind, lift, ret. cbn [app].
  rewrite <- Heq, Z.eqb_refl. reflexivity.
Qed.

(** *** Ack and Nack leave a part of the queue *)

Lemma bind_Done {A B} (m : M A) (k : A -> M B) (t : list send) (b : B) :
  bind m k = (t, Done b) ->
  exists t1 a t2, m = (t1, Done a) /\ k a = (t2, Done b) /\ t = t1 ++ t2.
Proof.
  unfold bind. destruct m as [t1 [a|]]; [|done].
  destruct (k a) as [t2 r] eqn:Hk. intros [= <- ->]. by exists t1, a, t2.
Qed.

Lemma lift_Done {A} (o : outcome A) (t : list send) (a : A) :
  lift o = (t, Done a) -> o = Done a /\ t = [].
Proof. unfold lift. by intros [= -> <-]. Qed.

Lemma Ack_sorted (q q' : pendingEmitter) (m : ProtocolMessage)
    (e : option ErrorInfo) (t : list send) :
  sorted q -> Ack q m e = (t, Done q') -> sorted q'.
Proof.
  intros Hs. unfold Ack. destruct (Len q =? 0).
  { unfold ret. by intros [= _ <-]. }
  intros H. apply bind_Done in H as (t1 & [ack nack] & t2 & _ & H & _).
  apply bind_Done in H as (? & nacked & ? & _ & H & _).
  apply bind_Done in H as (? & ? & ? & _ & H & _).
  apply bind_Done in H as (? & acked & ? & _ & H & _).
  apply bind_Done in H as (? & ? & ? & _ & H & _).
  apply bind_Done in H as (? & rest & ? & Hrest & H & _).
  apply lift_Done in Hrest as [Hrest _].
  unfold ret in H. injection H as Ht Hq. subst q'.
  unfold sorted. cbn [queue]. by eapply sorted_slice.
Qed.

Lemma Nack_sorted (q q' : pendingEmitter) (m : ProtocolMessage)
    (e : option ErrorInfo) (t : list send) :
  sorted q -> Nack q m e = (t, Done q') -> sorted q'.
Proof.
  intros Hs. unfold Nack. destruct (Len q =? 0).
  { unfold ret. by intros [= _ <-]. }
  intros H. apply bind_Done in H as (t1 & nack & t2 & _ & H & _).
  apply bind_Done in H as (? & nacked & ? & _ & H & _).
  apply bind_Done in H as (? & ? & ? & _ & H & _).
  apply bind_Done in H as (? & rest & ? & Hrest & H & _).
  apply lift_Done in Hrest as [Hrest _].
  unfold ret in H. injection H as Ht Hq. subst q'.
  unfold sorted. cbn [queue]. by eapply sorted_slice.
Qed.

(** *** The sends of Ack *)

Lemma bind_ret {A B} (a : A) (k : A -> M B) : bind (ret a) k = k a.
Proof. unfold bind, ret. destruct (k a). reflexivity. Qed.

Lemma bind_lift_Done {A B} (a : A) (k : A -> M B) : bind (lift (Done a)) k = k a.
Proof. apply bind_ret. Qed.

Lemma bind_sendAll {B} (l : list msgCh) (err : option ErrorInfo) (k : unit -> M B) :
  bind (sendAll l err) k
  = (map (fun sch => (ch sch, err)) l ++ fst (k tt), snd (k tt)).
Proof. rewrite sendAll_trace. unfold bind. destruct (k tt). reflexivity. Qed.

(** The range of an ACK whose serial is the serial of the entry at [k]. *)
Lemma ackRange_found (q : pendingEmitter) (m : ProtocolMessage) (k : nat) e :
  sorted q -> queue q !! k = Some e -> MsgSerial (msg e) = MsgSerial m ->
  min_int <= Z.of_nat k + Count m <= max_int ->
  ackRange q m = ([], Done (min (Z.of_nat k + Count m) (Len q), Z.of_nat k)).
Proof.
  intros Hs Hk Heq Hrange. unfold ackRange.
  rewrite (Search_found q m k e Hs Hk Heq).
  pose proof (lookup_lt_Some _ _ _ Hk) as Hlt.
  destruct (Z.eqb_spec (Z.of_nat k) (Len q)) as [Hend|_].
  { unfold Len in Hend. lia. }
  rewrite (index_Done _ _ e); [|lia|by rewrite Nat2Z.id].
  rewrite bind_lift_Done, Heq, Z.eqb_refl, int_add_exact by done.
  reflexivity.
Qed.

(** In every case the entries that [Ack] rejects reach at least to the
    place that [Search] returns. *)
Lemma ackRange_nack (q : pendingEmitter) (m : ProtocolMessage) :
  sorted q -> Len q <= max_int ->
  exists ack nack,
    ackRange q m = ([], Done (ack, nack)) /\ Search q m <= nack <= Len q.
Proof.
  intros Hs Hmax. destruct (Search_sorted q m Hs) as (Hr & _ & _).
  unfold ackRange.
  destruct (Z.eqb_spec (Search q m) (Len q)) as [Hend|Hin].
  - eexists _, _. split; [reflexivity|lia].
  - destruct (lookup_lt_is_Some_2 (queue q) (Z.to_nat (Search q m))) as [e He].
    { unfold Len in *. lia. }
    rewrite (index_Done _ _ e) by (done || lia).
    rewrite bind_lift_Done.
    destruct (MsgSerial (msg e) =? MsgSerial m).
    + eexists _, _. split; [reflexivity|lia].
    + eexists _, _. split; [reflexivity|].
      rewrite int_add_exact by (unfold min_int, max_int in *; lia). lia.
Qed.

Lemma Ack_trace_rejected (q : pendingEmitter) (m : ProtocolMessage)
    (errInfo : option ErrorInfo) :
  sorted q -> Len q <= max_int -> Len q <> 0 ->
  exists nack rest,
    Search q m <= nack <= Len q
    /\ fst (Ack q m errInfo)
       = map (fun sch => (ch sch,
                if isNil (unwrapNil errInfo) && (0 <? nack)
                then Some errSerialSkipped else unwrapNil errInfo))
           (take (Z.to_nat nack) (queue q)) ++ rest.
Proof.
  intros Hs Hmax Hne.
  destruct (ackRange_nack q m Hs Hmax) as (ack & nack & Hrange & Hnack).
  destruct (Search_sorted q m Hs) as (Hr & _ & _).
  unfold Ack. destruct (Z.eqb_spec (Len q) 0) as [|_]; [done|].
  rewrite Hrange. unfold bind at 1. cbn [app].
  rewrite slice_Done by (unfold Len in *; lia).
  rewrite bind_lift_Done, bind_sendAll. cbn [fst].
  rewrite drop_0, Z.sub_0_r. eauto.
Qed.

Lemma Ack_found (q : pendingEmitter) (m : ProtocolMessage)
    (errInfo : option ErrorInfo) (k : nat) e :
  sorted q -> queue q !! k = Some e -> MsgSerial (msg e) = MsgSerial m ->
  0 <= Count m -> Len q + Count m <= max_int ->
  Ack q m errInfo
  = (map (fun sch => (ch sch,
            if isNil (unwrapNil errInfo) && (0 <? Z.of_nat k)
            then Some errSerialSkipped else unwrapNil errInfo))
       (take k (queue q))
     ++ map (fun sch => (ch sch, None))
          (take (Z.to_nat (min (Z.of_nat k + Count m) (Len q)) - k) (drop k (queue q))),
     Done {| queue := drop (Z.to_nat (min (Z.of_nat k + Count m) (Len q))) (queue q) |}).
Proof.
  intros Hs Hk Heq Hcount Hmax.
  pose proof (lookup_lt_Some _ _ _ Hk) as Hlt.
  pose proof (min_le (Z.of_nat k + Count m) (Len q)) as [Hm1 Hm2].
  assert (Hm3 : Z.of_nat k <= min (Z.of_nat k + Count m) (Len q)).
  { unfold min, Len. destruct (Z.ltb_spec (Z.of_nat k + Count m) (Z.of_nat (length (queue q)))); lia. }
  unfold Ack. destruct (Z.eqb_spec (Len q) 0) as [Hz|_].
  { unfold Len in Hz. lia. }
  rewrite (ackRange_found q m k e Hs Hk Heq)
    by (unfold min_int, max_int, Len in *; lia).
  unfold bind at 1. cbn [app].
  rewrite slice_Done by (unfold Len in *; lia).
  rewrite bind_lift_Done, bind_sendAll.
  rewrite slice_Done by (unfold Len in *; lia).
  rewrite bind_lift_Done, bind_sendAll.
  unfold Len in *. rewrite slice_to_end by lia.
  rewrite bind_lift_Done. unfold ret. cbn [fst snd].
  rewrite drop_0, Z.sub_0_r, Nat2Z.id, app_nil_r.
  rewrite Z2Nat.inj_sub, Nat2Z.id by lia.
  done.
Qed.

Lemma reachable_sorted (q : pendingEmitter) : reachable q -> sorted q.
Proof.
  induction 1 as [|q m c t q' _ IH Hq|q m e t q' _ IH Hq|q m e t q' _ IH Hq].
  - constructor.
  - destruct (Enqueue_sorted q m c IH) as (q'' & Heq & Hs).
    rewrite Heq in Hq. by injection Hq as _ <-.
  - by eapply Ack_sorted.
  - by eapply Nack_sorted.
Qed.

Lemma sorted_serials (q : pendingEmitter) :
  sorted q -> StronglySorted Z.lt (serials q).
Proof.
  unfold sorted, serials. induction 1 as [|x l Hs IH Hall]; [constructor|].
  cbn. constructor; [done|].
  apply Forall_fmap. by eapply Forall_impl.
Qed.

Lemma sorted_NoDup (l : list Z) : StronglySorted Z.lt l -> NoDup l.
Proof.
  induction 1 as [|x l Hs IH Hall]; constructor; [|done].
  intros Hin. rewrite Forall_forall in Hall. specialize (Hall x Hin). lia.
Qed.

(** C4: every queue that Enqueue, Ack and Nack produce from the empty queue
    holds its entries in strictly increasing order of msgSerial, hence at
    most one entry for a serial; and Enqueue of a message whose msgSerial
    is in the queue already sends nothing and returns the queue as it
    was. *)
Theorem queue_strictly_increasing (q : pendingEmitter) :
  reachable q ->
  StronglySorted Z.lt (serials q)
  /\ NoDup (serials q)
  /\ forall m c, MsgSerial m ∈ serials q -> Enqueue q m c = ([], Done q).
Proof.
  intros Hr. pose proof (reachable_sorted q Hr) as Hs.
  split; [by apply sorted_serials|].
  split; [by apply sorted_NoDup, sorted_serials|].
  intros m c Hin. by apply Enqueue_duplicate.
Qed.

(** C2, as the code has it: for a queue in strictly increasing order and an
    ACK whose serial s is the serial of a queued entry and whose count n is
    positive and so small that the length of the queue plus n is an int
    (at most the largest int, so that the index of the entry plus n does
    not wrap around), Ack returns, and every queued entry with a serial in
    [s, s+n) is completed with nil, whether the ACK carries an error or
    not. *)
Theorem Ack_completes_range (q : pendingEmitter) (m : ProtocolMessage)
    (errInfo : option ErrorInfo) :
  sorted q ->
  MsgSerial m ∈ serials q ->
  0 < Count m ->
  Len q + Count m <= max_int ->
  exists t q',
    Ack q m errInfo = (t, Done q')
    /\ forall e, e ∈ queue q ->
         MsgSerial m <= MsgSerial (msg e) < MsgSerial m + Count m ->
         (ch e, None) ∈ t.
Proof.
  intros Hs Hin Hcount Hmax. unfold serials in Hin.
  apply list_elem_of_fmap in Hin as (e0 & Heq & He0).
  apply list_elem_of_lookup in He0 as [k Hk].
  rewrite (Ack_found q m errInfo k e0 Hs Hk (eq_sym Heq)) by lia.
  eexists _, _. split; [reflexivity|].
  intros e He [Hlo Hhi].
  apply list_elem_of_lookup in He as [j Hj].
  assert (Hkj : (k <= j)%nat).
  { destruct (le_lt_dec k j) as [|Hlt]; [done|].
    pose proof (sorted_lookup_lt _ _ _ _ _ Hs Hj Hk Hlt) as Hb.
    unfold before in Hb. lia. }
  pose proof (sorted_lookup_gap (queue q) k (j - k) e0 e Hs Hk) as Hgap.
  replace (k + (j - k))%nat with j in Hgap by lia. specialize (Hgap Hj).
  pose proof (lookup_lt_Some _ _ _ Hj) as Hjlen.
  apply elem_of_app. right. apply list_elem_of_fmap.
  exists e. split; [done|].
  apply list_elem_of_lookup. exists (j - k)%nat.
  rewrite lookup_take_lt, lookup_drop.
  - by replace (k + (j - k))%nat with j by lia.
  - unfold min, Len. destruct (Z.ltb_spec (Z.of_nat k + Count m) (Z.of_nat (length (queue q)))); lia.
Qed.

(** C3, as the code has it: for a queue in strictly increasing order and an
    ACK with serial s, every queued entry with a msgSerial below s is
    completed with an error: the "serial skipped" error when the ACK
    carries none, the error of the ACK when it carries one.  The sends are
    made whether or not the call goes on to return. *)
Theorem Ack_rejects_skipped (q : pendingEmitter) (m : ProtocolMessage)
    (errInfo : option ErrorInfo) :
  sorted q ->
  Len q <= max_int ->
  forall e, e ∈ queue q ->
    MsgSerial (msg e) < MsgSerial m ->
    (ch e, Some (skipError errInfo)) ∈ fst (Ack q m errInfo).
Proof.
  intros Hs Hmax e He Hlt.
  apply list_elem_of_lookup in He as [j Hj].
  pose proof (lookup_lt_Some _ _ _ Hj) as Hjlen.
  destruct (Ack_trace_rejected q m errInfo Hs Hmax) as (nack & rest & Hnack & ->).
  { unfold Len. lia. }
  destruct (Search_sorted q m Hs) as (_ & _ & Hhi).
  assert (Hj' : Z.of_nat j < Search q m).
  { destruct (Z.lt_ge_cases (Z.of_nat j) (Search q m)) as [|Hge]; [done|].
    specialize (Hhi _ _ Hj Hge). lia. }
  apply elem_of_app. left. apply list_elem_of_fmap.
  exists e. split.
  - f_equal. destruct (Z.ltb_spec 0 nack); [|lia].
    unfold skipError. by destruct (unwrapNil errInfo).
  - apply list_elem_of_lookup. exists j. rewrite lookup_take_lt; [done|lia].
Qed.

Lemma queue012_sorted : sorted queue012.
Proof. repeat constructor; unfold before; cbn; lia. Qed.

Lemma queue01_sorted : sorted queue01.
Proof. repeat constructor; unfold before; cbn; lia. Qed.

(** Enqueue out of order, then an ACK of the first serial. *)
Lemma queue_strictly_increasing_witness :
  StronglySorted Z.lt (serials {| queue := [entry 1 11; entry 2 12] |})
  /\ NoDup (serials {| queue := [entry 1 11; entry 2 12] |})
  /\ forall m c,
       MsgSerial m ∈ serials {| queue := [entry 1 11; entry 2 12] |} ->
       Enqueue {| queue := [entry 1 11; entry 2 12] |} m c
       = ([], Done {| queue := [entry 1 11; entry 2 12] |}).
Proof.
  apply (queue_strictly_increasing {| queue := [entry 1 11; entry 2 12] |}).
  apply (reach_Ack queue012 (frame 0 1) None [(10%nat, None)]);
    [|vm_compute; reflexivity].
  apply (reach_Enqueue {| queue := [entry 0 10; entry 2 12] |} (frame 1 0) 11%nat []);
    [|vm_compute; reflexivity].
  apply (reach_Enqueue {| queue := [entry 2 12] |} (frame 0 0) 10%nat []);
    [|vm_compute; reflexivity].
  apply (reach_Enqueue newPendingEmitter (frame 2 0) 12%nat []);
    [|vm_compute; reflexivity].
  apply reach_new.
Defined.

Lemma Ack_completes_range_witness :
  exists t q',
    Ack queue012 (frame 0 2) (Some errRejected) = (t, Done q')
    /\ forall e, e ∈ queue queue012 ->
         0 <= MsgSerial (msg e) < 0 + 2 -> (ch e, None) ∈ t.
Proof.
  apply (Ack_completes_range queue012 (frame 0 2) (Some errRejected)).
  - repeat constructor; unfold before; cbn; lia.
  - vm_compute. apply list_elem_of_here.
  - reflexivity.
  - vm_compute. discriminate.
Defined.

Lemma Ack_rejects_skipped_witness :
  (ch (entry 0 10), Some errSerialSkipped) ∈ fst (Ack queue012 (frame 2 1) None)
  /\ (ch (entry 1 11), Some errSerialSkipped) ∈ fst (Ack queue012 (frame 2 1) None).
Proof.
  split.
  - apply (Ack_rejects_skipped queue012 (frame 2 1) None).
    + repeat constructor; unfold before; cbn; lia.
    + vm_compute. discriminate.
    + apply list_elem_of_here.
    + reflexivity.
  - apply (Ack_rejects_skipped queue012 (frame 2 1) None).
    + repeat constructor; unfold before; cbn; lia.
    + vm_compute. discriminate.
    + apply list_elem_of_further, list_elem_of_here.
    + reflexivity.
Defined.

(** C2 as stated fails: an ACK that carries an error still completes the
    entries of its range with nil, not with that error. *)
Lemma Ack_error_not_forwarded :
  Ack queue01 (frame 0 1) (Some errRejected)
  = ([(10%nat, None)], Done {| queue := [entry 1 11] |})
  /\ ~ (forall e, e ∈ queue queue01 ->
          0 <= MsgSerial (msg e) < 0 + 1 ->
          (ch e, Some errRejected) ∈ fst (Ack queue01 (frame 0 1) (Some errRejected))).
Proof.
  split; [vm_compute; reflexivity|].
  intros H. specialize (H (entry 0 10) (list_elem_of_here _ _)).
  assert (Hin : (ch (entry 0 10), Some errRejected)
                  ∈ [(10%nat, @None ErrorInfo)]).
  { apply H. cbn. lia. }
  apply list_elem_of_singleton in Hin. discriminate Hin.
Qed.

(** C3 as stated fails: when the ACK carries an error, the entries below
    its serial are completed with that error, not with the "serial
    skipped" error. *)
Lemma Ack_error_replaces_skipped :
  Ack queue01 (frame 1 1) (Some errRejected)
  = ([(10%nat, Some errRejected); (11%nat, None)], Done {| queue := [] |})
  /\ ~ (forall e, e ∈ queue queue01 ->
          MsgSerial (msg e) < 1 ->
          (ch e, Some errSerialSkipped) ∈ fst (Ack queue01 (frame 1 1) (Some errRejected))).
Proof.
  split; [vm_compute; reflexivity|].
  intros H. specialize (H (entry 0 10) (list_elem_of_here _ _)).
  assert (Hin : (ch (entry 0 10), Some errSerialSkipped)
                  ∈ [(10%nat, Some errRejected); (11%nat, @None ErrorInfo)]).
  { apply H. cbn. lia. }
  apply elem_of_cons in Hin as [Hin|Hin]; [discriminate Hin|].
  apply list_elem_of_singleton in Hin. discriminate Hin.
Qed.

(** An ACK whose serial is above every queued serial: the entries are
    rejected, and then the slice [q.queue[nack:ack]] with [nack = len] and
    [ack = 0] panics. *)
Example Ack_beyond_queue_panics :
  Ack queue01 (frame 5 1) None
  = ([(10%nat, Some errSerialSkipped); (11%nat, Some errSerialSkipped)], Panic).
Proof. vm_compute. reflexivity. Qed.

End pending_facts.

(** ** Splitting and joining a chain of tokens *)

Module strings_facts.
Import strings.

Lemma Split_nonempty (s : string) (sep : ascii) : Split s sep <> [].
Proof.
  destruct s as [|c r]; cbn [Split]; [done|].
  destruct (Ascii.eqb c sep); [done|]. by destruct (Split r sep).
Qed.

Lemma Split_cons (c : ascii) (r : string) (sep : ascii) :
  Ascii.eqb c sep = false ->
  exists t ts, Split r sep = t :: ts /\ Split (String c r) sep = String c t :: ts.
Proof.
  intros Hc. cbn [Split]. rewrite Hc.
  destruct (Split r sep) as [|t ts] eqn:Hr; [by apply Split_nonempty in Hr|].
  by exists t, ts.
Qed.

(** A separator between two strings separates their pieces. *)
Lemma Split_app (a b : string) (sep : ascii) :
  Split (a ++ String sep b) sep = (Split a sep ++ Split b sep)%list.
Proof.
  induction a as [|c a IH].
  - change (EmptyString ++ String sep b) with (String sep b).
    cbn [Split app]. by rewrite Ascii.eqb_refl.
  - change (String c a ++ String sep b) with (String c (a ++ String sep b)).
    cbn [Split app].
    destruct (Ascii.eqb c sep); [by rewrite IH|].
    rewrite IH. destruct (Split a sep) as [|t ts] eqn:Ha; [|done].
    by apply Split_nonempty in Ha.
Qed.

(** Joining the pieces with the separator gives the string back. *)
Lemma Join_Split (s : string) (sep : ascii) :
  Join (Split s sep) (String sep EmptyString) = s.
Proof.
  induction s as [|c r IH]; [done|].
  cbn [Split]. destruct (Ascii.eqb_spec c sep) as [->|Hne].
  - cbn [Join]. destruct (Split r sep) as [|t ts] eqn:Hr.
    + by apply Split_nonempty in Hr.
    + cbn in IH |- *. by rewrite IH.
  - destruct (Split r sep) as [|t ts] eqn:Hr.
    + by apply Split_nonempty in Hr.
    + cbn [Join] in IH |- *. destruct ts; cbn; by rewrite <- IH.
Qed.

Lemma append_assoc (a b c : string) : (a ++ b) ++ c = a ++ b ++ c.
Proof.
  induction a as [|x a IH]; [done|].
  change ((String x a ++ b) ++ c) with (String x ((a ++ b) ++ c)).
  by rewrite IH.
Qed.

Lemma Join_snoc (l : list string) (t sep : string) :
  l <> [] -> Join (l ++ [t]) sep = Join l sep ++ sep ++ t.
Proof.
  induction l as [|a l IH]; [done|]. intros _.
  destruct l as [|b l]; [done|].
  change (Join ((a :: b :: l) ++ [t]) sep)
    with (a ++ sep ++ Join ((b :: l) ++ [t]) sep).
  rewrite IH by done.
  change (Join (a :: b :: l) sep) with (a ++ sep ++ Join (b :: l) sep).
  by rewrite !append_assoc.
Qed.

Lemma HasPrefix_not_eq (s pre t : string) :
  HasPrefix s pre = true -> HasPrefix t pre = false -> String.eqb s t = false.
Proof.
  intros Hs Ht. destruct (String.eqb_spec s t) as [->|]; [|done]. congruence.
Qed.

End strings_facts.

(** ** The message codec *)

Module codec_facts.
Import codec strings_facts.

Lemma Join_chain_nonempty (toks : list string) :
  toks <> [] -> chain toks -> strings.Join toks "/" <> EmptyString.
Proof.
  destruct toks as [|t toks]; [done|]. intros _ Ht. cbn in Ht.
  destruct t as [|c t]; [done|]. by destruct toks.
Qed.

Lemma mergeEncoding_chain (toks : list string) (t : string) :
  chain toks ->
  mergeEncoding (strings.Join toks "/") t = strings.Join (toks ++ [t]) "/".
Proof.
  intros Hc. unfold mergeEncoding. destruct toks as [|a toks]; [done|].
  pose proof (Join_chain_nonempty (a :: toks) ltac:(done) Hc) as Hne.
  destruct (String.eqb_spec (strings.Join (a :: toks) "/") EmptyString); [done|].
  by rewrite Join_snoc.
Qed.

Lemma chain_app (toks more : list string) :
  chain toks -> (toks = [] -> chain more) -> chain (toks ++ more).
Proof. destruct toks; cbn; auto. Qed.

Lemma Split_Join (toks : list string) :
  toks <> [] -> Forall oneToken toks ->
  strings.Split (strings.Join toks "/") "/"%char = toks.
Proof.
  induction toks as [|t toks IH]; [done|]. intros _ Hall.
  apply Forall_cons in Hall as [Ht Hall].
  destruct toks as [|u toks]; [done|].
  change (strings.Join (t :: u :: toks) "/")
    with (t ++ String "/"%char (strings.Join (u :: toks) "/")).
  rewrite Split_app, Ht, IH by done. reflexivity.
Qed.

Section Facts.
Variable V : Type.
Variable json_Marshal : value V -> result error (list byte).
Variable json_Unmarshal : list byte -> result error (value V).

Implicit Types (m : Message V) (d : value V) (cipher : option channelCipher).

(** *** Record updates *)

Lemma setData_same m : setData m (Data m) = m.
Proof. by destruct m. Qed.

Lemma setEncoding_same m : setEncoding m (Encoding m) = m.
Proof. by destruct m. Qed.

Lemma setData_setData m d d' : setData (setData m d) d' = setData m d'.
Proof. done. Qed.

Lemma setEncoding_setEncoding m (e e' : string) :
  setEncoding (setEncoding m e) e' = setEncoding m e'.
Proof. done. Qed.

Lemma setData_setEncoding m d (e : string) :
  setData (setEncoding m e) d = setEncoding (setData m d) e.
Proof. done. Qed.

(** *** One token *)

Lemma decodeToken_base64 cipher d (s : string) (b : list byte) :
  coerceString d = Ok s -> base64.DecodeString s = Ok b ->
  decodeToken json_Unmarshal cipher encBase64 d = Ok (VBytes b).
Proof. intros Hs Hb. unfold decodeToken. cbn. by rewrite Hs, Hb. Qed.

Lemma decodeToken_utf8 cipher d (s : string) :
  coerceString d = Ok s ->
  decodeToken json_Unmarshal cipher encUTF8 d = Ok (VString s).
Proof. intros Hs. unfold decodeToken. cbn. by rewrite Hs. Qed.

Lemma decodeToken_json cipher d (b : list byte) d' :
  coerceBytes d = Ok b -> json_Unmarshal b = Ok d' ->
  decodeToken json_Unmarshal cipher encJSON d = Ok d'.
Proof. intros Hb Hd. unfold decodeToken. cbn. by rewrite Hb, Hd. Qed.

Lemma decodeToken_cipher (c : channelCipher) d (e bs : list byte) :
  strings.HasPrefix (GetAlgorithm c) encCipher = true ->
  coerceBytes d = Ok e -> Decrypt c e = Ok bs ->
  decodeToken json_Unmarshal (Some c) (GetAlgorithm c) d = Ok (VBytes bs).
Proof.
  intros Hp He Hd. unfold decodeToken.
  rewrite (HasPrefix_not_eq _ encCipher encBase64 Hp eq_refl).
  rewrite (HasPrefix_not_eq _ encCipher encUTF8 Hp eq_refl).
  rewrite (HasPrefix_not_eq _ encCipher encJSON Hp eq_refl).
  by rewrite Hp, He, Hd.
Qed.

Lemma decodeToken_unknown cipher d (t : string) :
  isKnown t = false ->
  decodeToken json_Unmarshal cipher t d = Err (errUnknownEncoding t).
Proof.
  unfold isKnown, decodeToken. intros H.
  apply orb_false_elim in H as [H H4].
  apply orb_false_elim in H as [H H3].
  apply orb_false_elim in H as [H1 H2].
  by rewrite H1, H2, H3, H4.
Qed.

(** *** The loop *)

Lemma decodeTokens_app cipher (r1 r2 : list string) d d1 :
  decodeTokens json_Unmarshal cipher r1 d = Ok d1 ->
  decodeTokens json_Unmarshal cipher (r1 ++ r2) d
  = decodeTokens json_Unmarshal cipher r2 d1.
Proof.
  revert d. induction r1 as [|t r1 IH]; intros d; cbn.
  - by intros [= ->].
  - destruct (decodeToken json_Unmarshal cipher t d); [apply IH|done].
Qed.

(** As long as the tokens decode, the loop goes on; after the first
    token the encoding of the message is the chain that remains. *)
Lemma decodeLoop_app cipher (r rest : list string) m d' :
  decodeTokens json_Unmarshal cipher r (Data m) = Ok d' ->
  decodeLoop json_Unmarshal cipher (r ++ rest) m
  = decodeLoop json_Unmarshal cipher rest
      (match r with
       | [] => m
       | _ => setEncoding (setData m d') (strings.Join (rev rest) "/")
       end).
Proof.
  revert m. induction r as [|t r IH]; intros m; cbn [decodeTokens].
  - done.
  - cbn [app decodeLoop].
    destruct (decodeToken json_Unmarshal cipher t (Data m)) as [d1|] eqn:Ht; [|done].
    intros Hr.
    rewrite (IH (setEncoding (setData m d1) (strings.Join (rev (r ++ rest)) "/")) Hr).
    destruct r as [|u r]; [|done].
    cbn in Hr. injection Hr as <-. reflexivity.
Qed.

Lemma withDecodedData_chain cipher m (toks : list string) :
  Data m <> VNil -> toks <> [] -> chain toks -> Forall oneToken toks ->
  Encoding m = strings.Join toks "/" ->
  withDecodedData json_Unmarshal m cipher
  = decodeLoop json_Unmarshal cipher (rev toks) m.
Proof.
  intros Hd Hne Hc Hall He. unfold withDecodedData.
  destruct (Data m); [done|..];
    (destruct (String.eqb_spec (Encoding m) EmptyString) as [He0|_];
     [rewrite He in He0; by apply Join_chain_nonempty in He0
     |by rewrite He, Split_Join]).
Qed.

(** When every token decodes, the message comes back with the payload
    that the tokens give and with an empty encoding. *)
Lemma withDecodedData_all cipher m (toks : list string) d' :
  Data m <> VNil -> toks <> [] -> chain toks -> Forall oneToken toks ->
  Encoding m = strings.Join toks "/" ->
  decodeTokens json_Unmarshal cipher (rev toks) (Data m) = Ok d' ->
  withDecodedData json_Unmarshal m cipher
  = (setEncoding (setData m d') EmptyString, None).
Proof.
  intros Hd Hne Hc Hall He Ht.
  rewrite (withDecodedData_chain cipher m toks) by done.
  rewrite <- (app_nil_r (rev toks)), (decodeLoop_app _ _ _ _ _ Ht).
  destruct (rev toks) eqn:Hrev; [|done].
  apply (f_equal (@rev string)) in Hrev. rewrite rev_involutive in Hrev. done.
Qed.

(** *** Encoding, stage by stage *)

Lemma oneToken_base64 : oneToken encBase64.
Proof. reflexivity. Qed.

Lemma oneToken_utf8 : oneToken encUTF8.
Proof. reflexivity. Qed.

Lemma oneToken_json : oneToken encJSON.
Proof. reflexivity. Qed.

(** The first stage leaves a string and a chain of at most one token,
    which takes that string back to the payload. *)
Lemma encodePayload_spec m :
  Encoding m = EmptyString ->
  encodable json_Marshal json_Unmarshal (Data m) ->
  exists (s1 : string) (toks1 : list string),
    encodePayload json_Marshal m
    = Ok (setEncoding (setData m (VString s1)) (strings.Join toks1 "/"))
    /\ chain toks1 /\ Forall oneToken toks1
    /\ (toks1 = [] -> utf8.ValidString s1 = true)
    /\ forall cipher d,
         d = VString s1
         \/ (toks1 <> [] /\ d = VBytes (String.list_byte_of_string s1)) ->
         decodeTokens json_Unmarshal cipher (rev toks1) d = Ok (decoded (Data m)).
Proof.
  destruct m as [i ci co n d e t x]. cbn [Data Encoding].
  intros -> Henc. unfold encodePayload. cbn [Data].
  destruct d as [|s|b|v]; [done|..].
  - destruct (utf8.ValidString s) eqn:Hv; cbn [negb Data decoded].
    + exists s, []. rewrite Hv.
      split; [done|]. split; [done|]. split; [constructor|]. split; [done|].
      intros cipher d [->|[? _]]; done.
    + exists (base64.EncodeToString (String.list_byte_of_string s)), [encBase64].
      rewrite Hv.
      split; [done|]. split; [done|].
      split; [repeat constructor; apply oneToken_base64|]. split; [done|].
      intros cipher d Hd. cbn [rev app decodeTokens].
      rewrite (decodeToken_base64 cipher d
                 (base64.EncodeToString (String.list_byte_of_string s))
                 (String.list_byte_of_string s)).
      * done.
      * destruct Hd as [->|[_ ->]]; cbn; [done|].
        by rewrite String.string_of_list_byte_of_string.
      * apply base64_facts.DecodeString_EncodeToString.
  - exists (base64.EncodeToString b), [encBase64].
    split; [done|]. split; [done|].
    split; [repeat constructor; apply oneToken_base64|]. split; [done|].
    intros cipher d Hd. cbn [rev app decodeTokens decoded].
    rewrite (decodeToken_base64 cipher d (base64.EncodeToString b) b).
    + done.
    + destruct Hd as [->|[_ ->]]; cbn; [done|].
      by rewrite String.string_of_list_byte_of_string.
    + apply base64_facts.DecodeString_EncodeToString.
  - destruct Henc as (b & Hm & Htok & Hu). cbn [Data]. rewrite Hm.
    exists (String.string_of_list_byte b), [encJSON]. split.
    { by destruct Htok as [-> | ->]. }
    split; [done|].
    split; [repeat constructor; apply oneToken_json|]. split; [done|].
    intros cipher d Hd. cbn [rev app decodeTokens decoded].
    rewrite (decodeToken_json cipher d b (VOther v)); [done| |done].
    destruct Hd as [->|[_ ->]]; cbn;
      by rewrite String.list_byte_of_string_of_list_byte.
Qed.

Lemma encryptPayload_spec m (c : channelCipher) (s1 : string) (toks1 : list string) :
  validCipher c ->
  Data m = VString s1 -> Encoding m = strings.Join toks1 "/" -> chain toks1 ->
  exists e,
    Decrypt c e = Ok (String.list_byte_of_string s1)
    /\ encryptPayload m c
       = Done (setEncoding (setData m (VString (base64.EncodeToString e)))
                 (strings.Join (toks1 ++ cipherTokens c s1) "/"), None).
Proof.
  intros (Hp & Hone & Hinv) Hd He Hc.
  destruct m as [i ci co n d en t x]. cbn [Data Encoding] in Hd, He. subst d en.
  destruct (Hinv (String.list_byte_of_string s1)) as (e & Henc & Hdec).
  exists e. split; [done|].
  unfold encryptPayload, cipherTokens. cbn [Data coerceBytes]. rewrite Henc.
  assert (Halg : GetAlgorithm c <> EmptyString).
  { intros H0. rewrite H0 in Hp. done. }
  destruct (utf8.ValidString s1); cbn [setEncoding setData Data Encoding
    ID ClientID ConnectionID Name Timestamp Extras].
  - rewrite (mergeEncoding_chain toks1) by done.
    rewrite (mergeEncoding_chain (toks1 ++ [encUTF8]))
      by (apply chain_app; done).
    rewrite (mergeEncoding_chain ((toks1 ++ [encUTF8]) ++ [GetAlgorithm c]))
      by (apply chain_app; [apply chain_app|]; done).
    by rewrite <- !app_assoc.
  - rewrite (mergeEncoding_chain toks1) by done.
    rewrite (mergeEncoding_chain (toks1 ++ [GetAlgorithm c]))
      by (apply chain_app; done).
    by rewrite <- !app_assoc.
Qed.

Lemma decodeTokens_cipher (c : channelCipher) (s1 : string) (e : list byte) :
  strings.HasPrefix (GetAlgorithm c) encCipher = true ->
  Decrypt c e = Ok (String.list_byte_of_string s1) ->
  decodeTokens json_Unmarshal (Some c) (rev (cipherTokens c s1))
    (VString (base64.EncodeToString e))
  = Ok (if utf8.ValidString s1 then VString s1
        else VBytes (String.list_byte_of_string s1)).
Proof.
  intros Hp Hdec. unfold cipherTokens.
  destruct (utf8.ValidString s1); cbn [rev app decodeTokens];
    rewrite (decodeToken_base64 (Some c) (VString (base64.EncodeToString e))
               (base64.EncodeToString e) e eq_refl
               (base64_facts.DecodeString_EncodeToString e));
    rewrite (decodeToken_cipher c (VBytes e) e _ Hp eq_refl Hdec); [|done].
  rewrite (decodeToken_utf8 _ _ s1); [done|].
  cbn. by rewrite String.string_of_list_byte_of_string.
Qed.

Lemma chain_cipherTokens (c : channelCipher) (s1 : string) :
  validCipher c ->
  chain (cipherTokens c s1) /\ Forall oneToken (cipherTokens c s1)
  /\ cipherTokens c s1 <> [].
Proof.
  intros (Hp & Hone & _). unfold cipherTokens.
  assert (Halg : GetAlgorithm c <> EmptyString).
  { intros H0. rewrite H0 in Hp. done. }
  destruct (utf8.ValidString s1); cbn [app chain];
    repeat split; try done;
    repeat constructor; first [apply oneToken_utf8|apply oneToken_base64|done].
Qed.

(** C1, as the code has it: for every message with an empty encoding
    whose data is a string, a byte string, or a value whose JSON text is
    an object or an array that json.Unmarshal gives back, and for every
    valid cipher including none, withEncodedData succeeds and
    withDecodedData with the same cipher takes its result back to the
    message, with the original data; only a string that is not valid
    UTF-8 comes back as the byte string of the same bytes. *)
Theorem decode_encode m cipher :
  Encoding m = EmptyString ->
  encodable json_Marshal json_Unmarshal (Data m) ->
  (forall c, cipher = Some c -> validCipher c) ->
  exists m',
    withEncodedData json_Marshal m cipher = Done (m', None)
    /\ withDecodedData json_Unmarshal m' cipher
       = (setData m (decoded (Data m)), None).
Proof.
  intros He Henc Hcipher.
  destruct (encodePayload_spec m He Henc)
    as (s1 & toks1 & Hpay & Hc1 & Hone1 & Hvalid & Hback).
  assert (Hnil : withEncodedData json_Marshal m cipher
                 = match cipher with
                   | None => Done (setEncoding (setData m (VString s1))
                                     (strings.Join toks1 "/"), None)
                   | Some c => encryptPayload
                                 (setEncoding (setData m (VString s1))
                                    (strings.Join toks1 "/")) c
                   end).
  { unfold withEncodedData. rewrite Hpay. by destruct (Data m). }
  rewrite Hnil. clear Hnil Hpay.
  assert (Hfinal : forall d',
    setEncoding (setData m d') EmptyString = setData m d').
  { intros d'. destruct m. cbn in He. by subst. }
  destruct cipher as [c|].
  - specialize (Hcipher c eq_refl).
    destruct (encryptPayload_spec
                (setEncoding (setData m (VString s1)) (strings.Join toks1 "/"))
                c s1 toks1 Hcipher eq_refl eq_refl Hc1) as (e & Hdec & ->).
    eexists. split; [reflexivity|].
    destruct (chain_cipherTokens c s1 Hcipher) as (Hc2 & Hone2 & Hne2).
    rewrite (withDecodedData_all _ _ (toks1 ++ cipherTokens c s1)
               (decoded (Data m)));
      [exact (f_equal (fun x => (x, None)) (Hfinal (decoded (Data m))))|done|..].
    + by destruct toks1.
    + apply chain_app; done.
    + by apply Forall_app.
    + done.
    + rewrite rev_app_distr.
      rewrite (decodeTokens_app _ _ _ _ _
                 (decodeTokens_cipher c s1 e (proj1 Hcipher) Hdec)).
      apply Hback. destruct (utf8.ValidString s1) eqn:Hv; [by left|].
      right. split; [|done]. intros ->. by specialize (Hvalid eq_refl).
  - eexists. split; [reflexivity|].
    destruct toks1 as [|t toks1].
    + unfold withDecodedData. cbn.
      specialize (Hback None (VString s1) (or_introl eq_refl)).
      cbn in Hback. injection Hback as <-.
      exact (f_equal (fun x => (x, None)) (Hfinal (VString s1))).
    + rewrite (withDecodedData_all _ _ (t :: toks1) (decoded (Data m)));
        [exact (f_equal (fun x => (x, None)) (Hfinal (decoded (Data m))))|done..| ].
      apply Hback. by left.
Qed.

(** *** Encoding without a cipher *)

Lemma firstToken_compact (b : list byte) :
  compact b ->
  negb (json.Token_eqb (json.firstToken b) (json.Delim "["%char))
  && negb (json.Token_eqb (json.firstToken b) (json.Delim "{"%char))
  = negb (beginsCompound b).
Proof.
  destruct b as [|c r]; [done|]. cbn [compact json.firstToken beginsCompound].
  intros ->.
  destruct (Ascii.eqb_spec (ascii_of_byte c) "["%char) as [->|H1]; [done|].
  destruct (Ascii.eqb_spec (ascii_of_byte c) "{"%char) as [->|H2]; [done|].
  done.
Qed.

(** C5, as the code has it: without a cipher, withEncodedData returns a
    string that is valid UTF-8 as it is, with no token appended; it
    replaces a string that is not valid UTF-8, and a byte string, by the
    base64 text of its bytes and appends "base64"; any other value it
    marshals to JSON, and when the marshalled text begins with a bracket
    or a brace it returns that text and appends "json", and when it does
    not, or json.Marshal fails, it returns an encoding error and the
    zero message. *)
Theorem withEncodedData_no_cipher m :
  (forall s, Data m = VString s -> utf8.ValidString s = true ->
     withEncodedData json_Marshal m None = Done (m, None))
  /\ (forall s, Data m = VString s -> utf8.ValidString s = false ->
        withEncodedData json_Marshal m None
        = Done (setEncoding
                  (setData m (VString (base64.EncodeToString
                                         (String.list_byte_of_string s))))
                  (mergeEncoding (Encoding m) encBase64), None))
  /\ (forall b, Data m = VBytes b ->
        withEncodedData json_Marshal m None
        = Done (setEncoding (setData m (VString (base64.EncodeToString b)))
                  (mergeEncoding (Encoding m) encBase64), None))
  /\ (forall v b, Data m = VOther v ->
        json_Marshal (VOther v) = Ok b -> compact b ->
        withEncodedData json_Marshal m None
        = if beginsCompound b
          then Done (setEncoding
                       (setData m (VString (String.string_of_list_byte b)))
                       (mergeEncoding (Encoding m) encJSON), None)
          else Done (zeroMessage, Some errEncodedAsJSON))
  /\ (forall v err, Data m = VOther v ->
        json_Marshal (VOther v) = Err err ->
        withEncodedData json_Marshal m None
        = Done (zeroMessage, Some (errEncodingJSON err))).
Proof.
  destruct m as [i ci co n d e t x].
  unfold withEncodedData, encodePayload. cbn [Data Encoding].
  split; [|split; [|split; [|split]]].
  - intros s -> Hv. cbn [Data]. by rewrite Hv.
  - intros s -> Hv. cbn [Data]. by rewrite Hv.
  - by intros b ->.
  - intros v b -> Hm Hc. cbn [Data]. rewrite Hm, (firstToken_compact b Hc).
    by destruct (beginsCompound b).
  - intros v err -> Hm. cbn [Data]. by rewrite Hm.
Qed.

(** *** Decoding a chain with an unknown token *)

(** C6, as the code has it: for a message with data and an encoding whose
    chain has a token that withDecodedData does not know, the tokens to
    its right all decoding, withDecodedData returns the error for that
    token together with the message as decoded so far: its data is what
    the tokens to the right give, and its encoding is the chain up to
    and with the unknown token. *)
Theorem withDecodedData_unknown m cipher (pre suf : list string)
    (unk : string) d' :
  Data m <> VNil ->
  Encoding m <> EmptyString ->
  strings.Split (Encoding m) "/"%char = (pre ++ unk :: suf)%list ->
  isKnown unk = false ->
  decodeTokens json_Unmarshal cipher (rev suf) (Data m) = Ok d' ->
  withDecodedData json_Unmarshal m cipher
  = (setEncoding (setData m d') (strings.Join (pre ++ [unk]) "/"),
     Some (errUnknownEncoding unk)).
Proof.
  intros Hd He Hsplit Hunk Hsuf.
  assert (Hloop : withDecodedData json_Unmarshal m cipher
                  = decodeLoop json_Unmarshal cipher
                      (rev suf ++ unk :: rev pre) m).
  { unfold withDecodedData. destruct (Data m); [done|..];
      (destruct (String.eqb_spec (Encoding m) EmptyString); [done|]);
      rewrite Hsplit, rev_app_distr; cbn [rev]; by rewrite <- app_assoc. }
  rewrite Hloop, (decodeLoop_app _ _ _ _ _ Hsuf).
  assert (Hjoin : strings.Join (rev (unk :: rev pre)) "/"
                  = strings.Join (pre ++ [unk]) "/").
  { cbn [rev]. by rewrite rev_involutive. }
  destruct (rev suf) as [|t r] eqn:Hrev.
  - cbn in Hsuf. injection Hsuf as <-.
    cbn [decodeLoop]. rewrite decodeToken_unknown by done.
    assert (suf = []) as ->.
    { apply (f_equal (@rev string)) in Hrev. by rewrite rev_involutive in Hrev. }
    rewrite <- Hsplit, Join_Split, setData_same, setEncoding_same. done.
  - cbn [decodeLoop Data setEncoding setData].
    rewrite decodeToken_unknown by done. by rewrite Hjoin.
Qed.

(** *** Nothing to encode, nothing to decode *)

(** C10: a message whose data is nil is returned by withEncodedData as it
    is, with no error, whatever the cipher; a message whose data is nil
    or whose encoding is the empty string is returned by withDecodedData
    as it is, with no error. *)
Theorem nil_data_unchanged m cipher :
  (Data m = VNil -> withEncodedData json_Marshal m cipher = Done (m, None))
  /\ (Data m = VNil \/ Encoding m = EmptyString ->
        withDecodedData json_Unmarshal m cipher = (m, None)).
Proof.
  split.
  - intros Hd. unfold withEncodedData. by rewrite Hd.
  - intros [Hd|He]; unfold withDecodedData.
    + by rewrite Hd.
    + rewrite He. by destruct (Data m).
Qed.

End Facts.

(** *** The theorems on the sample collaborators *)

Import samples.

Lemma flip_flip (b : byte) : flip (flip b) = b.
Proof. destruct b; vm_compute; reflexivity. Qed.

Lemma flipCipher_valid : validCipher flipCipher.
Proof.
  split; [reflexivity|]. split; [reflexivity|].
  intros bs. exists (map flip bs). split; [reflexivity|].
  cbn. f_equal. induction bs as [|b bs IH]; [done|].
  cbn. by rewrite flip_flip, IH.
Qed.

(** An array, encrypted. *)
Lemma decode_encode_witness :
  exists m',
    withEncodedData Marshal (message (VOther (JArr [JNum 1; JNum 20])) "")
      (Some flipCipher) = Done (m', None)
    /\ withDecodedData Unmarshal m' (Some flipCipher)
       = (message (VOther (JArr [JNum 1; JNum 20])) "", None).
Proof.
  apply (decode_encode jvalue Marshal Unmarshal
           (message (VOther (JArr [JNum 1; JNum 20])) "") (Some flipCipher)).
  - reflexivity.
  - eexists. split; [reflexivity|]. split; [left; reflexivity|].
    vm_compute. reflexivity.
  - intros c [= <-]. apply flipCipher_valid.
Defined.

(** C1 as stated fails in two ways.  A string that is not valid UTF-8 is
    encoded as bytes and comes back as a byte string, not as the string;
    and a message that has an encoding before it is encoded is decoded
    through that encoding too. *)
Lemma decode_encode_not_identity :
  (withEncodedData Marshal (message (VString notUTF8) "") None
   = Done (message (VString "/w==") "base64", None)
   /\ withDecodedData Unmarshal (message (VString "/w==") "base64") None
      = (message (VBytes [xff]) "", None)
   /\ Data (message (VBytes [xff]) "") <> Data (message (VString notUTF8) ""))
  /\ (withEncodedData Marshal (message (VString "aGk=") "base64") None
      = Done (message (VString "aGk=") "base64", None)
      /\ withDecodedData Unmarshal (message (VString "aGk=") "base64") None
         = (message (VBytes [x68; x69]) "", None)
      /\ Data (message (VBytes [x68; x69]) "")
         <> Data (message (VString "aGk=") "base64")).
Proof.
  split; (split; [vm_compute; reflexivity|]);
    (split; [vm_compute; reflexivity|]); discriminate.
Qed.

(** The scalar 42 is rejected, an array is accepted. *)
Lemma withEncodedData_no_cipher_witness :
  withEncodedData Marshal (message (VOther (JNum 42)) "") None
  = Done (zeroMessage, Some errEncodedAsJSON)
  /\ withEncodedData Marshal (message (VOther (JArr [JNum 42])) "") None
     = Done (message (VString "[42]") "json", None)
  /\ withEncodedData Marshal (message (VString "text") "") None
     = Done (message (VString "text") "", None).
Proof.
  split; [|split].
  - apply (proj1 (proj2 (proj2 (proj2
             (withEncodedData_no_cipher jvalue Marshal
                (message (VOther (JNum 42)) "")))))
             (JNum 42) (String.list_byte_of_string "42"));
      [reflexivity|reflexivity|reflexivity].
  - apply (proj1 (proj2 (proj2 (proj2
             (withEncodedData_no_cipher jvalue Marshal
                (message (VOther (JArr [JNum 42])) "")))))
             (JArr [JNum 42]) (String.list_byte_of_string "[42]"));
      [reflexivity|reflexivity|reflexivity].
  - apply (proj1 (withEncodedData_no_cipher jvalue Marshal
                    (message (VString "text") "")) "text");
      [reflexivity|reflexivity].
Defined.

(** C5 as stated fails for a string that is not valid UTF-8: it is not
    left as it is, and "base64" is appended. *)
Lemma withEncodedData_string_changed :
  withEncodedData Marshal (message (VString notUTF8) "") None
  = Done (message (VString "/w==") "base64", None)
  /\ withEncodedData Marshal (message (VString notUTF8) "") None
     <> Done (message (VString notUTF8) "", None).
Proof. split; [vm_compute; reflexivity|]. vm_compute. discriminate. Qed.

(** The token "foo" between "utf-8" and "base64". *)
Lemma withDecodedData_unknown_witness :
  withDecodedData Unmarshal (message (VString "aGk=") "utf-8/foo/base64") None
  = (message (VBytes [x68; x69]) "utf-8/foo", Some (errUnknownEncoding "foo")).
Proof.
  apply (withDecodedData_unknown jvalue Unmarshal
           (message (VString "aGk=") "utf-8/foo/base64") None
           ["utf-8"] ["base64"] "foo" (VBytes [x68; x69]));
    [discriminate|discriminate|reflexivity|reflexivity|vm_compute; reflexivity].
Defined.

(** C6 as stated fails for a message without data: it is returned as it
    is, with no error, whatever its encoding. *)
Lemma withDecodedData_unknown_nil :
  withDecodedData Unmarshal (message VNil "foo") None = (message VNil "foo", None)
  /\ isKnown "foo" = false
  /\ snd (withDecodedData Unmarshal (message VNil "foo") None)
     <> Some (errUnknownEncoding "foo").
Proof. split; [reflexivity|]. split; [reflexivity|]. vm_compute. discriminate. Qed.

Lemma nil_data_unchanged_witness :
  withEncodedData Marshal (message VNil "json") (Some flipCipher)
  = Done (message VNil "json", None)
  /\ withDecodedData Unmarshal (message VNil "json") (Some flipCipher)
     = (message VNil "json", None)
  /\ withDecodedData Unmarshal (message (VString "aGk=") "") None
     = (message (VString "aGk=") "", None).
Proof.
  split; [|split].
  - apply (proj1 (nil_data_unchanged jvalue Marshal Unmarshal
                    (message VNil "json") (Some flipCipher))). reflexivity.
  - apply (proj2 (nil_data_unchanged jvalue Marshal Unmarshal
                    (message VNil "json") (Some flipCipher))). left. reflexivity.
  - apply (proj2 (nil_data_unchanged jvalue Marshal Unmarshal
                    (message (VString "aGk=") "") None)). right. reflexivity.
Defined.

End codec_facts.

(** ** Shuffle *)

Module ablyutil_facts.
Import ablyutil.
Local Open Scope Z_scope.

Lemma Intn_Done (r : rand.Rand) (k : nat) (n : Z) :
  0 < n -> exists x, rand.Intn r k n = Done x /\ 0 <= x < n.
Proof.
  intros Hn. unfold rand.Intn. destruct (Z.leb_spec n 0); [lia|].
  eexists. split; [reflexivity|]. by apply Z.mod_pos_bound.
Qed.

Lemma swap_Done (l : list string) (i n : Z) :
  0 <= i < Z.of_nat (length l) -> 0 <= n < Z.of_nat (length l) ->
  exists l', swap l i n = Done l' /\ l' ≡ₚ l.
Proof.
  intros Hi Hn. unfold swap.
  destruct (Z.ltb_spec i 0); [lia|]. destruct (Z.ltb_spec n 0); [lia|].
  cbn [orb].
  destruct (lookup_lt_is_Some_2 l (Z.to_nat i)) as [li Hli]; [lia|].
  destruct (lookup_lt_is_Some_2 l (Z.to_nat n)) as [ln Hln]; [lia|].
  rewrite Hli, Hln. eexists. split; [reflexivity|].
  by apply Permutation_insert_swap.
Qed.

(** With at least two elements every turn of the loop draws an index of
    the slice and swaps two elements. *)
Lemma shuffleFrom_Done (r : rand.Rand) (todo : nat) :
  forall (l : list string) (i : nat),
    (2 <= length l)%nat -> (i + todo <= length l)%nat ->
    exists l', shuffleFrom r l i todo = Done l' /\ l' ≡ₚ l.
Proof.
  induction todo as [|todo IH]; intros l i Hlen Hi.
  - by exists l.
  - cbn [shuffleFrom].
    destruct (Intn_Done r i (Z.of_nat (length l) - 1)) as (n & -> & Hn); [lia|].
    cbn [obind].
    destruct (swap_Done l (Z.of_nat i) n) as (l1 & -> & Hp); [lia|lia|].
    cbn [obind].
    pose proof (Permutation_length Hp) as Hlen1.
    destruct (IH l1 (S i)) as (l2 & -> & Hp2); [lia|lia|].
    exists l2. split; [done|]. by etrans.
Qed.

(** C9: Shuffle panics exactly on the lists of length 1, where the first
    turn of the loop calls rand.Intn with the bound 0, which panics; on the
    empty list and on every list of at least two elements it returns, and
    what it returns is a permutation of the list. *)
Theorem Shuffle_panics_on_singleton (r : rand.Rand) (l : list string) :
  match Shuffle r l with
  | Panic =>
      length l = 1%nat /\ rand.Intn r 0 (Z.of_nat (length l) - 1) = Panic
  | Done l' => length l <> 1%nat /\ l' ≡ₚ l
  end.
Proof.
  unfold Shuffle. destruct l as [|a [|b l]].
  - done.
  - split; reflexivity.
  - destruct (shuffleFrom_Done r (length (a :: b :: l)) (a :: b :: l) 0)
      as (l' & -> & Hp); [cbn; lia|lia|]. split; [done|done].
Qed.

Example Shuffle_singleton (r : rand.Rand) : Shuffle r ["a.ably-realtime.com"] = Panic.
Proof. reflexivity. Qed.

(** The last index is never drawn: with the generator that gives the
    largest number there is each time, the last element of three only
    moves when its own turn comes. *)
Example Shuffle_three :
  Shuffle (fun _ n => n - 1) ["a"; "b"; "c"] = Done ["b"; "c"; "a"].
Proof. reflexivity. Qed.

End ablyutil_facts.

(** ** Paths of the paginated results *)

Module paginator_facts.
Import paginator strings_facts.
Local Open Scope Z_scope.

Lemma IndexRune_ge (s : string) (c : ascii) : -1 <= strings.IndexRune s c.
Proof.
  induction s as [|d t IH]; cbn [strings.IndexRune]; [lia|].
  destruct (Ascii.eqb d c); [lia|].
  destruct (Z.ltb_spec (strings.IndexRune t c) 0); lia.
Qed.

Lemma IndexRune_app (a b : string) (c : ascii) :
  strings.IndexRune a c = -1 ->
  strings.IndexRune (a ++ String c b) c = Z.of_nat (String.length a).
Proof.
  induction a as [|d a IH].
  - intros _. change (EmptyString ++ String c b) with (String c b).
    cbn [strings.IndexRune]. by rewrite Ascii.eqb_refl.
  - change (String d a ++ String c b) with (String d (a ++ String c b)).
    cbn [strings.IndexRune String.length].
    destruct (Ascii.eqb d c); [done|].
    pose proof (IndexRune_ge a c).
    destruct (Z.ltb_spec (strings.IndexRune a c) 0) as [Hlt|Hge]; [|lia].
    intros _. rewrite IH by lia.
    destruct (Z.ltb_spec (Z.of_nat (String.length a)) 0); lia.
Qed.

Lemma IndexRune_app_none (a b : string) (c : ascii) :
  strings.IndexRune a c = -1 -> strings.IndexRune b c = -1 ->
  strings.IndexRune (a ++ b) c = -1.
Proof.
  induction a as [|d a IH]; [done|].
  change (String d a ++ b) with (String d (a ++ b)).
  cbn [strings.IndexRune]. destruct (Ascii.eqb d c); [done|].
  pose proof (IndexRune_ge a c).
  destruct (Z.ltb_spec (strings.IndexRune a c) 0) as [Hlt|Hge]; [|lia].
  intros _ Hb. rewrite IH by (done || lia). done.
Qed.

Lemma LastIndexByte_none (s : string) (c : ascii) :
  strings.IndexRune s c = -1 -> strings.LastIndexByte s c = -1.
Proof.
  induction s as [|d t IH]; [done|].
  cbn [strings.IndexRune strings.LastIndexByte].
  destruct (Ascii.eqb d c); [done|].
  pose proof (IndexRune_ge t c).
  destruct (Z.ltb_spec (strings.IndexRune t c) 0) as [Hlt|Hge]; [|lia].
  intros _. rewrite IH by lia. done.
Qed.

Lemma LastIndexByte_app (a b : string) (c : ascii) :
  strings.LastIndexByte b c = -1 ->
  strings.LastIndexByte (a ++ String c b) c = Z.of_nat (String.length a).
Proof.
  intros Hb. induction a as [|d a IH].
  - change (EmptyString ++ String c b) with (String c b).
    cbn [strings.LastIndexByte]. by rewrite Hb, Ascii.eqb_refl.
  - change (String d a ++ String c b) with (String d (a ++ String c b)).
    cbn [strings.LastIndexByte String.length]. rewrite IH.
    destruct (Z.leb_spec 0 (Z.of_nat (String.length a))); lia.
Qed.

Lemma length_append (a b : string) :
  String.length (a ++ b) = (String.length a + String.length b)%nat.
Proof.
  induction a as [|d a IH]; [done|].
  change (String d a ++ b) with (String d (a ++ b)).
  cbn [String.length]. by rewrite IH.
Qed.

Lemma str_take_app (a b : string) : str_take (String.length a) (a ++ b) = a.
Proof.
  induction a as [|d a IH]; [by destruct b|].
  change (String d a ++ b) with (String d (a ++ b)).
  cbn [String.length str_take]. by rewrite IH.
Qed.

(** The directory of a path does not depend on its last segment. *)
Lemma Dir_segment (dir seg : string) :
  strings.IndexRune seg "/"%char = -1 ->
  path.Dir (dir ++ String "/"%char seg) = path.Clean (dir ++ "/").
Proof.
  intros Hseg. unfold path.Dir, path.Split. cbn [fst].
  rewrite LastIndexByte_app by by apply LastIndexByte_none.
  replace (Z.to_nat (Z.of_nat (String.length dir) + 1))
    with (String.length (dir ++ "/")).
  - replace (dir ++ String "/"%char seg) with ((dir ++ "/") ++ seg).
    + by rewrite str_take_app.
    + by rewrite append_assoc.
  - rewrite length_append. cbn. lia.
Qed.

(** The query of the path is cut off before the directory is taken. *)
Lemma buildPath_query (p query rel : string) :
  strings.IndexRune p "?"%char = -1 ->
  buildPath (p ++ String "?"%char query) rel = buildPath p rel.
Proof.
  intros Hp. unfold buildPath. rewrite IndexRune_app, Hp by done.
  destruct (Z.eqb_spec (Z.of_nat (String.length p)) (-1)) as [|_]; [lia|].
  cbn [negb Z.eqb]. by rewrite Nat2Z.id, str_take_app.
Qed.

(** [PaginatedResult.buildPath] on the path dir/seg, with or without a
    query: the query is cut off first, and the relative link is joined
    onto the directory dir; the last segment seg is not part of the
    result. *)
Theorem buildPath_directory (dir seg query rel : string) :
  strings.IndexRune dir "?"%char = -1 ->
  strings.IndexRune seg "?"%char = -1 ->
  strings.IndexRune seg "/"%char = -1 ->
  buildPath (dir ++ String "/"%char seg ++ String "?"%char query) rel
  = path.Join [path.Clean (dir ++ "/"); rel]
  /\ buildPath (dir ++ String "/"%char seg) rel
     = path.Join [path.Clean (dir ++ "/"); rel].
Proof.
  intros Hdir Hseg Hslash.
  assert (Hp : strings.IndexRune (dir ++ String "/"%char seg) "?"%char = -1).
  { apply IndexRune_app_none; [done|].
    cbn [strings.IndexRune]. cbn [Ascii.eqb Bool.eqb]. by rewrite Hseg. }
  assert (Hplain : buildPath (dir ++ String "/"%char seg) rel
                   = path.Join [path.Clean (dir ++ "/"); rel]).
  { unfold buildPath. rewrite Hp. cbn [Z.eqb negb Pos.eqb].
    by rewrite Dir_segment. }
  split; [|done].
  replace (dir ++ String "/"%char seg ++ String "?"%char query)
    with ((dir ++ String "/"%char seg) ++ String "?"%char query).
  - by rewrite buildPath_query.
  - change (String "/"%char seg ++ String "?"%char query)
      with (String "/"%char seg ++ String "?"%char query).
    rewrite append_assoc. reflexivity.
Qed.

Lemma buildPath_directory_witness :
  buildPath ("/channels/test" ++ String "/"%char "messages"
               ++ String "?"%char "limit=2&direction=backwards")
    "./messages?start=5&limit=2"
  = "/channels/test/messages?start=5&limit=2"
  /\ buildPath ("/channels/test" ++ String "/"%char "messages")
       "./messages?start=5&limit=2"
     = "/channels/test/messages?start=5&limit=2".
Proof.
  apply (buildPath_directory "/channels/test" "messages"
           "limit=2&direction=backwards" "./messages?start=5&limit=2");
    reflexivity.
Defined.

(** [Next] asks for the path that [buildPath] gives for the link [next]
    of the page. *)
Lemma nextPage_buildPath (find : string -> option (string * string * string))
    (p : PaginatedResult) (rel : string) :
  paginationHeaders find p !! "next" = Some rel ->
  nextPage find p = Some (buildPath (path p) rel).
Proof. intros H. unfold nextPage. by rewrite H. Qed.

Example nextPage_sample :
  nextPage nextOnly
    {| path := "/channels/test/messages?limit=2";
       links := ["<./messages?start=5&limit=2>; rel=" ++ String "034"%char "next"
                   ++ String "034"%char EmptyString] |}
  = Some "/channels/test/messages?start=5&limit=2".
Proof. vm_compute. reflexivity. Qed.

(** The iterator [PaginatedResultNew] joins every link onto the base path,
    the directory of the path of the first request, whichever page is
    loaded. *)
Lemma goToLinks_next (find : string -> option (string * string * string))
    (p : PaginatedResultNew) (rawLink whole relPath : string) :
  find rawLink = Some (whole, relPath, "next") ->
  nextLink (goToLinks find p [rawLink]) = path.Join [basePath p; relPath].
Proof. intros H. unfold goToLinks. cbn [fold_left]. by rewrite H. Qed.

End paginator_facts.

(** ** The pending queue: what each call completes, and what it leaves *)

Module queue_facts.
Import pending pending_facts.
Local Open Scope Z_scope.
Local Open Scope list_scope.

Lemma ackRange_silent (q : pendingEmitter) (m : ProtocolMessage) :
  fst (ackRange q m) = [].
Proof.
  unfold ackRange. destruct (Search q m =? Len q); [done|].
  destruct (index (queue q) (Search q m)) as [e|]; [|done].
  rewrite bind_lift_Done. by destruct (MsgSerial (msg e) =? MsgSerial m).
Qed.

Lemma nackRange_silent (q : pendingEmitter) (m : ProtocolMessage) :
  fst (nackRange q m) = [].
Proof.
  unfold nackRange. destruct (Search q m =? Len q); [done|].
  destruct (index (queue q) (Search q m)) as [e|]; [|done].
  rewrite bind_lift_Done. by destruct (MsgSerial (msg e) =? MsgSerial m).
Qed.

Lemma take_take_drop_Z {A} (l : list A) (a b : Z) :
  0 <= a <= b ->
  take (Z.to_nat a) l ++ take (Z.to_nat (b - a)) (drop (Z.to_nat a) l)
  = take (Z.to_nat b) l.
Proof.
  intros H. rewrite take_take_drop. f_equal. lia.
Qed.

(** When every queued serial is below the serial of the message,
    [Search] returns the length of the queue. *)
Lemma Search_above (q : pendingEmitter) (m : ProtocolMessage) :
  sorted q ->
  (forall e, e ∈ queue q -> MsgSerial (msg e) < MsgSerial m) ->
  Search q m = Len q.
Proof.
  intros Hs Hall. destruct (Search_sorted q m Hs) as (Hr & _ & Hhi).
  destruct (Z.eq_dec (Search q m) (Len q)) as [|Hne]; [done|].
  destruct (lookup_lt_is_Some_2 (queue q) (Z.to_nat (Search q m))) as [e He].
  { unfold Len in *. lia. }
  pose proof (Hhi _ _ He ltac:(lia)).
  pose proof (Hall e (list_elem_of_lookup_2 _ _ _ He)). lia.
Qed.

(** X1: when Ack returns, the entries it has completed are the entries it
    has taken off the queue: some number of entries from the front, each
    completed once, in the order of the queue; the entries that stay are
    not completed. *)
Theorem Ack_completes_removed (q q' : pendingEmitter) (m : ProtocolMessage)
    (errInfo : option ErrorInfo) (t : list send) :
  Ack q m errInfo = (t, Done q') ->
  exists n : nat,
    (n <= length (queue q))%nat
    /\ map fst t = map ch (take n (queue q))
    /\ queue q' = drop n (queue q).
Proof.
  unfold Ack. destruct (Z.eqb_spec (Len q) 0) as [Hz|_].
  { unfold ret. intros [= <- <-]. exists 0%nat.
    split; [lia|]. split; [by rewrite take_0|by rewrite drop_0]. }
  intros H. apply bind_Done in H as (t1 & [ack nack] & t2 & Hr & H & ->).
  pose proof (ackRange_silent q m) as Ht1. rewrite Hr in Ht1. cbn in Ht1. subst t1.
  apply bind_Done in H as (t3 & nacked & t4 & Hn & H & ->).
  apply lift_Done in Hn as [Hn ->].
  apply bind_Done in H as (t5 & [] & t6 & Hsn & H & ->).
  rewrite sendAll_trace in Hsn. injection Hsn as <-.
  apply bind_Done in H as (t7 & acked & t8 & Ha & H & ->).
  apply lift_Done in Ha as [Ha ->].
  apply bind_Done in H as (t9 & [] & t10 & Hsa & H & ->).
  rewrite sendAll_trace in Hsa. injection Hsa as <-.
  apply bind_Done in H as (t11 & rest & t12 & Hrest & H & ->).
  apply lift_Done in Hrest as [Hrest ->].
  unfold ret in H. injection H as <- <-.
  apply slice_inv in Hn as (Hn1 & Hn2 & ->).
  apply slice_inv in Ha as (Ha1 & Ha2 & ->).
  apply slice_inv in Hrest as (Hr1 & Hr2 & ->).
  exists (Z.to_nat ack). split; [lia|]. split.
  - cbn [app]. rewrite !app_nil_r, map_app, !map_map. cbn [fst].
    rewrite <- map_app, Z.sub_0_r, drop_0.
    by rewrite take_take_drop_Z by lia.
  - cbn [queue]. apply take_ge. rewrite length_drop. unfold Len. lia.
Qed.

Lemma Ack_completes_removed_witness :
  exists n : nat,
    (n <= length (queue queue012))%nat
    /\ map fst [(10%nat, Some errRejected); (11%nat, @None ErrorInfo)]
       = map ch (take n (queue queue012))
    /\ queue {| queue := [entry 2 12] |} = drop n (queue queue012).
Proof.
  apply (Ack_completes_removed queue012 {| queue := [entry 2 12] |}
           (frame 1 1) (Some errRejected)).
  vm_compute. reflexivity.
Defined.

(** X2: on a queue in strictly increasing order, a NACK with a count that
    is not negative, and for which the length of the queue plus the count
    is below the largest int, so that no index wraps around, returns; it
    rejects a number of entries from the
    front with the error it carries (with nil when it carries none), in
    the order of the queue, and leaves the others; every entry with a
    serial below serial + count is among those rejected, and when the
    serial is that of the entry at the place k, the entries rejected are
    those before the place k + count. *)
Theorem Nack_rejects_range (q : pendingEmitter) (m : ProtocolMessage)
    (errInfo : option ErrorInfo) :
  sorted q -> 0 <= Count m -> Len q + Count m < max_int ->
  exists n : nat,
    Nack q m errInfo
    = (map (fun sch => (ch sch, unwrapNil errInfo)) (take n (queue q)),
       Done {| queue := drop n (queue q) |})
    /\ (forall (j : nat) e, queue q !! j = Some e ->
          MsgSerial (msg e) < MsgSerial m + Count m -> (j < n)%nat)
    /\ (forall (k : nat) e, queue q !! k = Some e ->
          MsgSerial (msg e) = MsgSerial m ->
          Z.of_nat n = min (Z.of_nat k + Count m) (Len q)).
Proof.
  intros Hs Hcount Hmax.
  destruct (Search_sorted q m Hs) as (Hr & Hlo & Hhi).
  assert (Hrange : exists nack,
    nackRange q m = ret nack
    /\ 0 <= nack <= Len q
    /\ (forall (j : nat) e, queue q !! j = Some e ->
          MsgSerial (msg e) < MsgSerial m + Count m -> Z.of_nat j < nack)
    /\ (forall (k : nat) e, queue q !! k = Some e ->
          MsgSerial (msg e) = MsgSerial m ->
          nack = min (Z.of_nat k + Count m) (Len q))).
  { unfold nackRange.
    destruct (Z.eqb_spec (Search q m) (Len q)) as [Hend|Hin].
    - exists (Len q). split; [done|]. split; [lia|]. split.
      + intros j e Hj _. apply lookup_lt_Some in Hj. unfold Len. lia.
      + intros k e Hk Heq. pose proof (Search_found q m k e Hs Hk Heq).
        apply lookup_lt_Some in Hk. unfold Len in *. lia.
    - destruct (lookup_lt_is_Some_2 (queue q) (Z.to_nat (Search q m))) as [e0 He0].
      { unfold Len in *. lia. }
      rewrite (index_Done _ _ e0) by (done || lia).
      rewrite bind_lift_Done.
      pose proof (Hhi _ _ He0 ltac:(lia)) as Hge.
      assert (Hgap : forall (j : nat) e, queue q !! j = Some e ->
                Search q m <= Z.of_nat j ->
                MsgSerial (msg e0) + (Z.of_nat j - Search q m) <= MsgSerial (msg e)).
      { intros j e Hj Hij.
        pose proof (sorted_lookup_gap (queue q) (Z.to_nat (Search q m))
                      (j - Z.to_nat (Search q m)) e0 e Hs He0) as Hg.
        replace (Z.to_nat (Search q m) + (j - Z.to_nat (Search q m)))%nat
          with j in Hg by lia.
        specialize (Hg Hj). lia. }
      destruct (Z.eqb_spec (MsgSerial (msg e0)) (MsgSerial m)) as [Heq|Hne].
      + rewrite int_add_exact by (unfold min_int, max_int, Len in *; lia).
        eexists. split; [reflexivity|].
        pose proof (min_le (Search q m + Count m) (Len q)) as [Hm1 Hm2].
        split; [unfold min in *; destruct (Search q m + Count m <? Len q); lia|].
        split.
        * intros j e Hj Hlt. pose proof (lookup_lt_Some _ _ _ Hj) as Hjl.
          destruct (Z.lt_ge_cases (Z.of_nat j) (Search q m)) as [Hb|Hb].
          -- unfold min, Len in *.
             destruct (Z.ltb_spec (Search q m + Count m) (Z.of_nat (length (queue q)))); lia.
          -- specialize (Hgap j e Hj Hb). unfold min, Len in *.
             destruct (Z.ltb_spec (Search q m + Count m) (Z.of_nat (length (queue q)))); lia.
        * intros k e Hk Hek. by rewrite (Search_found q m k e Hs Hk Hek).
      + rewrite (int_add_exact (Search q m) 1)
          by (unfold min_int, max_int, Len in *; lia).
        rewrite int_add_exact by (unfold min_int, max_int, Len in *; lia).
        eexists. split; [reflexivity|].
        pose proof (min_le (Search q m + 1 + Count m) (Len q)) as [Hm1 Hm2].
        split; [unfold min in *; destruct (Search q m + 1 + Count m <? Len q); lia|].
        split.
        * intros j e Hj Hlt. pose proof (lookup_lt_Some _ _ _ Hj) as Hjl.
          destruct (Z.lt_ge_cases (Z.of_nat j) (Search q m)) as [Hb|Hb].
          -- unfold min, Len in *.
             destruct (Z.ltb_spec (Search q m + 1 + Count m) (Z.of_nat (length (queue q)))); lia.
          -- specialize (Hgap j e Hj Hb). unfold min, Len in *.
             destruct (Z.ltb_spec (Search q m + 1 + Count m) (Z.of_nat (length (queue q)))); lia.
        * intros k e Hk Hek. pose proof (Search_found q m k e Hs Hk Hek) as Hi.
          rewrite Hi, Nat2Z.id, Hk in He0. injection He0 as <-. done. }
  destruct Hrange as (nack & Hnack & Hb & Hbelow & Hfound).
  exists (Z.to_nat nack). split; [|split].
  - unfold Nack. destruct (Z.eqb_spec (Len q) 0) as [Hz|_].
    + assert (nack = 0) as -> by lia. rewrite take_0, drop_0. by destruct q.
    + rewrite Hnack, bind_ret.
      rewrite slice_Done by (unfold Len in *; lia).
      rewrite bind_lift_Done, bind_sendAll.
      unfold Len in *. rewrite slice_to_end by lia.
      rewrite bind_lift_Done. unfold ret. cbn [fst snd].
      by rewrite drop_0, Z.sub_0_r, app_nil_r.
  - intros j e Hj Hlt. specialize (Hbelow j e Hj Hlt). lia.
  - intros k e Hk Heq. rewrite <- (Hfound k e Hk Heq). lia.
Qed.

Lemma Nack_rejects_range_witness :
  exists n : nat,
    Nack queue012 (frame 0 2) (Some errRejected)
    = (map (fun sch => (ch sch, unwrapNil (Some errRejected)))
         (take n (queue queue012)),
       Done {| queue := drop n (queue queue012) |})
    /\ (forall (j : nat) e, queue queue012 !! j = Some e ->
          MsgSerial (msg e) < MsgSerial (frame 0 2) + Count (frame 0 2) ->
          (j < n)%nat)
    /\ (forall (k : nat) e, queue queue012 !! k = Some e ->
          MsgSerial (msg e) = MsgSerial (frame 0 2) ->
          Z.of_nat n = min (Z.of_nat k + Count (frame 0 2)) (Len queue012)).
Proof.
  apply (Nack_rejects_range queue012 (frame 0 2) (Some errRejected)).
  - apply queue012_sorted.
  - vm_compute. discriminate.
  - vm_compute. reflexivity.
Defined.

(** X3: on a queue in strictly increasing order that is not empty, an ACK
    whose serial is above every queued serial does not return: every
    entry is rejected, with the error of the ACK or with the serial
    skipped error when it has none, and then the slice expression
    q.queue[nack:ack], with nack the length and ack zero, panics; the
    queue is not updated. *)
Theorem Ack_above_queue_panics (q : pendingEmitter) (m : ProtocolMessage)
    (errInfo : option ErrorInfo) :
  sorted q -> queue q <> [] ->
  (forall e, e ∈ queue q -> MsgSerial (msg e) < MsgSerial m) ->
  Ack q m errInfo
  = (map (fun sch => (ch sch, Some (skipError errInfo))) (queue q), Panic).
Proof.
  intros Hs Hne Hall.
  assert (Hlen : 0 < Len q).
  { unfold Len. destruct (queue q); [done|cbn; lia]. }
  unfold Ack. destruct (Z.eqb_spec (Len q) 0) as [|_]; [lia|].
  unfold ackRange. rewrite (Search_above q m Hs Hall), Z.eqb_refl, bind_ret.
  unfold Len in *. rewrite slice_to_end by lia.
  rewrite bind_lift_Done, bind_sendAll, drop_0.
  unfold slice.
  destruct (Z.leb_spec (Z.of_nat (length (queue q))) 0) as [|_]; [lia|].
  rewrite andb_false_r. cbn [andb lift bind fst snd]. rewrite app_nil_r.
  f_equal. apply map_ext. intros sch. f_equal.
  destruct (Z.ltb_spec 0 (Z.of_nat (length (queue q)))); [|lia].
  unfold skipError. by destruct (unwrapNil errInfo).
Qed.

Lemma Ack_above_queue_panics_witness :
  Ack queue01 (frame 5 1) None
  = (map (fun sch => (ch sch, Some (skipError None))) (queue queue01), Panic).
Proof.
  apply (Ack_above_queue_panics queue01 (frame 5 1) None).
  - apply queue01_sorted.
  - discriminate.
  - intros e He. vm_compute in He.
    apply elem_of_cons in He as [->|He]; [reflexivity|].
    apply list_elem_of_singleton in He as ->. reflexivity.
Defined.

(** X4: on a queue in strictly increasing order, Enqueue of a message
    whose serial is above every queued serial, the order in which a
    connection numbers its messages, puts the entry at the end of the
    queue and sends nothing. *)
Theorem Enqueue_in_order_appends (q : pendingEmitter) (m : ProtocolMessage)
    (c : chan) :
  sorted q ->
  (forall e, e ∈ queue q -> MsgSerial (msg e) < MsgSerial m) ->
  Enqueue q m c = ([], Done {| queue := queue q ++ [{| msg := m; ch := c |}] |}).
Proof.
  intros Hs Hall. unfold Enqueue.
  by rewrite (Search_above q m Hs Hall), Z.eqb_refl.
Qed.

Lemma Enqueue_in_order_appends_witness :
  Enqueue queue01 (frame 2 0) 12%nat
  = ([], Done {| queue := queue queue01 ++ [{| msg := frame 2 0; ch := 12%nat |}] |}).
Proof.
  apply (Enqueue_in_order_appends queue01 (frame 2 0) 12%nat).
  - apply queue01_sorted.
  - intros e He. vm_compute in He.
    apply elem_of_cons in He as [->|He]; [reflexivity|].
    apply list_elem_of_singleton in He as ->. reflexivity.
Defined.

(** The queue after [Enqueue] of a serial that is not queued. *)
Lemma Enqueue_new (q : pendingEmitter) (m : ProtocolMessage) (c : chan) :
  sorted q -> MsgSerial m ∉ serials q ->
  exists q',
    Enqueue q m c = ([], Done q')
    /\ queue q' ≡ₚ {| msg := m; ch := c |} :: queue q
    /\ sorted q'.
Proof.
  intros Hs Hnew.
  destruct (Enqueue_sorted q m c Hs) as (q' & Heq & Hs').
  exists q'. split; [done|]. split; [|done].
  destruct (Search_sorted q m Hs) as (Hr & _ & _).
  unfold Enqueue in Heq.
  destruct (Z.eqb_spec (Search q m) (Len q)) as [Hend|Hin].
  - unfold ret in Heq. injection Heq as <-. cbn [queue].
    symmetry. apply Permutation_cons_append.
  - destruct (lookup_lt_is_Some_2 (queue q) (Z.to_nat (Search q m))) as [e He].
    { unfold Len in *. lia. }
    rewrite (index_Done _ _ e) in Heq by (done || lia).
    rewrite bind_lift_Done in Heq.
    destruct (Z.eqb_spec (MsgSerial (msg e)) (MsgSerial m)) as [Hdup|_].
    + exfalso. apply Hnew. unfold serials. rewrite <- Hdup.
      apply list_elem_of_fmap. exists e. split; [done|].
      by eapply list_elem_of_lookup_2.
    + unfold ret in Heq. injection Heq as <-. cbn [queue]. unfold insertAt.
      rewrite <- Permutation_middle. by rewrite take_drop.
Qed.

(** X5: on a queue in strictly increasing order, Enqueue of a message
    whose serial is not queued sends nothing and returns a queue that
    holds the entries of the old queue and the new entry, each once,
    again in strictly increasing order, wherever the serial falls. *)
Theorem Enqueue_inserts (q : pendingEmitter) (m : ProtocolMessage) (c : chan) :
  sorted q -> MsgSerial m ∉ serials q ->
  exists q',
    Enqueue q m c = ([], Done q')
    /\ queue q' ≡ₚ {| msg := m; ch := c |} :: queue q
    /\ StronglySorted Z.lt (serials q').
Proof.
  intros Hs Hnew. destruct (Enqueue_new q m c Hs Hnew) as (q' & Heq & Hp & Hs').
  exists q'. split; [done|]. split; [done|]. by apply sorted_serials.
Qed.

Lemma Enqueue_inserts_witness :
  exists q',
    Enqueue {| queue := [entry 0 10; entry 2 12] |} (frame 1 0) 11%nat
    = ([], Done q')
    /\ queue q' ≡ₚ {| msg := frame 1 0; ch := 11%nat |}
                     :: queue {| queue := [entry 0 10; entry 2 12] |}
    /\ StronglySorted Z.lt (serials q').
Proof.
  apply (Enqueue_inserts {| queue := [entry 0 10; entry 2 12] |} (frame 1 0) 11%nat).
  - repeat constructor; unfold before; cbn; lia.
  - vm_compute. intros H.
    apply elem_of_cons in H as [H|H]; [discriminate H|].
    apply list_elem_of_singleton in H. discriminate H.
Defined.

(** X6: a message that Enqueue has put on a queue in strictly increasing
    order is completed with nil by the ACK of its serial with the count
    1, whether or not the ACK carries an error, and its serial is not in
    the queue after. *)
Theorem Enqueue_then_Ack (q : pendingEmitter) (m ackm : ProtocolMessage)
    (c : chan) (errInfo : option ErrorInfo) :
  sorted q -> MsgSerial m ∉ serials q ->
  MsgSerial ackm = MsgSerial m -> Count ackm = 1 ->
  Len q + 2 <= max_int ->
  exists q' t q'',
    Enqueue q m c = ([], Done q')
    /\ Ack q' ackm errInfo = (t, Done q'')
    /\ (c, None) ∈ t
    /\ MsgSerial m ∉ serials q''.
Proof.
  intros Hs Hnew Hserial Hcount Hmax.
  destruct (Enqueue_new q m c Hs Hnew) as (q' & Heq & Hp & Hs').
  assert (Hin : {| msg := m; ch := c |} ∈ queue q').
  { rewrite Hp. apply list_elem_of_here. }
  apply list_elem_of_lookup in Hin as [k Hk].
  pose proof (lookup_lt_Some _ _ _ Hk) as Hklen.
  pose proof (Permutation_length Hp) as Hlen. cbn [length] in Hlen.
  assert (Hmin : min (Z.of_nat k + Count ackm) (Len q') = Z.of_nat k + 1).
  { unfold min, Len. rewrite Hcount.
    destruct (Z.ltb_spec (Z.of_nat k + 1) (Z.of_nat (length (queue q')))); lia. }
  exists q'. eexists _, _. split; [done|]. split.
  { apply (Ack_found q' ackm errInfo k {| msg := m; ch := c |} Hs' Hk).
    - by rewrite Hserial.
    - lia.
    - unfold Len in *. lia. }
  rewrite Hmin. split.
  - apply elem_of_app. right. apply list_elem_of_fmap.
    exists {| msg := m; ch := c |}. split; [done|].
    apply list_elem_of_lookup. exists 0%nat.
    rewrite lookup_take_lt by lia. rewrite lookup_drop.
    by rewrite Nat.add_0_r.
  - unfold serials. cbn [queue]. intros Hm.
    apply list_elem_of_fmap in Hm as (e & He & Hm).
    apply list_elem_of_lookup in Hm as [j Hj].
    rewrite lookup_drop in Hj.
    pose proof (sorted_lookup_lt (queue q') k (Z.to_nat (Z.of_nat k + 1) + j)
                  _ e Hs' Hk Hj ltac:(lia)) as Hb.
    unfold before in Hb. cbn in Hb. lia.
Qed.

Lemma Enqueue_then_Ack_witness :
  exists q' t q'',
    Enqueue queue01 (frame 2 0) 12%nat = ([], Done q')
    /\ Ack q' (frame 2 1) (Some errRejected) = (t, Done q'')
    /\ (12%nat, None) ∈ t
    /\ MsgSerial (frame 2 0) ∉ serials q''.
Proof.
  apply (Enqueue_then_Ack queue01 (frame 2 0) (frame 2 1) 12%nat (Some errRejected)).
  - apply queue01_sorted.
  - vm_compute. intros H.
    apply elem_of_cons in H as [H|H]; [discriminate H|].
    apply list_elem_of_singleton in H. discriminate H.
  - reflexivity.
  - reflexivity.
  - vm_compute. discriminate.
Defined.

End queue_facts.

(** ** The queue of messages that wait for the connection *)

Module outbound_facts.
Import outbound.
Local Open Scope list_scope.

Lemma enqueueAll_queue (q : msgQueue)
    (l : list (pending.ProtocolMessage * pending.chan)) :
  queue (enqueueAll q l)
  = queue q ++ map (fun e => {| msg := fst e; ch := snd e |}) l.
Proof.
  revert q. induction l as [|e l IH]; intros q.
  - cbn. by rewrite app_nil_r.
  - cbn [enqueueAll fold_left map]. fold (enqueueAll (Enqueue q e.1 e.2) l).
    rewrite IH. cbn [Enqueue queue]. by rewrite <- app_assoc.
Qed.

Section Facts.
Variable error : Type.
Variable newError : Z -> error -> error.

Lemma sendEach_app (l1 l2 : list msgch) :
  @sendEach error (l1 ++ l2) = sendEach l1 ++ sendEach l2.
Proof. induction l1 as [|x l1 IH]; [done|]. cbn. by rewrite IH. Qed.

Lemma failEach_app (l1 l2 : list msgch) (err : error) :
  failEach newError (l1 ++ l2) err
  = failEach newError l1 err ++ failEach newError l2 err.
Proof. induction l1 as [|x l1 IH]; [done|]. cbn. by rewrite IH. Qed.

(** X7: the messages that Enqueue puts on the queue of the connection
    leave it in the order in which they came: Flush hands the entries
    that were queued, and then each message enqueued since, once and in
    the order of the calls, to the connection with its own channel, and
    Fail sends on the channel of each, in the same order, the error that
    newError makes of the default code 90000 and the error that Fail was
    given, whatever that function, which is not part of these files,
    returns; both leave the queue empty. *)
Theorem msgQueue_order_preserved (q : msgQueue)
    (l : list (pending.ProtocolMessage * pending.chan)) (err : error) :
  @Flush error (enqueueAll q l)
  = (sendEach (queue q) ++ map (fun e => connSend (fst e) (snd e)) l, newMsgQueue)
  /\ Fail newError (enqueueAll q l) err
     = (failEach newError (queue q) err
        ++ map (fun e => chanSend (snd e) (newError 90000 err)) l, newMsgQueue).
Proof.
  unfold Flush, Fail. rewrite enqueueAll_queue, sendEach_app, failEach_app.
  split; f_equal; f_equal; induction l as [|e l IH]; cbn; by rewrite ?IH.
Qed.

End Facts.

End outbound_facts.

(** ** Client options: keys, timeouts and URLs *)

Module config_facts.
Import config paginator_facts.
Local Open Scope Z_scope.

Lemma str_drop_app (a b : string) : str_drop (String.length a) (a ++ b) = b.
Proof.
  induction a as [|d a IH]; [by destruct b|].
  change (String d a ++ b) with (String d (a ++ b)).
  cbn [String.length str_drop]. by rewrite IH.
Qed.

(** X8: a key of the form name:secret, where the name holds no colon, is
    split at its first colon: KeyName is the name and KeySecret is the
    secret, which may hold colons; and for a key without a colon both
    are the empty string. *)
Theorem Key_split_at_first_colon (opts : authOptions) :
  (forall name secret : string,
     strings.IndexRune name ":"%char = -1 ->
     Key opts = name ++ ":" ++ secret ->
     KeyName opts = name /\ KeySecret opts = secret)
  /\ (strings.IndexRune (Key opts) ":"%char = -1 ->
      KeyName opts = "" /\ KeySecret opts = "").
Proof.
  split.
  - intros name secret Hname Hkey. unfold KeyName, KeySecret. rewrite Hkey.
    change (":" ++ secret) with (String ":"%char secret).
    rewrite IndexRune_app by done.
    destruct (Z.eqb_spec (Z.of_nat (String.length name)) (-1)) as [|_]; [lia|].
    cbn [negb]. rewrite Nat2Z.id, str_take_app. split; [done|].
    replace (Z.to_nat (Z.of_nat (String.length name) + 1))
      with (String.length (name ++ ":")).
    + replace (name ++ String ":"%char secret) with ((name ++ ":") ++ secret).
      * apply str_drop_app.
      * by rewrite strings_facts.append_assoc.
    + rewrite length_append. cbn. lia.
  - intros Hnone. unfold KeyName, KeySecret. by rewrite Hnone.
Qed.

Lemma Key_split_at_first_colon_witness :
  (KeyName (auth sandboxOptions) = "appid.keyid"
   /\ KeySecret (auth sandboxOptions) = "secret")
  /\ (KeyName {| Key := "no colon"; AuthMethod := "" |} = ""
      /\ KeySecret {| Key := "no colon"; AuthMethod := "" |} = "").
Proof.
  split.
  - apply (proj1 (Key_split_at_first_colon (auth sandboxOptions))
             "appid.keyid" "secret"); reflexivity.
  - apply (proj2 (Key_split_at_first_colon {| Key := "no colon"; AuthMethod := "" |})).
    reflexivity.
Defined.

(** X9: whatever the options are, none of the timeouts that the client
    reads through the accessors is zero: a field that is zero gives way to
    the default, and every default is positive. *)
Theorem timeouts_never_zero (opts : clientOptions) :
  timeoutConnect opts <> 0
  /\ timeoutDisconnect opts <> 0
  /\ fallbackRetryTimeout opts <> 0
  /\ realtimeRequestTimeout opts <> 0
  /\ connectionStateTTL opts <> 0
  /\ disconnectedRetryTimeout opts <> 0
  /\ httpOpenTimeout opts <> 0
  /\ suspendedRetryTimeout opts <> 0.
Proof.
  unfold timeoutConnect, timeoutDisconnect, fallbackRetryTimeout,
    realtimeRequestTimeout, connectionStateTTL, disconnectedRetryTimeout,
    httpOpenTimeout, suspendedRetryTimeout.
  repeat match goal with
         | |- _ /\ _ => split
         | |- context [Z.eqb ?a 0] => destruct (Z.eqb_spec a 0)
         end; cbn [negb]; done.
Qed.

(** X10: with an environment that is neither empty nor production and
    holds no colon, and with hosts that are not set or are the default
    hosts, the REST URL and the realtime URL name the default host with
    the environment and a dash before it, under the scheme that NoTLS
    chooses and with the port in decimal. *)
Theorem URLs_with_environment (opts : clientOptions) :
  let h := hostOptions opts in
  options.Environment h <> "" ->
  options.Environment h <> "production" ->
  strings.IndexRune (options.Environment h) ":"%char = -1 ->
  options.RESTHost h = "rest.ably.io" \/ options.RESTHost h = "" ->
  options.RealtimeHost h = "realtime.ably.io" \/ options.RealtimeHost h = "" ->
  restURL opts
  = (if NoTLS opts then "http://" else "https://")
    ++ options.Environment h ++ "-rest.ably.io:"
    ++ strconv.FormatInt (effectivePort opts)
  /\ realtimeURL opts
     = (if NoTLS opts then "ws://" else "wss://")
       ++ options.Environment h ++ "-realtime.ably.io:"
       ++ strconv.FormatInt (effectivePort opts).
Proof.
  intros h Henv Hprod Hcolon Hrest Hrt.
  assert (Hjoin : forall (dflt port : string),
            strings.IndexRune dflt ":"%char = -1 ->
            net.JoinHostPort (options.Environment h ++ "-" ++ dflt) port
            = options.Environment h ++ "-" ++ dflt ++ ":" ++ port).
  { intros dflt port Hd. unfold net.JoinHostPort.
    rewrite (IndexRune_app_none _ ("-" ++ dflt)); [| done |].
    - cbn [Z.leb Z.compare]. by rewrite !strings_facts.append_assoc.
    - change ("-" ++ dflt) with (String "-"%char dflt).
      cbn [strings.IndexRune]. cbn [Ascii.eqb Bool.eqb]. by rewrite Hd. }
  unfold restURL, realtimeURL, effectivePort. fold h.
  cbn [hostOptions defaultOptions options.RESTHost options.RealtimeHost
       options.defaultOptions].
  rewrite (options_facts.resolveHost_default_env _ _ options.restHost Hrest Henv Hprod).
  rewrite (options_facts.resolveHost_default_env _ _ "realtime.ably.io" Hrt Henv Hprod).
  rewrite !Hjoin by reflexivity.
  destruct (NoTLS opts); split; reflexivity.
Qed.

Lemma URLs_with_environment_witness :
  restURL sandboxOptions = "https://sandbox-rest.ably.io:443"
  /\ realtimeURL sandboxOptions = "wss://sandbox-realtime.ably.io:443".
Proof.
  apply (URLs_with_environment sandboxOptions);
    first [discriminate | reflexivity | right; reflexivity].
Defined.

End config_facts.

(** ** The parameters of a paginated request *)

Module params_facts.
Import params.
Local Open Scope Z_scope.

Section Facts.
Variable Time : Type.
Variable IsZero : Time -> bool.
Variable After : Time -> Time -> bool.
Variable unixMilli : Time -> Z.
Variable Encode : Values -> string.

(** X11: a range whose start is after its end is an error for
    ScopeParams.EncodeValues, which then sets nothing; but
    PaginateParams.EncodeValues drops that error: with a direction that
    it accepts it returns no error, and the values it leaves have the
    keys start, end and unit as they were before the call, also when the
    unit is set. *)
Theorem inverted_range_not_reported (p : PaginateParams Time) (out : Values) :
  IsZero (Start (scope p)) = false ->
  IsZero (End (scope p)) = false ->
  After (Start (scope p)) (End (scope p)) = true ->
  Direction p = "" \/ Direction p = "backwards" \/ Direction p = "forwards" ->
  ScopeParams_EncodeValues IsZero After unixMilli (scope p) out
  = (out, Some errStartBeforeEnd)
  /\ exists values,
       PaginateParams_EncodeValues IsZero After unixMilli p out = (values, None)
       /\ values !! "start" = out !! "start"
       /\ values !! "end" = out !! "end"
       /\ values !! "unit" = out !! "unit".
Proof.
  intros Hs He Ha Hd.
  assert (Hscope : forall o,
    ScopeParams_EncodeValues IsZero After unixMilli (scope p) o
    = (o, Some errStartBeforeEnd)).
  { intros o. unfold ScopeParams_EncodeValues. by rewrite Hs, He, Ha. }
  split; [apply Hscope|].
  unfold PaginateParams_EncodeValues. rewrite !Hscope. cbn [fst].
  set (out1 := if Limit p <? 0 then Set_ out "limit" (strconv.Itoa 100)
               else if negb (Limit p =? 0)
                    then Set_ out "limit" (strconv.Itoa (Limit p)) else out).
  assert (H1 : forall k : string, k <> "limit" -> out1 !! k = out !! k).
  { intros k Hk. unfold out1, Set_.
    destruct (Limit p <? 0); [by rewrite lookup_insert_ne|].
    destruct (negb (Limit p =? 0)); [by rewrite lookup_insert_ne|done]. }
  destruct Hd as [-> | Hd].
  - cbn [String.eqb]. eexists. split; [reflexivity|].
    split; [|split]; by apply H1.
  - assert (Hok : String.eqb (Direction p) "backwards"
                  || String.eqb (Direction p) "forwards" = true).
    { destruct Hd as [-> | ->]; reflexivity. }
    assert (Hne : String.eqb (Direction p) "" = false).
    { destruct Hd as [-> | ->]; reflexivity. }
    rewrite Hne, Hok. eexists. split; [reflexivity|].
    unfold Set_. split; [|split]; (rewrite lookup_insert_ne by done); by apply H1.
Qed.

(** X12: buildPaginatedPath fails exactly for parameters whose direction
    is neither the empty string nor backwards nor forwards, and then with
    the code 50000 and the error that names the direction; it does not
    fail without parameters, and it does not fail for a range whose start
    is after its end. *)
Theorem buildPaginatedPath_fails_iff (path : string)
    (params : option (PaginateParams Time)) (e : Z * error) :
  buildPaginatedPath IsZero After unixMilli Encode path params = Err e
  <-> exists p,
        params = Some p
        /\ Direction p <> "" /\ Direction p <> "backwards"
        /\ Direction p <> "forwards"
        /\ e = (50000, errInvalidDirection (Direction p)).
Proof.
  destruct params as [p|].
  2:{ split; [done|]. by intros (p & Hp & _). }
  unfold buildPaginatedPath, PaginateParams_EncodeValues.
  destruct (String.eqb_spec (Direction p) "") as [H0|H0].
  { cbn [fst]. split.
    - match goal with |- context [Z.ltb 0 ?n] => destruct (Z.ltb 0 n) end; done.
    - intros (p' & [= <-] & Hne & _). done. }
  destruct (String.eqb_spec (Direction p) "backwards") as [H1|H1].
  { cbn [orb fst]. split.
    - match goal with |- context [Z.ltb 0 ?n] => destruct (Z.ltb 0 n) end; done.
    - intros (p' & [= <-] & _ & Hne & _). done. }
  destruct (String.eqb_spec (Direction p) "forwards") as [H2|H2].
  { cbn [orb fst]. split.
    - match goal with |- context [Z.ltb 0 ?n] => destruct (Z.ltb 0 n) end; done.
    - intros (p' & [= <-] & _ & _ & Hne & _). done. }
  cbn [orb]. split.
  - intros [= <-]. by exists p.
  - intros (p' & [= <-] & _ & _ & _ & ->). done.
Qed.

(** X28: the parameters of the first request do not reach the paths of
    the pages that follow: when buildPaginatedPath builds the path of the
    first request from a path without a query, buildPath resolves a
    relative link against what it built as it does against the path
    alone. *)
Theorem first_request_query_dropped (path built rel : string)
    (params : option (PaginateParams Time)) :
  strings.IndexRune path "?"%char = -1 ->
  buildPaginatedPath IsZero After unixMilli Encode path params = Ok built ->
  paginator.buildPath built rel = paginator.buildPath path rel.
Proof.
  intros Hpath. destruct params as [p|]; [|by intros [= <-]].
  unfold buildPaginatedPath.
  destruct (PaginateParams_EncodeValues IsZero After unixMilli p ∅) as [values [err|]];
    [done|].
  destruct (0 <? Z.of_nat (String.length (Encode values))); [|by intros [= <-]].
  intros [= <-].
  change (path ++ "?" ++ Encode values) with (path ++ String "?"%char (Encode values)).
  by apply paginator_facts.buildPath_query.
Qed.

End Facts.

Lemma inverted_range_not_reported_witness :
  ScopeParams_EncodeValues sampleIsZero sampleAfter sampleUnixMilli
    {| Start := 2000; End := 1000; Unit := "hour" |} ∅
  = (∅, Some errStartBeforeEnd)
  /\ exists values,
       PaginateParams_EncodeValues sampleIsZero sampleAfter sampleUnixMilli
         {| scope := {| Start := 2000; End := 1000; Unit := "hour" |};
            Limit := 10; Direction := "backwards" |} ∅
       = (values, None)
       /\ values !! "start" = (∅ : Values) !! "start"
       /\ values !! "end" = (∅ : Values) !! "end"
       /\ values !! "unit" = (∅ : Values) !! "unit".
Proof.
  apply (inverted_range_not_reported Z sampleIsZero sampleAfter sampleUnixMilli
           {| scope := {| Start := 2000; End := 1000; Unit := "hour" |};
              Limit := 10; Direction := "backwards" |} ∅).
  - reflexivity.
  - reflexivity.
  - reflexivity.
  - right. left. reflexivity.
Defined.

Lemma first_request_query_dropped_witness :
  paginator.buildPath "/channels/test/messages?limit=10" "./messages?start=5"
  = paginator.buildPath "/channels/test/messages" "./messages?start=5".
Proof.
  apply (first_request_query_dropped Z sampleIsZero sampleAfter sampleUnixMilli
           (fun _ => "limit=10") "/channels/test/messages"
           "/channels/test/messages?limit=10" "./messages?start=5"
           (Some {| scope := {| Start := 0; End := 0; Unit := "" |};
                    Limit := 10; Direction := "" |})).
  - reflexivity.
  - reflexivity.
Defined.

End params_facts.

(** ** The items of the pages in turn *)

Module items_facts.
Import items.
Local Open Scope Z_scope.

Section Facts.
Variable P : Type.
Variable pnext : P -> bool * P.
Variable getLen : P -> Z.

Lemma rem_succ (k n : Z) :
  0 <= k < n -> n <= max_int ->
  Z.rem (int_add k 1) n = if k + 1 =? n then 0 else k + 1.
Proof.
  intros Hk Hn. unfold int_add, wrap_int, max_int in *.
  rewrite (Z.mod_small (k + 1 + 2 ^ 63)) by lia.
  replace (k + 1 + 2 ^ 63 - 2 ^ 63) with (k + 1) by lia.
  destruct (Z.eqb_spec (k + 1) n) as [->|Hne].
  - apply Z.rem_same. lia.
  - apply Z.rem_small. lia.
Qed.

(** Inside a page: from the item [k] on, the calls return the indices up
    to the end of the page and do not touch the paginator. *)
Lemma calls_inside (d : nat) :
  forall (it : iterator P) (k : Z),
    nextItem it = k -> 0 < k < pageLen it -> pageLen it <= max_int ->
    Z.of_nat d = pageLen it - k ->
    calls pnext getLen d it
    = Done (map (fun i => (i, true)) (seqZ k (Z.of_nat d)),
            {| p := p it; pageLen := pageLen it; nextItem := 0 |}).
Proof.
  induction d as [|d IH]; intros it k Hk Hr Hmax Hd; [lia|].
  cbn [items.calls]. unfold items.next.
  destruct (Z.eqb_spec (nextItem it) 0) as [|_]; [lia|].
  unfold advance. destruct (Z.eqb_spec (pageLen it) 0) as [|_]; [lia|].
  cbn [obind snd fst]. rewrite Hk, rem_succ by lia.
  destruct (Z.eqb_spec (k + 1) (pageLen it)) as [Hend|Hmore].
  - assert (d = 0%nat) as -> by lia. cbn [items.calls obind fst snd].
    by rewrite seqZ_cons by lia.
  - rewrite (IH _ (k + 1)); cbn [p pageLen nextItem]; [|done|lia|lia|lia].
    cbn [obind fst snd]. rewrite (seqZ_cons k) by lia. cbn [map].
    repeat f_equal; lia.
Qed.

(** X13: when the paginator has a further page and that page holds n
    items, n calls of next, the first of them at the start of a page,
    return the indices 0 to n - 1 in turn, each with true; only the first
    call loads a page, and after the last the closure is at the start of
    a page again. *)
Theorem next_iterates_page (it : iterator P) (p' : P) (n : Z) :
  nextItem it = 0 ->
  pnext (p it) = (true, p') ->
  getLen p' = n ->
  0 < n <= max_int ->
  calls pnext getLen (Z.to_nat n) it
  = Done (map (fun i => (i, true)) (seqZ 0 n),
          {| p := p'; pageLen := n; nextItem := 0 |}).
Proof.
  intros H0 Hnext Hlen Hn.
  destruct (Z.to_nat n) as [|d] eqn:Hd; [lia|].
  cbn [items.calls]. unfold items.next.
  rewrite H0, Hnext. cbn [Z.eqb negb pageLen]. rewrite Hlen.
  destruct (Z.eqb_spec n 0) as [|_]; [lia|].
  unfold advance. cbn [pageLen nextItem p].
  destruct (Z.eqb_spec n 0) as [|_]; [lia|].
  cbn [obind snd fst]. rewrite rem_succ by lia. change (0 + 1) with 1.
  rewrite (seqZ_cons 0 n) by lia. cbn [map].
  destruct (Z.eqb_spec 1 n) as [<-|Hmore].
  - cbn in Hd. assert (d = 0%nat) as -> by lia. done.
  - rewrite (calls_inside d _ 1); cbn [p pageLen nextItem]; [|done|lia|lia|lia].
    cbn [obind fst snd]. repeat f_equal; lia.
Qed.

Hypothesis getLen_range : forall x, 0 <= getLen x <= max_int.

Lemma next_inPage (it : iterator P) :
  inPage getLen it ->
  exists idx more it',
    next pnext getLen it = Done (idx, more, it')
    /\ inPage getLen it'
    /\ (more = true -> 0 <= idx < getLen (p it')).
Proof.
  intros Hin. unfold items.next.
  assert (Hadv : forall it0 : iterator P,
            0 <= nextItem it0 < pageLen it0 -> pageLen it0 = getLen (p it0) ->
            exists idx more it',
              advance it0 = Done (idx, more, it')
              /\ inPage getLen it'
              /\ (more = true -> 0 <= idx < getLen (p it'))).
  { intros it0 Hr Hl. unfold advance.
    destruct (Z.eqb_spec (pageLen it0) 0) as [|_]; [lia|].
    eexists _, _, _. split; [reflexivity|].
    pose proof (getLen_range (p it0)).
    split.
    - unfold inPage. cbn [p pageLen nextItem]. rewrite rem_succ by lia.
      destruct (Z.eqb_spec (nextItem it0 + 1) (pageLen it0)); [by left|].
      right. lia.
    - cbn [p]. lia. }
  destruct (Z.eqb_spec (nextItem it) 0) as [H0|Hne].
  - destruct (pnext (p it)) as [hasNext p'] eqn:Hp.
    destruct hasNext; cbn [negb].
    + cbn [pageLen]. destruct (Z.eqb_spec (getLen p') 0) as [Hz|Hnz].
      * eexists _, _, _. split; [reflexivity|]. split; [by left|done].
      * apply Hadv; cbn [p pageLen nextItem]; [|done].
        pose proof (getLen_range p'). lia.
    + eexists _, _, _. split; [reflexivity|]. split; [by left|done].
  - destruct Hin as [|[Hr Hl]]; [done|]. apply Hadv; [lia|done].
Qed.

(** X14: when the length of a page is the length of a slice, in every
    state that calls of next reach from the state in which loadItems
    returns it, next returns and does not panic on the remainder; and
    when it returns an index with true, the index is one of the page that
    was decoded last. *)
Theorem next_index_in_page (it : iterator P) :
  items.reached pnext getLen it ->
  exists idx more it',
    next pnext getLen it = Done (idx, more, it')
    /\ (more = true -> 0 <= idx < getLen (p it')).
Proof.
  intros Hr.
  assert (Hin : inPage getLen it).
  { induction Hr as [p0|it0 [idx more] it' Hr IH Hstep].
    - by left.
    - destruct (next_inPage it0 IH) as (idx' & more' & it'' & Heq & Hin & _).
      rewrite Heq in Hstep. by injection Hstep as _ _ <-. }
  destruct (next_inPage it Hin) as (idx & more & it' & Heq & _ & Hb).
  by exists idx, more, it'.
Qed.

End Facts.

Lemma next_iterates_page_witness :
  items.calls sampleNext sampleLen (Z.to_nat 3) (loadItems 2%nat)
  = Done (map (fun i => (i, true)) (seqZ 0 3),
          {| p := 1%nat; pageLen := 3; nextItem := 0 |}).
Proof.
  apply (next_iterates_page samplePages sampleNext sampleLen
           (loadItems 2%nat) 1%nat 3).
  - reflexivity.
  - reflexivity.
  - reflexivity.
  - vm_compute. split; [reflexivity|discriminate].
Defined.

Lemma next_index_in_page_witness :
  exists idx more it',
    items.next sampleNext sampleLen {| p := 1%nat; pageLen := 3; nextItem := 1 |}
    = Done (idx, more, it')
    /\ (more = true -> 0 <= idx < sampleLen (p it')).
Proof.
  apply (next_index_in_page samplePages sampleNext sampleLen).
  - intros x. vm_compute. split; discriminate.
  - apply (reached_next samplePages sampleNext sampleLen (loadItems 2%nat) (0, true));
      [apply reached_load|reflexivity].
Defined.

End items_facts.

(** ** The logger *)

Module logger_facts.
Import logger.
Local Open Scope N_scope.

(** X15: a logger whose level is LogNone writes nothing, whatever the
    level of the line; any other logger writes a line exactly when the
    level of the line is at most its own, with the prefix of that level
    before the text; so a line that a logger writes is written, the same,
    by every logger whose level is at least as high. *)
Theorem Printf_by_level (l l' : LoggerOptions) (level : LogLevel)
    (format : string) :
  (Level l = LogNone -> Printf l level format = [])
  /\ (Level l <> LogNone ->
      Printf l level format
      = if level <=? Level l then [logLevels level ++ format] else [])
  /\ (Level l <= Level l' -> Printf l level format <> [] ->
      Printf l' level format = Printf l level format).
Proof.
  unfold Printf, Is. split; [|split].
  - intros ->. reflexivity.
  - intros Hne. by destruct (N.eqb_spec (Level l) LogNone).
  - intros Hle.
    destruct (N.eqb_spec (Level l) LogNone) as [|Hne]; [done|].
    destruct (N.leb_spec level (Level l)) as [Hlev|]; [|done].
    intros _. cbn [negb andb].
    destruct (N.eqb_spec (Level l') LogNone) as [Hz|_].
    { unfold LogNone in *. lia. }
    destruct (N.leb_spec level (Level l')); [done|lia].
Qed.

Lemma Printf_by_level_witness :
  (Printf {| Level := LogNone |} LogError "failed" = [])
  /\ (Printf {| Level := LogInfo |} LogError "failed" = ["[ERROR] failed"])
  /\ (Printf {| Level := LogDebug |} LogError "failed"
      = Printf {| Level := LogInfo |} LogError "failed").
Proof.
  split; [|split].
  - apply (proj1 (Printf_by_level {| Level := LogNone |} {| Level := LogNone |}
                    LogError "failed")). reflexivity.
  - apply (proj1 (proj2 (Printf_by_level {| Level := LogInfo |}
                           {| Level := LogInfo |} LogError "failed"))).
    discriminate.
  - apply (proj2 (proj2 (Printf_by_level {| Level := LogInfo |}
                           {| Level := LogDebug |} LogError "failed"))).
    + vm_compute. discriminate.
    + discriminate.
Defined.

End logger_facts.

(** ** The codec: what encoding and decoding leave *)

Module payload_facts.
Import codec strings_facts codec_facts.

Lemma sameEnvelope_refl {V} (m : Message V) : sameEnvelope m m.
Proof. by repeat split. Qed.

Lemma sameEnvelope_trans {V} (m1 m2 m3 : Message V) :
  sameEnvelope m1 m2 -> sameEnvelope m2 m3 -> sameEnvelope m1 m3.
Proof.
  intros (H1 & H2 & H3 & H4 & H5 & H6) (K1 & K2 & K3 & K4 & K5 & K6).
  repeat split; congruence.
Qed.

Lemma sameEnvelope_set {V} (m : Message V) (d : value V) (e : string) :
  sameEnvelope m (setEncoding (setData m d) e).
Proof. by repeat split. Qed.

(** The text that base64 writes is ASCII, hence valid UTF-8. *)
Lemma ValidString_ASCII (s : string) :
  Forall (fun c => isASCII c = true) (String.list_ascii_of_string s) ->
  utf8.ValidString s = true.
Proof.
  induction s as [|c s IH]; [done|]. cbn [String.list_ascii_of_string].
  intros H. apply Forall_cons in H as [Hc Hs].
  cbn [utf8.ValidString]. unfold isASCII in Hc. rewrite Hc. by apply IH.
Qed.

Lemma encode_ASCII (i : Z) : isASCII (base64.encode i) = true.
Proof.
  unfold base64.encode.
  assert (Hall : Forall (fun c => isASCII c = true)
                   (String.list_ascii_of_string base64.encodeStd)).
  { apply Forall_forall. intros c Hc.
    assert (Hb : forallb isASCII (String.list_ascii_of_string base64.encodeStd) = true)
      by (vm_compute; reflexivity).
    rewrite forallb_forall in Hb. apply Hb. by apply list_elem_of_In. }
  generalize (Z.to_nat i) as n. generalize dependent base64.encodeStd.
  intros s Hall. induction s as [|c s IH]; intros n; [done|].
  cbn [String.list_ascii_of_string] in Hall.
  apply Forall_cons in Hall as [Hc Hs].
  destruct n as [|n]; cbn [String.get]; [done|]. by apply IH.
Qed.

Lemma EncodeToString_valid (b : list byte) :
  utf8.ValidString (base64.EncodeToString b) = true.
Proof.
  apply ValidString_ASCII.
  induction b as [|x|x y|x y z rest IH] using base64_facts.list_ind3;
    cbn [base64.EncodeToString String.list_ascii_of_string];
    repeat (apply Forall_cons; split; [first [apply encode_ASCII|reflexivity]|]);
    done.
Qed.

Section Facts.
Variable V : Type.
Variable json_Marshal : value V -> result error (list byte).
Variable json_Unmarshal : list byte -> result error (value V).

Implicit Types (m : Message V) (d : value V) (cipher : option channelCipher).

(** The first stage of [withEncodedData] leaves a string and appends at
    most one token. *)
Lemma encodePayload_result m m1 :
  encodePayload json_Marshal m = Ok m1 ->
  exists (s : string) (toks : list string),
    m1 = setEncoding (setData m (VString s))
           (fold_left mergeEncoding toks (Encoding m))
    /\ (toks = [] \/ toks = [encBase64] \/ toks = [encJSON]).
Proof.
  destruct m as [i ci co n d e t x]. unfold encodePayload. cbn [Data].
  assert (Hjson : forall d0 : value V,
    match json_Marshal d0 with
    | Ok b =>
        if negb (json.Token_eqb (json.firstToken b) (json.Delim "["%char))
           && negb (json.Token_eqb (json.firstToken b) (json.Delim "{"%char))
        then Err errEncodedAsJSON
        else Ok (setEncoding
                   (setData (Build_Message V i ci co n d0 e t x)
                      (VString (String.string_of_list_byte b)))
                   (mergeEncoding e encJSON))
    | Err err => Err (errEncodingJSON err)
    end = Ok m1 ->
    exists (s : string) (toks : list string),
      m1 = setEncoding (setData (Build_Message V i ci co n d e t x) (VString s))
             (fold_left mergeEncoding toks e)
      /\ (toks = [] \/ toks = [encBase64] \/ toks = [encJSON])).
  { intros d0. destruct (json_Marshal d0) as [b|err]; [|done].
    destruct (negb _ && negb _); [done|]. intros [= <-].
    exists (String.string_of_list_byte b), [encJSON]. split; [done|]. auto. }
  destruct d as [|s|b|v].
  - apply Hjson.
  - destruct (utf8.ValidString s); cbn [negb Data].
    + intros [= <-]. exists s, []. split; [done|]. auto.
    + intros [= <-]. eexists _, [encBase64]. split; [done|]. auto.
  - cbn [Data]. intros [= <-]. eexists _, [encBase64]. split; [done|]. auto.
  - apply Hjson.
Qed.

(** X16: withEncodedData never panics, so that the comment before
    coerceBytes holds; when it returns an error it returns the zero
    message; and when it returns no error the message it returns has the
    id, client id, connection id, name, timestamp and extras of the
    message it was given, and either the data was nil and the message is
    unchanged, or the data is now a string and the encoding is the old
    one with tokens merged onto it, each of them base64, json, utf-8 or
    the algorithm of the cipher. *)
Theorem withEncodedData_outcome m cipher :
  match withEncodedData json_Marshal m cipher with
  | Panic => False
  | Done (m', Some _) => m' = zeroMessage
  | Done (m', None) =>
      sameEnvelope m m'
      /\ ((Data m = VNil /\ m' = m)
          \/ exists (s : string) (toks : list string),
               Data m' = VString s
               /\ Encoding m' = fold_left mergeEncoding toks (Encoding m)
               /\ Forall (encodeToken cipher) toks)
  end.
Proof.
  unfold withEncodedData.
  assert (Hrest :
    match
      match encodePayload json_Marshal m with
      | Ok m0 =>
          match cipher with
          | Some c => encryptPayload m0 c
          | None => Done (m0, None)
          end
      | Err err => Done (zeroMessage, Some err)
      end
    with
    | Panic => False
    | Done (m', Some _) => m' = zeroMessage
    | Done (m', None) =>
        sameEnvelope m m'
        /\ ((Data m = VNil /\ m' = m)
            \/ exists (s : string) (toks : list string),
                 Data m' = VString s
                 /\ Encoding m' = fold_left mergeEncoding toks (Encoding m)
                 /\ Forall (encodeToken cipher) toks)
    end).
  { destruct (encodePayload json_Marshal m) as [m1|err] eqn:Hpay; [|done].
    apply encodePayload_result in Hpay as (s & toks & -> & Htoks).
    assert (Hown : Forall (encodeToken cipher) toks).
    { destruct Htoks as [->|[->| ->]];
        [constructor|constructor; [|constructor]; unfold encodeToken; auto..]. }
    destruct cipher as [c|].
    - unfold encryptPayload. cbn [Data setData setEncoding coerceBytes].
      destruct (Encrypt c (String.list_byte_of_string s)) as [e|err]; [|done].
      assert (Halg : Forall (encodeToken (Some c)) [GetAlgorithm c; encBase64]).
      { constructor; [|constructor; [|constructor]]; unfold encodeToken; eauto 6. }
      destruct (utf8.ValidString s);
        cbn [Data Encoding setData setEncoding];
        (split; [by repeat split|]); right.
      + exists (base64.EncodeToString e),
          (toks ++ [encUTF8; GetAlgorithm c; encBase64])%list.
        split; [done|]. split; [by rewrite fold_left_app|].
        apply Forall_app. split; [done|].
        constructor; [unfold encodeToken; auto|done].
      + exists (base64.EncodeToString e),
          (toks ++ [GetAlgorithm c; encBase64])%list.
        split; [done|]. split; [by rewrite fold_left_app|].
        by apply Forall_app.
    - split; [apply sameEnvelope_set|]. right. by exists s, toks. }
  destruct (Data m) eqn:Hd; [|exact Hrest..].
  split; [apply sameEnvelope_refl|]. by left.
Qed.

(** X17: with a cipher, a byte payload is put into base64 before it is
    encrypted and again after: when the cipher encrypts the base64 text
    of the bytes to e, withEncodedData returns the base64 text of e, and
    the encoding has the four tokens base64, utf-8, the algorithm of the
    cipher and base64 merged onto it. *)
Theorem withEncodedData_cipher_bytes m (c : channelCipher) (b e : list byte) :
  Data m = VBytes b ->
  Encrypt c (String.list_byte_of_string (base64.EncodeToString b)) = Ok e ->
  withEncodedData json_Marshal m (Some c)
  = Done (setEncoding (setData m (VString (base64.EncodeToString e)))
            (fold_left mergeEncoding
               [encBase64; encUTF8; GetAlgorithm c; encBase64] (Encoding m)),
          None).
Proof.
  intros Hd He. destruct m as [i ci co n d en t x]. cbn [Data] in Hd. subst d.
  unfold withEncodedData, encodePayload, encryptPayload.
  cbn [Data setData setEncoding coerceBytes Encoding]. rewrite He.
  by rewrite EncodeToString_valid.
Qed.

(** X27: a payload that is a string or a byte slice goes on the wire as
    text: when withEncodedData returns no error for it, with or without a
    cipher, the data of the message it returns is a string that is valid
    UTF-8, also when the string it was given was not. *)
Theorem withEncodedData_valid_text m cipher m' :
  (exists s, Data m = VString s) \/ (exists b, Data m = VBytes b) ->
  withEncodedData json_Marshal m cipher = Done (m', None) ->
  exists s : string, Data m' = VString s /\ utf8.ValidString s = true.
Proof.
  intros Hd. destruct m as [i ci co n d en t x]. cbn [Data] in Hd.
  unfold withEncodedData, encodePayload, encryptPayload.
  destruct Hd as [[s ->]|[b ->]]; cbn [Data].
  - destruct (utf8.ValidString s) eqn:Hv; cbn [negb Data setData setEncoding].
    + destruct cipher as [c|].
      * cbn [coerceBytes]. destruct (Encrypt c _) as [e|]; [|done].
        intros [= <-]. eexists. split; [reflexivity|apply EncodeToString_valid].
      * intros [= <-]. by exists s.
    + destruct cipher as [c|].
      * cbn [coerceBytes]. destruct (Encrypt c _) as [e|]; [|done].
        intros [= <-]. eexists. split; [reflexivity|apply EncodeToString_valid].
      * intros [= <-]. eexists. split; [reflexivity|apply EncodeToString_valid].
  - destruct cipher as [c|].
    + cbn [coerceBytes setData setEncoding Data].
      destruct (Encrypt c _) as [e|]; [|done].
      intros [= <-]. eexists. split; [reflexivity|apply EncodeToString_valid].
    + intros [= <-]. eexists. split; [reflexivity|apply EncodeToString_valid].
Qed.

(** *** Decoding *)

Lemma decodeToken_cipher_missing d (t : string) :
  strings.HasPrefix t encCipher = true ->
  decodeToken json_Unmarshal None t d = Err (errCipherMissing t).
Proof.
  intros Hp. unfold decodeToken.
  rewrite (HasPrefix_not_eq _ encCipher encBase64 Hp eq_refl).
  rewrite (HasPrefix_not_eq _ encCipher encUTF8 Hp eq_refl).
  rewrite (HasPrefix_not_eq _ encCipher encJSON Hp eq_refl).
  by rewrite Hp.
Qed.

(** What the loop of [withDecodedData] leaves: the tokens [done] have
    been applied, the tokens [rest] have not. *)
Lemma decodeLoop_outcome cipher (renc : list string) :
  forall m m' err,
    decodeLoop json_Unmarshal cipher renc m = (m', err) ->
    sameEnvelope m m'
    /\ exists done rest : list string,
         renc = (done ++ rest)%list
         /\ decodeTokens json_Unmarshal cipher done (Data m) = Ok (Data m')
         /\ (done = [] -> m' = m)
         /\ (done <> [] -> Encoding m' = strings.Join (rev rest) "/")
         /\ match err with
            | None => rest = []
            | Some e =>
                exists t rest', rest = t :: rest'
                  /\ decodeToken json_Unmarshal cipher t (Data m') = Err e
            end.
Proof.
  induction renc as [|t renc IH]; intros m m' err; cbn [decodeLoop].
  - intros [= <- <-]. split; [apply sameEnvelope_refl|].
    exists [], []. by repeat split.
  - destruct (decodeToken json_Unmarshal cipher t (Data m)) as [d|e] eqn:Ht.
    + intros Hloop.
      apply IH in Hloop as (Henv & done & rest & -> & Hdone & Hnil & Hcons & Herr).
      split.
      { eapply sameEnvelope_trans; [apply sameEnvelope_set|exact Henv]. }
      exists (t :: done), rest. split; [done|]. split.
      { cbn [decodeTokens]. by rewrite Ht. }
      split; [done|]. split; [|done].
      intros _. destruct done as [|u done].
      * rewrite (Hnil eq_refl). done.
      * by apply Hcons.
    + intros [= <- <-]. split; [apply sameEnvelope_refl|].
      exists [], (t :: renc). repeat split; try done. by exists t, renc.
Qed.

(** X18: withDecodedData changes the data and the encoding only.  When it
    returns no error, either the message is returned as it was (its data
    was nil, or its encoding empty) or the encoding is now empty.  When
    it returns an error, the chain of the message is pre, tok, suf for a
    token tok that failed on the data that the tokens of suf, from the
    right, had given: that data is the data it returns, and the encoding
    it returns is the chain up to and with tok. *)
Theorem withDecodedData_outcome m cipher m' err :
  withDecodedData json_Unmarshal m cipher = (m', err) ->
  sameEnvelope m m'
  /\ match err with
     | None => m' = m \/ Encoding m' = EmptyString
     | Some e =>
         exists (pre suf : list string) (tok : string),
           strings.Split (Encoding m) "/"%char = (pre ++ tok :: suf)%list
           /\ decodeTokens json_Unmarshal cipher (rev suf) (Data m) = Ok (Data m')
           /\ decodeToken json_Unmarshal cipher tok (Data m') = Err e
           /\ Encoding m' = strings.Join (pre ++ [tok]) "/"
     end.
Proof.
  unfold withDecodedData.
  assert (Hloop :
    decodeLoop json_Unmarshal cipher (rev (strings.Split (Encoding m) "/"%char)) m
    = (m', err) ->
    sameEnvelope m m'
    /\ match err with
       | None => m' = m \/ Encoding m' = EmptyString
       | Some e =>
           exists (pre suf : list string) (tok : string),
             strings.Split (Encoding m) "/"%char = (pre ++ tok :: suf)%list
             /\ decodeTokens json_Unmarshal cipher (rev suf) (Data m) = Ok (Data m')
             /\ decodeToken json_Unmarshal cipher tok (Data m') = Err e
             /\ Encoding m' = strings.Join (pre ++ [tok]) "/"
       end).
  { intros H.
    apply decodeLoop_outcome in H as (Henv & done & rest & Hrenc & Hdone & Hnil & Hcons & Herr).
    split; [done|]. destruct err as [e|].
    - destruct Herr as (t & rest' & -> & Ht).
      assert (Hsplit : strings.Split (Encoding m) "/"%char
                       = (rev rest' ++ t :: rev done)%list).
      { apply (f_equal (@rev string)) in Hrenc.
        rewrite rev_involutive in Hrenc. rewrite Hrenc, rev_app_distr.
        cbn [rev]. by rewrite <- app_assoc. }
      exists (rev rest'), (rev done), t. split; [done|].
      rewrite rev_involutive. split; [done|]. split; [done|].
      destruct done as [|u done].
      + rewrite (Hnil eq_refl). rewrite <- (Join_Split (Encoding m) "/"%char) at 1.
        rewrite Hsplit. cbn [rev]. reflexivity.
      + by rewrite Hcons.
    - subst rest. destruct done as [|u done].
      + left. by apply Hnil.
      + right. by rewrite Hcons. }
  destruct (Data m); [intros [= <- <-]; split; [apply sameEnvelope_refl|by left]|..];
    (destruct (String.eqb (Encoding m) "");
     [intros [= <- <-]; split; [apply sameEnvelope_refl|by left]|exact Hloop]).
Qed.

(** X19: a message with data whose chain holds a token that begins with
    cipher, the tokens to its right all decoding, is not decoded further
    when no cipher is given: withDecodedData returns the error that the
    cipher is missing for that token, with the data that the tokens to
    the right have given and the chain up to and with the cipher token as
    the encoding. *)
Theorem withDecodedData_cipher_missing m (pre suf : list string)
    (tok : string) d' :
  Data m <> VNil ->
  Encoding m <> EmptyString ->
  strings.Split (Encoding m) "/"%char = (pre ++ tok :: suf)%list ->
  strings.HasPrefix tok encCipher = true ->
  decodeTokens json_Unmarshal None (rev suf) (Data m) = Ok d' ->
  withDecodedData json_Unmarshal m None
  = (setEncoding (setData m d') (strings.Join (pre ++ [tok]) "/"),
     Some (errCipherMissing tok)).
Proof.
  intros Hd He Hsplit Htok Hsuf.
  assert (Hloop : withDecodedData json_Unmarshal m None
                  = decodeLoop json_Unmarshal None
                      (rev suf ++ tok :: rev pre) m).
  { unfold withDecodedData. destruct (Data m); [done|..];
      (destruct (String.eqb_spec (Encoding m) EmptyString); [done|]);
      rewrite Hsplit, rev_app_distr; cbn [rev]; by rewrite <- app_assoc. }
  rewrite Hloop, (decodeLoop_app _ _ _ _ _ _ _ Hsuf).
  assert (Hjoin : strings.Join (rev (tok :: rev pre)) "/"
                  = strings.Join (pre ++ [tok]) "/").
  { cbn [rev]. by rewrite rev_involutive. }
  destruct (rev suf) as [|t r] eqn:Hrev.
  - cbn in Hsuf. injection Hsuf as <-.
    cbn [decodeLoop]. rewrite decodeToken_cipher_missing by done.
    assert (suf = []) as ->.
    { apply (f_equal (@rev string)) in Hrev. by rewrite rev_involutive in Hrev. }
    rewrite <- Hsplit, Join_Split, setData_same, setEncoding_same. done.
  - cbn [decodeLoop Data setEncoding setData].
    rewrite decodeToken_cipher_missing by done. by rewrite Hjoin.
Qed.

End Facts.

Import samples.

Lemma withEncodedData_cipher_bytes_witness :
  withEncodedData Marshal (message (VBytes [x68; x69]) "") (Some flipCipher)
  = Done (setEncoding
            (setData (message (VBytes [x68; x69]) "")
               (VString (base64.EncodeToString
                           (map flip (String.list_byte_of_string "aGk=")))))
            (fold_left mergeEncoding
               [encBase64; encUTF8; GetAlgorithm flipCipher; encBase64]
               (Encoding (message (VBytes [x68; x69]) ""))),
          None).
Proof.
  apply (withEncodedData_cipher_bytes jvalue Marshal
           (message (VBytes [x68; x69]) "") flipCipher [x68; x69]
           (map flip (String.list_byte_of_string "aGk="))).
  - reflexivity.
  - reflexivity.
Defined.

(** The string of the byte 0xFF, which is not UTF-8, goes out as base64. *)
Lemma withEncodedData_valid_text_witness :
  exists s : string,
    Data (message (VString "/w==") "base64") = VString s
    /\ utf8.ValidString s = true.
Proof.
  apply (withEncodedData_valid_text jvalue Marshal
           (message (VString notUTF8) "") None
           (message (VString "/w==") "base64")).
  - left. by exists notUTF8.
  - vm_compute. reflexivity.
Defined.

Lemma withDecodedData_outcome_witness :
  sameEnvelope (message (VString "aGk=") "utf-8/foo/base64")
    (message (VBytes [x68; x69]) "utf-8/foo")
  /\ exists (pre suf : list string) (tok : string),
       strings.Split (Encoding (message (VString "aGk=") "utf-8/foo/base64")) "/"%char
       = (pre ++ tok :: suf)%list
       /\ decodeTokens Unmarshal None (rev suf)
            (Data (message (VString "aGk=") "utf-8/foo/base64"))
          = Ok (Data (message (VBytes [x68; x69]) "utf-8/foo"))
       /\ decodeToken Unmarshal None tok
            (Data (message (VBytes [x68; x69]) "utf-8/foo"))
          = Err (errUnknownEncoding "foo")
       /\ Encoding (message (VBytes [x68; x69]) "utf-8/foo")
          = strings.Join (pre ++ [tok]) "/".
Proof.
  apply (withDecodedData_outcome jvalue Unmarshal
           (message (VString "aGk=") "utf-8/foo/base64") None
           (message (VBytes [x68; x69]) "utf-8/foo")
           (Some (errUnknownEncoding "foo"))).
  vm_compute. reflexivity.
Defined.

(** A message that was encrypted, decoded without the cipher. *)
Lemma withDecodedData_cipher_missing_witness :
  withDecodedData Unmarshal
    (message (VString "aGk=") "utf-8/cipher+aes-128-cbc/base64") None
  = (message (VBytes [x68; x69]) "utf-8/cipher+aes-128-cbc",
     Some (errCipherMissing "cipher+aes-128-cbc")).
Proof.
  apply (withDecodedData_cipher_missing jvalue Unmarshal
           (message (VString "aGk=") "utf-8/cipher+aes-128-cbc/base64")
           ["utf-8"] ["base64"] "cipher+aes-128-cbc" (VBytes [x68; x69]));
    [discriminate|discriminate|reflexivity|reflexivity|vm_compute; reflexivity].
Defined.

End payload_facts.

(** ** The links of a page *)

Module links_facts.
Import paginator.

Section Facts.
Variable find : string -> option (string * string * string).

Lemma fold_headers (links : list string) (rel : string) :
  forall headers : gmap string string,
    fold_left
      (fun headers link =>
         match find link with
         | Some result => addMatch headers result
         | None => headers
         end)
      links headers !! rel
    = match lastMatch find links rel with
      | Some url => Some url
      | None => headers !! rel
      end.
Proof.
  induction links as [|link links IH]; intros headers; [done|].
  cbn [fold_left lastMatch]. rewrite IH.
  destruct (lastMatch find links rel) as [url|]; [done|].
  destruct (find link) as [[[whole url] r]|]; [|done].
  unfold addMatch. destruct (String.eqb_spec r rel) as [->|Hne].
  - by rewrite lookup_insert_eq.
  - by rewrite lookup_insert_ne.
Qed.

Lemma lastMatch_None (links : list string) (rel : string) :
  lastMatch find links rel = None
  <-> forall link whole url,
        link ∈ links -> find link <> Some (whole, url, rel).
Proof.
  induction links as [|link links IH]; cbn [lastMatch].
  - split; [|done]. intros _ link whole url Hin. by apply elem_of_nil in Hin.
  - destruct (lastMatch find links rel) as [u|] eqn:Hl.
    + split; [done|]. intros H. apply IH.
      intros l w u' Hin. apply H. by apply list_elem_of_further.
    + destruct IH as [IH _]. specialize (IH eq_refl).
      destruct (find link) as [[[whole url] r]|] eqn:Hf.
      * destruct (String.eqb_spec r rel) as [->|Hne].
        -- split; [done|]. intros H. exfalso.
           apply (H link whole url); [apply list_elem_of_here|done].
        -- split; [|done]. intros _ l w u' Hin.
           apply elem_of_cons in Hin as [->|Hin]; [|by apply IH].
           rewrite Hf. intros [= _ _ Hr]. done.
      * split; [|done]. intros _ l w u' Hin.
        apply elem_of_cons in Hin as [->|Hin]; [|by apply IH].
        by rewrite Hf.
Qed.

(** X20: the relations of a page are read from its Link headers in
    order, a later link replacing an earlier one of the same relation:
    for every relation, paginationHeaders holds the URL of the last link
    that matches with that relation, and nothing when no link does. *)
Theorem paginationHeaders_last_link (p : PaginatedResult) (rel : string) :
  paginationHeaders find p !! rel = lastMatch find (links p) rel.
Proof.
  unfold paginationHeaders. rewrite fold_headers.
  by destruct (lastMatch find (links p) rel).
Qed.

(** X21: Next asks for no page exactly when no Link header of the page
    matches with the relation next; when one does, it asks for the path
    that buildPath makes from the path of the page and the URL of the
    last such link. *)
Theorem Next_without_next_link (p : PaginatedResult) :
  (nextPage find p = None
   <-> forall link whole url,
         link ∈ links p -> find link <> Some (whole, url, "next"))
  /\ (forall url, lastMatch find (links p) "next" = Some url ->
        nextPage find p = Some (buildPath (path p) url)).
Proof.
  unfold nextPage, paginationHeaders. rewrite fold_headers.
  rewrite lookup_empty. split.
  - rewrite <- lastMatch_None.
    by destruct (lastMatch find (links p) "next").
  - by intros url ->.
Qed.

Lemma fold_goTo (header : list string) :
  forall acc : PaginatedResultNew,
    basePath (fold_left (goToLink find) header acc) = basePath acc
    /\ nextLink (fold_left (goToLink find) header acc)
       = match lastMatch find header "next" with
         | Some relPath => path.Join [basePath acc; relPath]
         | None => nextLink acc
         end
    /\ firstLink (fold_left (goToLink find) header acc)
       = match lastMatch find header "first" with
         | Some relPath => path.Join [basePath acc; relPath]
         | None => firstLink acc
         end.
Proof.
  induction header as [|rawLink header IH]; intros acc; [done|].
  cbn [fold_left lastMatch].
  destruct (IH (goToLink find acc rawLink)) as (Hb & Hn & Hf).
  rewrite Hb, Hn, Hf. unfold goToLink.
  destruct (find rawLink) as [[[whole relPath] rel]|];
    [destruct (String.eqb_spec rel "first") as [->|Hnf];
     [|destruct (String.eqb_spec rel "next") as [->|Hnn]]|];
    cbn;
    destruct (lastMatch find header "next"), (lastMatch find header "first");
    done.
Qed.

(** X22: loading a page never changes the base path of the iterator; the
    link to the next page is the last link of the response that matches
    with the relation next, joined onto the base path, and it is empty,
    which ends the iteration, when the response has none, whatever it was
    before; the link to the first page is replaced by the last link with
    the relation first and is kept when there is none. *)
Theorem goTo_links (p : PaginatedResultNew) (header : list string) :
  basePath (goToLinks find p header) = basePath p
  /\ nextLink (goToLinks find p header)
     = match lastMatch find header "next" with
       | Some relPath => path.Join [basePath p; relPath]
       | None => EmptyString
       end
  /\ firstLink (goToLinks find p header)
     = match lastMatch find header "first" with
       | Some relPath => path.Join [basePath p; relPath]
       | None => firstLink p
       end.
Proof.
  exact (fold_goTo header
           {| basePath := basePath p; nextLink := EmptyString;
              firstLink := firstLink p |}).
Qed.

End Facts.

End links_facts.

(** ** Shuffle and Contains *)

Module hosts_facts.
Import ablyutil ablyutil_facts.
Local Open Scope Z_scope.

Lemma swap_lookup (l l' : list string) (i n : Z) :
  swap l i n = Done l' ->
  0 <= i /\ 0 <= n
  /\ l' = <[Z.to_nat n := default "" (l !! Z.to_nat i)]>
            (<[Z.to_nat i := default "" (l !! Z.to_nat n)]> l)
  /\ (Z.to_nat i < length l)%nat /\ (Z.to_nat n < length l)%nat.
Proof.
  unfold swap.
  destruct (Z.ltb_spec i 0); [done|]. destruct (Z.ltb_spec n 0); [done|].
  cbn [orb].
  destruct (l !! Z.to_nat i) as [li|] eqn:Hi; [|done].
  destruct (l !! Z.to_nat n) as [ln|] eqn:Hn; [|done].
  intros [= <-]. apply lookup_lt_Some in Hi. apply lookup_lt_Some in Hn.
  repeat split; done || lia.
Qed.

(** The turns before the last leave the last element where it is. *)
Lemma shuffleFrom_keeps_last (r : rand.Rand) (todo : nat) :
  forall (l : list string) (i : nat),
    (2 <= length l)%nat -> (i + todo <= length l - 1)%nat ->
    exists l',
      shuffleFrom r l i todo = Done l'
      /\ l' ≡ₚ l
      /\ l' !! (length l - 1)%nat = l !! (length l - 1)%nat.
Proof.
  induction todo as [|todo IH]; intros l i Hlen Hi.
  - by exists l.
  - cbn [shuffleFrom].
    destruct (Intn_Done r i (Z.of_nat (length l) - 1)) as (n & -> & Hn); [lia|].
    cbn [obind].
    destruct (swap_Done l (Z.of_nat i) n) as (l1 & Hswap & Hp); [lia|lia|].
    rewrite Hswap. cbn [obind].
    pose proof (Permutation_length Hp) as Hlen1.
    destruct (IH l1 (S i)) as (l2 & -> & Hp2 & Hlast); [lia|lia|].
    exists l2. split; [done|]. split; [by etrans|].
    rewrite Hlen1 in Hlast. rewrite Hlast.
    apply swap_lookup in Hswap as (_ & _ & -> & _ & _).
    rewrite !list_lookup_insert_ne by lia. done.
Qed.

Lemma shuffleFrom_app (r : rand.Rand) (a b : nat) :
  forall (l : list string) (i : nat),
    shuffleFrom r l i (a + b)
    = obind (shuffleFrom r l i a) (fun l1 => shuffleFrom r l1 (i + a) b).
Proof.
  induction a as [|a IH]; intros l i.
  - cbn. by rewrite Nat.add_0_r.
  - cbn [Nat.add shuffleFrom].
    destruct (rand.Intn r i (Z.of_nat (length l) - 1)) as [n|]; [|done].
    cbn [obind]. destruct (swap l (Z.of_nat i) n) as [l1|] eqn:Hs; [|done].
    cbn [obind]. rewrite IH. by replace (S i + a)%nat with (i + S a)%nat by lia.
Qed.

(** X23: Shuffle never leaves the last element in its place.  On a list
    of at least two elements it returns a permutation in which the
    element that was last stands at an earlier index, the one drawn in
    the last turn; so when the elements are distinct, the last element
    of the result is not the last element of the list. *)
Theorem Shuffle_moves_last (r : rand.Rand) (l : list string) (x : string) :
  (2 <= length l)%nat ->
  last l = Some x ->
  exists l' (k : nat),
    Shuffle r l = Done l'
    /\ l' ≡ₚ l
    /\ (k < length l - 1)%nat
    /\ l' !! k = Some x
    /\ (NoDup l -> last l' <> Some x).
Proof.
  intros Hlen Hlast. rewrite last_lookup in Hlast.
  replace (pred (length l)) with (length l - 1)%nat in Hlast by lia.
  assert (Hsplit : Shuffle r l
            = obind (shuffleFrom r l 0 (length l - 1))
                (fun l1 => shuffleFrom r l1 (0 + (length l - 1)) 1)).
  { unfold Shuffle. rewrite <- shuffleFrom_app. f_equal. lia. }
  destruct (shuffleFrom_keeps_last r (length l - 1) l 0 Hlen)
    as (l1 & Heq1 & Hp1 & Hl1); [lia|].
  pose proof (Permutation_length Hp1) as Hlen1.
  destruct (Intn_Done r (length l - 1) (Z.of_nat (length l1) - 1))
    as (n & Hintn & Hn); [lia|].
  destruct (swap_Done l1 (Z.of_nat (length l - 1)) n) as (l2 & Hswap & Hp2);
    [lia|lia|].
  exists l2, (Z.to_nat n). split.
  { rewrite Hsplit, Heq1. cbn [obind Nat.add shuffleFrom].
    rewrite Hintn. cbn [obind]. by rewrite Hswap. }
  split; [by etrans|]. split; [lia|].
  assert (Hk : l2 !! Z.to_nat n = Some x).
  { apply swap_lookup in Hswap as (_ & _ & -> & _ & _).
    rewrite list_lookup_insert_eq by (rewrite length_insert; lia).
    rewrite Nat2Z.id, Hl1, Hlast. done. }
  split; [done|].
  intros Hnd Hl2. rewrite last_lookup in Hl2.
  assert (Hnd2 : NoDup l2) by (by rewrite Hp2, Hp1).
  pose proof (NoDup_lookup _ _ _ _ Hnd2 Hk Hl2) as Heq.
  pose proof (Permutation_length Hp2). lia.
Qed.

Lemma Shuffle_moves_last_witness :
  exists l' (k : nat),
    Shuffle (fun _ n => n - 1) ["a"; "b"; "c"] = Done l'
    /\ l' ≡ₚ ["a"; "b"; "c"]
    /\ (k < length ["a"; "b"; "c"] - 1)%nat
    /\ l' !! k = Some "c"
    /\ (NoDup ["a"; "b"; "c"] -> last l' <> Some "c").
Proof.
  apply (Shuffle_moves_last (fun _ n => n - 1) ["a"; "b"; "c"] "c").
  - cbn. lia.
  - reflexivity.
Defined.

(** X24: Contains tells whether the string is an element of the slice. *)
Theorem Contains_iff (s : list string) (str : string) :
  Contains s str = true <-> str ∈ s.
Proof.
  unfold Contains. rewrite existsb_exists. split.
  - intros (v & Hin & Heq). apply String.eqb_eq in Heq as ->.
    by apply list_elem_of_In.
  - intros Hin. exists str. split; [by apply list_elem_of_In|].
    apply String.eqb_refl.
Qed.

End hosts_facts.

(** ** The pending queue of a connection that numbers its messages in
       turn *)

Module range_facts.
Import pending pending_facts.
Local Open Scope Z_scope.
Local Open Scope list_scope.

(** X25: on a queue in strictly increasing order, Search returns the
    place where the serial of the message belongs: an index of the queue
    or its length, such that every entry before it has a smaller serial
    and every entry from it on has a serial that is not smaller. *)
Theorem Search_insertion_point (q : pendingEmitter) (m : ProtocolMessage) :
  sorted q ->
  exists i : nat,
    Search q m = Z.of_nat i
    /\ (i <= length (queue q))%nat
    /\ Forall (fun e => MsgSerial (msg e) < MsgSerial m) (take i (queue q))
    /\ Forall (fun e => MsgSerial m <= MsgSerial (msg e)) (drop i (queue q)).
Proof.
  intros Hs. destruct (Search_sorted q m Hs) as (Hr & Hlo & Hhi).
  exists (Z.to_nat (Search q m)). unfold Len in Hr.
  split; [lia|]. split; [lia|]. split.
  - apply Forall_forall. intros e He.
    apply list_elem_of_lookup in He as [j Hj].
    apply lookup_take_Some in Hj as [Hj Hlt]. apply (Hlo j e Hj). lia.
  - apply Forall_forall. intros e He.
    apply list_elem_of_lookup in He as [j Hj].
    rewrite lookup_drop in Hj. apply (Hhi _ e Hj). lia.
Qed.

Lemma Search_insertion_point_witness :
  exists i : nat,
    Search queue012 (frame 1 0) = Z.of_nat i
    /\ (i <= length (queue queue012))%nat
    /\ Forall (fun e => MsgSerial (msg e) < MsgSerial (frame 1 0))
         (take i (queue queue012))
    /\ Forall (fun e => MsgSerial (frame 1 0) <= MsgSerial (msg e))
         (drop i (queue queue012)).
Proof.
  apply (Search_insertion_point queue012 (frame 1 0)). apply queue012_sorted.
Defined.

(** The elements of a list that satisfy a predicate which holds exactly
    between two places. *)
Lemma filter_range {A} (P : A -> Prop) `{!forall x, Decision (P x)} (l : list A) :
  forall lo hi : nat,
    (forall (j : nat) e, l !! j = Some e -> (P e <-> (lo <= j < hi)%nat)) ->
    filter P l = take (hi - lo) (drop lo l).
Proof.
  induction l as [|x l IH]; intros lo hi Hr.
  - by rewrite drop_nil, take_nil.
  - pose proof (Hr 0%nat x eq_refl) as Hx.
    assert (Hl : forall lo' hi' : nat,
              (forall j : nat, (lo <= S j < hi)%nat <-> (lo' <= j < hi')%nat) ->
              filter P l = take (hi' - lo') (drop lo' l)).
    { intros lo' hi' Hshift. apply IH. intros j e Hj.
      rewrite <- Hshift. by apply (Hr (S j)). }
    destruct lo as [|lo].
    + destruct hi as [|hi].
      * rewrite filter_cons_False by (rewrite Hx; lia).
        rewrite (Hl 0%nat 0%nat) by (intros; lia). done.
      * rewrite filter_cons_True by (rewrite Hx; lia).
        rewrite (Hl 0%nat hi) by (intros; lia). cbn. by rewrite Nat.sub_0_r.
    + rewrite filter_cons_False by (rewrite Hx; lia).
      rewrite (Hl lo (hi - 1)%nat) by (intros; lia).
      cbn [drop]. f_equal. lia.
Qed.

Lemma sorted_of_lookup (l : list msgCh) :
  (forall (i j : nat) x y, l !! i = Some x -> l !! j = Some y ->
     (i < j)%nat -> before x y) ->
  StronglySorted before l.
Proof.
  induction l as [|z l IH]; intros H; constructor.
  - apply IH. intros i j x y Hi Hj Hij. apply (H (S i) (S j)); [done|done|lia].
  - apply Forall_forall. intros y Hy. apply list_elem_of_lookup in Hy as [j Hj].
    apply (H 0%nat (S j)); [done|done|lia].
Qed.

(** X26: when the serials of the queue are consecutive, the first of
    them first, as on a connection that numbers its messages in turn, an
    ACK with a serial s of the queue and a count n that is not negative,
    and for which the length of the queue plus n is at most the largest
    int, so that no index wraps around, does three things and no more: the entries with a serial below s are
    rejected, with the error of the ACK or the serial skipped error, the
    entries with a serial in [s, s+n) are completed with nil, both in the
    order of the queue, and the queue that is left holds the entries with
    a serial of s+n or above. *)
Theorem Ack_consecutive (q : pendingEmitter) (m : ProtocolMessage)
    (errInfo : option ErrorInfo) (first : Z) :
  serials q = seqZ first (Len q) ->
  first <= MsgSerial m < first + Len q ->
  0 <= Count m ->
  Len q + Count m <= max_int ->
  Ack q m errInfo
  = (map (fun e => (ch e, Some (skipError errInfo)))
       (filter (fun e => MsgSerial (msg e) < MsgSerial m) (queue q))
     ++ map (fun e => (ch e, None))
          (filter (fun e => MsgSerial m <= MsgSerial (msg e) < MsgSerial m + Count m)
             (queue q)),
     Done {| queue := filter (fun e => MsgSerial m + Count m <= MsgSerial (msg e))
                        (queue q) |}).
Proof.
  intros Hser Hin Hcount Hmax.
  assert (Hat : forall (j : nat) e, queue q !! j = Some e ->
                  MsgSerial (msg e) = first + Z.of_nat j).
  { intros j e Hj.
    assert (Hl : serials q !! j = Some (MsgSerial (msg e))).
    { unfold serials. by rewrite list_lookup_fmap, Hj. }
    rewrite Hser in Hl. apply lookup_seqZ in Hl as [Hl _]. done. }
  assert (Hs : sorted q).
  { apply sorted_of_lookup. intros i j x y Hi Hj Hij. unfold before.
    rewrite (Hat i x Hi), (Hat j y Hj). lia. }
  set (k := Z.to_nat (MsgSerial m - first)).
  destruct (lookup_lt_is_Some_2 (queue q) k) as [e0 He0].
  { unfold Len, k in *. lia. }
  assert (Hk : MsgSerial (msg e0) = MsgSerial m).
  { rewrite (Hat k e0 He0). unfold k. lia. }
  rewrite (Ack_found q m errInfo k e0 Hs He0 Hk Hcount Hmax).
  pose proof (min_le (Z.of_nat k + Count m) (Len q)) as [Hm1 Hm2].
  assert (Hm3 : Z.of_nat k <= min (Z.of_nat k + Count m) (Len q)).
  { unfold min. destruct (Z.ltb_spec (Z.of_nat k + Count m) (Len q));
      unfold Len, k in *; lia. }
  set (hi := Z.to_nat (min (Z.of_nat k + Count m) (Len q))) in *.
  assert (Hhi : forall j : nat, (j < length (queue q))%nat ->
                  (Z.of_nat j < Z.of_nat k + Count m <-> (j < hi)%nat)).
  { intros j Hj. unfold hi, min, Len in *.
    destruct (Z.ltb_spec (Z.of_nat k + Count m) (Z.of_nat (length (queue q)))); lia. }
  rewrite (filter_range (fun e => MsgSerial (msg e) < MsgSerial m) (queue q) 0 k).
  2:{ intros j e Hj. rewrite (Hat j e Hj). unfold k. lia. }
  rewrite (filter_range
             (fun e => MsgSerial m <= MsgSerial (msg e) < MsgSerial m + Count m)
             (queue q) k hi).
  2:{ intros j e Hj. rewrite (Hat j e Hj).
      pose proof (Hhi j (lookup_lt_Some _ _ _ Hj)). unfold k in *. lia. }
  rewrite (filter_range (fun e => MsgSerial m + Count m <= MsgSerial (msg e))
             (queue q) hi (length (queue q))).
  2:{ intros j e Hj. rewrite (Hat j e Hj).
      pose proof (lookup_lt_Some _ _ _ Hj) as Hlt.
      pose proof (Hhi j Hlt). unfold k in *. lia. }
  rewrite drop_0, Nat.sub_0_r.
  f_equal; [f_equal|].
  - apply map_ext_in. intros e He. f_equal.
    destruct (Z.ltb_spec 0 (Z.of_nat k)) as [|Hz].
    + unfold skipError. by destruct (unwrapNil errInfo).
    + assert (k = 0%nat) as Hk0 by lia. rewrite Hk0, take_0 in He. done.
  - do 2 f_equal. symmetry. apply take_ge. rewrite length_drop. lia.
Qed.

Lemma Ack_consecutive_witness :
  Ack queue012 (frame 1 1) None
  = (map (fun e => (ch e, Some (skipError None)))
       (filter (fun e => MsgSerial (msg e) < MsgSerial (frame 1 1)) (queue queue012))
     ++ map (fun e => (ch e, None))
          (filter (fun e => MsgSerial (frame 1 1) <= MsgSerial (msg e)
                            < MsgSerial (frame 1 1) + Count (frame 1 1))
             (queue queue012)),
     Done {| queue := filter (fun e => MsgSerial (frame 1 1) + Count (frame 1 1)
                                       <= MsgSerial (msg e))
                        (queue queue012) |}).
Proof.
  apply (Ack_consecutive queue012 (frame 1 1) None 0).
  - reflexivity.
  - vm_compute. split; [discriminate|reflexivity].
  - vm_compute. discriminate.
  - vm_compute. discriminate.
Defined.

(** X29: on a queue in strictly increasing order, an ACK with the serial
    of a queued entry and a negative count does not return: the entries
    before that entry are rejected, and then the slice expression
    q.queue[nack:ack], whose upper bound is now below its lower bound,
    panics; the queue is not updated. *)
Theorem Ack_negative_count_panics (q : pendingEmitter) (m : ProtocolMessage)
    (errInfo : option ErrorInfo) (k : nat) e :
  sorted q -> queue q !! k = Some e -> MsgSerial (msg e) = MsgSerial m ->
  Count m < 0 -> min_int <= Count m ->
  Len q <= max_int ->
  Ack q m errInfo
  = (map (fun sch => (ch sch, Some (skipError errInfo))) (take k (queue q)),
     Panic).
Proof.
  intros Hs Hk Heq Hneg Hmin Hmax.
  pose proof (lookup_lt_Some _ _ _ Hk) as Hlt.
  unfold Ack. destruct (Z.eqb_spec (Len q) 0) as [Hz|_].
  { unfold Len in Hz. lia. }
  rewrite (ackRange_found q m k e Hs Hk Heq)
    by (unfold min_int, max_int, Len in *; lia).
  unfold bind at 1. cbn [app].
  rewrite slice_Done by (unfold Len in *; lia).
  rewrite bind_lift_Done, bind_sendAll.
  assert (Hack : min (Z.of_nat k + Count m) (Len q) = Z.of_nat k + Count m).
  { unfold min, Len. destruct (Z.ltb_spec (Z.of_nat k + Count m)
                                 (Z.of_nat (length (queue q)))); lia. }
  assert (Hp : slice (queue q) (Z.of_nat k) (Z.of_nat k + Count m)
               = @Panic (list msgCh)).
  { unfold slice.
    destruct (Z.leb_spec (Z.of_nat k) (Z.of_nat k + Count m)) as [|_]; [lia|].
    by rewrite andb_false_r. }
  rewrite Hack, Hp. cbn [lift bind fst snd].
  rewrite app_nil_r, drop_0, Z.sub_0_r, Nat2Z.id.
  f_equal. apply map_ext_in. intros sch Hsch. f_equal.
  destruct (Z.ltb_spec 0 (Z.of_nat k)) as [|Hz].
  - unfold skipError. by destruct (unwrapNil errInfo).
  - assert (k = 0%nat) as Hk0 by lia. rewrite Hk0, take_0 in Hsch. done.
Qed.

Lemma Ack_negative_count_panics_witness :
  Ack queue012 (frame 1 (-1)) None
  = (map (fun sch => (ch sch, Some (skipError None))) (take 1 (queue queue012)),
     Panic).
Proof.
  apply (Ack_negative_count_panics queue012 (frame 1 (-1)) None 1 (entry 1 11)).
  - apply queue012_sorted.
  - reflexivity.
  - reflexivity.
  - reflexivity.
  - vm_compute. discriminate.
  - vm_compute. discriminate.
Defined.

(** The bound on the count is needed: with the largest int as the count,
    the index of the entry plus the count wraps around to a negative
    number, and the slice expressions panic, in [Ack] after the entries
    before the serial have been rejected, in [Nack] before any send. *)
Example Ack_count_wraps_around :
  Ack queue012 (frame 1 max_int) None
  = ([(10%nat, Some errSerialSkipped)], Panic).
Proof. vm_compute. reflexivity. Qed.

Example Nack_count_wraps_around :
  Nack queue012 (frame 1 max_int) (Some errRejected) = ([], Panic).
Proof. vm_compute. reflexivity. Qed.

End range_facts.

(** ** The directory that the links of a page are resolved against *)

Module resolution_facts.
Import paginator paginator_facts.
Local Open Scope Z_scope.

(** C8, as the code has it.  The page object PaginatedResult resolves a
    relative link against the directory of the path of the page it was
    loaded from: for the path dir/seg, with or without a query, buildPath
    joins the link onto dir, the query cut off and the last segment left
    out.  The iterator PaginatedResultNew resolves against the directory
    of the path of the request that load was called with: when that path
    is dir/seg, goTo joins the last link with the relation next, and the
    last link with the relation first, of every response onto dir,
    whichever page the response belongs to. *)
Theorem link_resolution (find : string -> option (string * string * string))
    (dir seg query rel : string) (p : PaginatedResultNew)
    (header : list string) :
  strings.IndexRune dir "?"%char = -1 ->
  strings.IndexRune seg "?"%char = -1 ->
  strings.IndexRune seg "/"%char = -1 ->
  basePath p = loadBasePath (dir ++ String "/"%char seg) ->
  buildPath (dir ++ String "/"%char seg ++ String "?"%char query) rel
  = path.Join [path.Clean (dir ++ "/"); rel]
  /\ buildPath (dir ++ String "/"%char seg) rel
     = path.Join [path.Clean (dir ++ "/"); rel]
  /\ (forall relPath, lastMatch find header "next" = Some relPath ->
        nextLink (goToLinks find p header)
        = path.Join [path.Clean (dir ++ "/"); relPath])
  /\ (forall relPath, lastMatch find header "first" = Some relPath ->
        firstLink (goToLinks find p header)
        = path.Join [path.Clean (dir ++ "/"); relPath]).
Proof.
  intros Hdir Hseg Hslash Hbase.
  destruct (buildPath_directory dir seg query rel Hdir Hseg Hslash) as [Hq Hplain].
  split; [done|]. split; [done|].
  destruct (links_facts.fold_goTo find header
              {| basePath := basePath p; nextLink := EmptyString;
                 firstLink := firstLink p |}) as (_ & Hn & Hf).
  change (fold_left (goToLink find) header
            {| basePath := basePath p; nextLink := EmptyString;
               firstLink := firstLink p |})
    with (goToLinks find p header) in Hn, Hf.
  cbn [basePath] in Hn, Hf. rewrite Hbase in Hn, Hf.
  unfold loadBasePath in Hn, Hf. rewrite Dir_segment in Hn, Hf by done.
  split; intros relPath Hlast.
  - by rewrite Hn, Hlast.
  - by rewrite Hf, Hlast.
Qed.

Lemma link_resolution_witness :
  buildPath ("/channels/test" ++ String "/"%char "messages"
               ++ String "?"%char "limit=2&direction=backwards")
    "./messages?start=5&limit=2"
  = "/channels/test/messages?start=5&limit=2"
  /\ buildPath ("/channels/test" ++ String "/"%char "messages")
       "./messages?start=5&limit=2"
     = "/channels/test/messages?start=5&limit=2"
  /\ (forall relPath,
        lastMatch relLinkRegexp [linkNext "./messages?start=5&limit=2"] "next"
        = Some relPath ->
        nextLink (goToLinks relLinkRegexp loaded
                    [linkNext "./messages?start=5&limit=2"])
        = path.Join [path.Clean ("/channels/test" ++ "/"); relPath])
  /\ (forall relPath,
        lastMatch relLinkRegexp [linkNext "./messages?start=5&limit=2"] "first"
        = Some relPath ->
        firstLink (goToLinks relLinkRegexp loaded
                     [linkNext "./messages?start=5&limit=2"])
        = path.Join [path.Clean ("/channels/test" ++ "/"); relPath]).
Proof.
  apply (link_resolution relLinkRegexp "/channels/test" "messages"
           "limit=2&direction=backwards" "./messages?start=5&limit=2"
           loaded [linkNext "./messages?start=5&limit=2"]);
    reflexivity.
Defined.

(** C8 as stated fails for the iterator PaginatedResultNew once a link
    leaves the directory of the first request.  After load of
    /channels/test/messages, a response with the link
    ../other/messages?page=2 makes /channels/other/messages?page=2 the
    next page; the response of that page, with the link
    ./messages?page=3, is resolved to /channels/test/messages?page=3,
    onto the directory of the first request, and not to
    /channels/other/messages?page=3, which joining onto the directory of
    the path of the page that is loaded would give. *)
Lemma goTo_keeps_first_directory :
  nextLink (goToLinks relLinkRegexp loaded [linkNext "../other/messages?page=2"])
  = "/channels/other/messages?page=2"
  /\ nextLink (goToLinks relLinkRegexp
                 (goToLinks relLinkRegexp loaded
                    [linkNext "../other/messages?page=2"])
                 [linkNext "./messages?page=3"])
     = "/channels/test/messages?page=3"
  /\ path.Join [path.Dir "/channels/other/messages"; "./messages?page=3"]
     = "/channels/other/messages?page=3"
  /\ nextLink (goToLinks relLinkRegexp
                 (goToLinks relLinkRegexp loaded
                    [linkNext "../other/messages?page=2"])
                 [linkNext "./messages?page=3"])
     <> path.Join [path.Dir "/channels/other/messages"; "./messages?page=3"].
Proof.
  split; [vm_compute; reflexivity|].
  split; [vm_compute; reflexivity|].
  split; [vm_compute; reflexivity|].
  vm_compute. discriminate.
Qed.

End resolution_facts.
